(** * alphacsc: the dictionary update [update_d_multi.py]

    A shallow embedding of [alphacsc/update_d_multi.py] and proofs about it.

    numpy arrays are rectangular nested lists ([vec], [mat], [ten] for one,
    two and three axes); an array with a zero-length axis loses the sizes of
    its inner axes in this representation, so the statements below are about
    arrays whose axes all have positive length.  Scalars are kept abstract
    behind the interface [Num], which is instantiated twice: with the real
    numbers (exact arithmetic) and with binary64 floating point numbers
    (what numpy computes with).  Python exceptions are values of [result];
    arrays that the code mutates in place live in a heap of arrays and are
    named by their location. *)

From Stdlib Require Import List Arith ZArith Lia Bool.
From Stdlib Require Import Reals Lra.
From Stdlib Require PrimFloat String DecimalString.
From Stdlib Require FloatAxioms QArith.
Import ListNotations.

Set Implicit Arguments.

(** ** Python exceptions *)

Inductive exn : Type :=
| AssertionError
| AttributeError
| ValueError
| TypeError
| UnboundLocalError.

Inductive result (A : Type) : Type :=
| Ok (a : A)
| Raise (e : exn).

Arguments Ok {A} a.
Arguments Raise {A} e.

Definition bind {A B : Type} (r : result A) (k : A -> result B) : result B :=
  match r with
  | Ok a => k a
  | Raise e => Raise e
  end.

Notation "x <- r ;; k" := (bind r (fun x => k))
  (at level 61, r at next level, right associativity).

(** Python integers that may be negative. *)
Definition int : Type := Z.

(** ** Scalars *)

Class Num : Type := {
  num : Type;
  n0 : num;
  n1 : num;
  nadd : num -> num -> num;
  nsub : num -> num -> num;
  nmul : num -> num -> num;
  ndiv : num -> num -> num;
  nsqrt : num -> num;
  nabs : num -> num;
  (* np.maximum *)
  nmax : num -> num -> num;
  (* the comparison [<=], as Python evaluates it *)
  nleb : num -> num -> bool;
  (* np.finfo(np.float32).eps *)
  float32_eps : num
}.

(** Arrays of one, two and three axes. *)
#[warnings="-notation-for-abbreviation"] Notation vec := (list num) (only parsing).
#[warnings="-notation-for-abbreviation"] Notation mat := (list (list num)) (only parsing).
#[warnings="-notation-for-abbreviation"] Notation ten := (list (list (list num))) (only parsing).

Section Arrays.

Context {N : Num}.

(** *** List helpers *)

(** [zip] followed by a map: stops at the end of the shorter list. *)
Fixpoint map2 {A B C : Type} (f : A -> B -> C) (a : list A) (b : list B) : list C :=
  match a, b with
  | x :: a', y :: b' => f x y :: map2 f a' b'
  | _, _ => []
  end.

Fixpoint mapM {A B : Type} (f : A -> result B) (a : list A) : result (list B) :=
  match a with
  | [] => Ok []
  | x :: a' => y <- f x ;; ys <- mapM f a' ;; Ok (y :: ys)
  end.

Fixpoint zipM {A B C : Type} (f : A -> B -> result C) (a : list A) (b : list B)
  : result (list C) :=
  match a, b with
  | x :: a', y :: b' => z <- f x y ;; zs <- zipM f a' b' ;; Ok (z :: zs)
  | _, _ => Ok []
  end.

(** *** numpy primitives *)

(** numpy broadcasting along one axis: equal lengths are paired, an axis of
    length one is stretched, anything else is a [ValueError]. *)
Definition bcast {A B C : Type} (f : A -> B -> result C) (a : list A) (b : list B)
  : result (list C) :=
  if Nat.eqb (length a) (length b) then zipM f a b
  else match a, b with
       | [x], _ => mapM (fun y => f x y) b
       | _, [y] => mapM (fun x => f x y) a
       | _, _ => Raise ValueError
       end.

Definition bcast3 (f : num -> num -> num) (a b : ten) : result ten :=
  bcast (bcast (bcast (fun x y => Ok (f x y)))) a b.

(** In-place operators ([a -= b]) stretch only the right operand. *)
Definition bcast_into {A B : Type} (f : A -> B -> result A) (a : list A) (b : list B)
  : result (list A) :=
  if Nat.eqb (length a) (length b) then zipM f a b
  else match b with
       | [y] => mapM (fun x => f x y) a
       | _ => Raise ValueError
       end.

Definition isub2 (a b : mat) : result mat :=
  bcast_into (bcast_into (fun x y => Ok (nsub x y))) a b.

(** [np.sum] of a one-dimensional array. *)
Definition np_sum (v : vec) : num := fold_left nadd v n0.

(** [(a * b).sum()] for one-dimensional [a] and [b] of one length. *)
Definition dot (a b : vec) : num := np_sum (map2 nmul a b).

Definition vadd (a b : vec) : vec := map2 nadd a b.
Definition madd (a b : mat) : mat := map2 vadd a b.

(** Sum of a non-empty list of arrays of one shape, along the list. *)
Definition sum_list {A : Type} (add : A -> A -> A) (dflt : A) (l : list A) : A :=
  match l with
  | [] => dflt
  | x :: l' => fold_left add l' x
  end.

(** [a.shape] of a three-dimensional array. *)
Definition shape3 {A : Type} (a : list (list (list A))) : nat * nat * nat :=
  (length a, length (hd [] a), length (hd [] (hd [] a))).

(** *** scipy.signal.convolve and np.convolve on one-dimensional arrays *)

Definition window (n len : nat) (v : vec) : vec := firstn len (skipn n v).

(** The kernel, reversed, slides over the volume; each position where it
    fits entirely yields one output. *)
Definition slide (vol ker : vec) : vec :=
  map (fun n => dot (window n (length ker) vol) (rev ker))
      (seq 0 (length vol - length ker + 1)).

(** [convolve(in1, in2, mode='valid')]: the inputs are swapped when the
    second one is the longer. *)
Definition convolve_valid (in1 in2 : vec) : vec :=
  if Nat.ltb (length in1) (length in2) then slide in2 in1 else slide in1 in2.

Definition zeros (n : nat) : vec := repeat n0 n.

(** [np.convolve(a, v)] (mode 'full'): the volume is padded with zeros. *)
Definition convolve_full (a v : vec) : vec :=
  slide (zeros (length v - 1) ++ a ++ zeros (length v - 1)) v.

(** *** alphacsc.utils *)

(** Modelled from the spec: [_get_D] of [alphacsc/utils.py], which is not
    among the sources.  The full atom tensor is the outer product of the
    spatial slice (the first [n_chan] entries of a row of [uv]) and the
    temporal slice (the remaining entries):
    [uv[:, :n_chan, None] * uv[:, None, n_chan:]]. *)
Definition _get_D (uv : mat) (n_chan : nat) : ten :=
  map (fun row =>
         map (fun u => map (fun v => nmul u v) (skipn n_chan row))
             (firstn n_chan row))
      uv.

(** Modelled from the spec: [construct_X_multi] of [alphacsc/utils.py], which
    is not among the sources.  The reconstruction of trial [i] and channel [p]
    is the sum over the atoms [k] of the full convolution of the code
    [Z[k, i]] with the atom [D[k, p]]. *)
Definition construct_X_multi (Z D : ten) : ten :=
  map (fun i =>
         sum_list madd []
           (map2 (fun zk dk => map (fun dkp => convolve_full (nth i zk []) dkp) dk)
                 Z D))
      (seq 0 (length (hd [] Z))).

(** ** update_d_multi.py *)

Definition _dense_transpose_convolve (Z residual : ten) : ten :=
  map (fun zk =>
         sum_list madd []
           (map2 (fun zik res_i =>
                    map (fun res_ip => convolve_valid res_ip (rev zik)) res_i)
                 zk residual))
      Z.

(** The dictionary of [_get_d_update_constants]. *)
Record constants : Type := {
  ZtX : ten;
  ZtZ : ten;
  n_chan : nat
}.

Definition _gradient_d (D : ten) (X Z : option ten) (cst : option constants)
  : result ten :=
  match cst with
  | Some c =>
      let g :=
        map (fun zzk =>
               sum_list madd []
                 (map2 (fun zzkk dk => map (fun dkp => convolve_valid zzkk dkp) dk)
                       zzk D))
            (ZtZ c) in
      bcast3 nsub g (ZtX c)
  | None =>
      match Z, X with
      | Some z, Some x =>
          residual <- bcast3 nsub (construct_X_multi z D) x ;;
          Ok (_dense_transpose_convolve z residual)
      | None, _ => Raise AttributeError    (* None has no shape *)
      | Some _, None => Raise TypeError    (* an array minus None *)
      end
  end.

(** [np.c_[a, b]] for two-dimensional arrays. *)
Definition np_c_ (a b : mat) : result mat :=
  if Nat.eqb (length a) (length b) then Ok (map2 (@app num) a b)
  else Raise ValueError.

Definition _gradient_uv (uv : mat) (X Z : option ten) (cst : option constants)
  : result mat :=
  n_chan <- match cst with
            | Some c => Ok (n_chan c)
            | None =>
                match X with
                | None => Raise AssertionError
                | Some x =>
                    match Z with
                    | None => Raise AssertionError
                    | Some _ => Ok (length (hd [] x))
                    end
                end
            end ;;
  let D := _get_D uv n_chan in
  grad_d <- _gradient_d D X Z cst ;;
  gu <- bcast3 nmul grad_d (map (fun row => [skipn n_chan row]) uv) ;;
  let grad_u := map (map np_sum) gu in
  gv <- bcast3 nmul grad_d
          (map (fun row => map (fun u => [u]) (firstn n_chan row)) uv) ;;
  let grad_v := map (sum_list vadd []) gv in
  np_c_ grad_u grad_v.

(** [np.linalg.norm(uv, axis=1)] *)
Definition linalg_norm (uv : mat) : vec :=
  map (fun row => nsqrt (np_sum (map (fun x => nmul x x) row))) uv.

Definition prox_uv (uv : mat) : mat :=
  let norm_uv := map (fun n => nmax n1 n) (linalg_norm uv) in
  map2 (fun row n => map (fun x => ndiv x n) row) uv norm_uv.

(** *** _get_d_update_constants *)

(** [a[i, j, k] += v] *)
Fixpoint upd {A : Type} (i : nat) (f : A -> A) (l : list A) : list A :=
  match l, i with
  | [], _ => []
  | x :: l', O => f x :: l'
  | x :: l', S i' => x :: upd i' f l'
  end.

Definition iadd3 (a : ten) (i j k : nat) (v : num) : ten :=
  upd i (upd j (upd k (fun x => nadd x v))) a.

Definition get3 (a : ten) (i j k : nat) : num :=
  nth k (nth j (nth i a []) []) n0.

(** [z[:-t]] for [t > 0] *)
Definition drop_last (t : nat) (z : vec) : vec := firstn (length z - t) z.

(** The body of the innermost loop. *)
Definition ZtZ_body (Z : ten) (t0 k0 k i : nat) (acc : ten) (t : nat) : ten :=
  let z0 := nth i (nth k0 Z []) [] in
  let z := nth i (nth k Z []) [] in
  if Nat.eqb t 0 then iadd3 acc k0 k t0 (dot z0 z)
  else
    let acc' := iadd3 acc k0 k (t0 + t) (dot (drop_last t z0) (skipn t z)) in
    iadd3 acc' k0 k (t0 - t) (dot (skipn t z0) (drop_last t z)).

Definition ZtZ_loops (Z : ten) (n_atoms n_trials n_times_atom : nat) (ZtZ0 : ten)
  : ten :=
  let t0 := n_times_atom - 1 in
  fold_left (fun acc k0 =>
    fold_left (fun acc k =>
      fold_left (fun acc i =>
        fold_left (ZtZ_body Z t0 k0 k i) (seq 0 n_times_atom) acc)
        (seq 0 n_trials) acc)
      (seq 0 n_atoms) acc)
    (seq 0 n_atoms) ZtZ0.

Definition _get_d_update_constants (X Z : ten) : result constants :=
  let '(n_atoms, n_trials, n_times_valid) := shape3 Z in
  let '(_, n_chan, n_times) := shape3 X in
  let n_times_atom := (Z.of_nat n_times - Z.of_nat n_times_valid + 1)%Z in
  let ztx :=
    map (fun zk =>
           sum_list madd []
             (map2 (fun zik xi => map (fun xip => convolve_valid (rev zik) xip) xi)
                   zk X))
        Z in
  (* np.zeros refuses a negative dimension *)
  if (2 * n_times_atom - 1 <? 0)%Z then Raise ValueError
  else
    let L := Z.to_nat n_times_atom in
    let ZtZ0 := repeat (repeat (zeros (2 * L - 1)) n_atoms) n_atoms in
    Ok {| ZtX := ztx;
          ZtZ := ZtZ_loops Z n_atoms n_trials L ZtZ0;
          n_chan := n_chan |}.

(** *** update_uv *)

(** The arrays that [update_uv] can reach, and what it printed. *)
Inductive message : Type :=
| DidNotConverge
| Iterations (n : nat).

Definition loc : Type := nat.

Record world : Type := {
  heap : list mat;
  stdout : list message
}.

Definition deref (w : world) (l : loc) : mat := nth l (heap w) [].

Definition alloc (w : world) (m : mat) : loc * world :=
  (length (heap w), {| heap := heap w ++ [m]; stdout := stdout w |}).

Definition store (w : world) (l : loc) (m : mat) : world :=
  {| heap := upd l (fun _ => m) (heap w); stdout := stdout w |}.

Definition print (w : world) (s : message) : world :=
  {| heap := heap w; stdout := stdout w ++ [s] |}.

(** The local variables of [update_uv] when the loop is left: the array
    [uv_hat], the loop variable [ii] if it was ever bound, and whether the
    loop was left by [break]. *)
Record locals : Type := {
  uv_hat : loc;
  ii : option nat;
  broke : bool
}.

Definition scale (s : num) (m : mat) : mat := map (map (nmul s)) m.

(** [np.sum(abs(grad))] *)
Definition abs_sum (grad : mat) : num := np_sum (map nabs (concat grad)).

(** [for ii in range(max_iter)], from iteration [i] on, with [todo]
    iterations left. *)
Fixpoint update_uv_loop (cst : constants) (step_size eps : num)
    (todo i : nat) (last : option nat) (uv_hat : loc) (w : world)
  : result locals * world :=
  match todo with
  | O => (Ok {| uv_hat := uv_hat; ii := last; broke := false |}, w)
  | S todo' =>
      match _gradient_uv (deref w uv_hat) None None (Some cst) with
      | Raise e => (Raise e, w)
      | Ok grad =>
          match isub2 (deref w uv_hat) (scale step_size grad) with
          | Raise e => (Raise e, w)
          | Ok m =>
              let w1 := store w uv_hat m in
              let (uv_hat', w2) := alloc w1 (prox_uv (deref w1 uv_hat)) in
              let f := abs_sum grad in
              if nleb f eps
              then (Ok {| uv_hat := uv_hat'; ii := Some i; broke := true |}, w2)
              else update_uv_loop cst step_size eps todo' (S i) (Some i) uv_hat' w2
          end
      end
  end.

Definition update_uv_locals (X Z : ten) (uv_hat0 : loc) (max_iter : nat)
    (step_size : num) (eps : option num) (verbose : int) (w : world)
  : result locals * world :=
  match _get_d_update_constants X Z with
  | Raise e => (Raise e, w)
  | Ok cst =>
      let eps := match eps with None => float32_eps | Some e => e end in
      let (uv_hat, w) := alloc w (deref w uv_hat0) in
      match update_uv_loop cst step_size eps max_iter 0 None uv_hat w with
      | (Raise e, w) => (Raise e, w)
      | (Ok s, w) =>
          let w := if broke s then w else print w DidNotConverge in
          if (1 <? verbose)%Z then
            match ii s with
            | None => (Raise UnboundLocalError, w)
            | Some ii => (Ok s, print w (Iterations (ii + 1)))
            end
          else (Ok s, w)
      end
  end.

Definition update_uv (X Z : ten) (uv_hat0 : loc) (max_iter : nat)
    (step_size : num) (eps : option num) (verbose : int) (w : world)
  : result loc * world :=
  match update_uv_locals X Z uv_hat0 max_iter step_size eps verbose w with
  | (Ok s, w) => (Ok (uv_hat s), w)
  | (Raise e, w) => (Raise e, w)
  end.

End Arrays.

(** What [print] writes for a message. *)
Section Printing.

Import String.
Local Open Scope string_scope.

Definition render (m : message) : string :=
  match m with
  | DidNotConverge => "update_uv did not converge"
  | Iterations n =>
      DecimalString.NilEmpty.string_of_uint (Nat.to_uint n) ++ " iterations"
  end.

(** What a run of three iterations that does not converge prints when
    [verbose > 1]. *)
Definition three_iterations_printed : list string :=
  ["update_uv did not converge"; "3 iterations"].

End Printing.

(** ** The two instances of the scalars *)

(** Exact arithmetic: the real numbers. *)
Definition Rleb (a b : R) : bool := if Rle_dec a b then true else false.

Definition RNum : Num :=
  {| num := R;
     n0 := 0%R;
     n1 := 1%R;
     nadd := Rplus;
     nsub := Rminus;
     nmul := Rmult;
     ndiv := Rdiv;
     nsqrt := sqrt;
     nabs := Rabs;
     nmax := Rmax;
     nleb := Rleb;
     float32_eps := (/ 2 ^ 23)%R |}.

(** What numpy computes with: binary64 numbers.  [np.maximum] propagates
    NaN. *)
Section Binary64.

Import PrimFloat.
Local Open Scope float_scope.

Definition fmax (a b : float) : float :=
  if is_nan a then a
  else if is_nan b then b
  else if ltb a b then b else a.

Definition FNum : Num :=
  {| num := float;
     n0 := 0;
     n1 := 1;
     nadd := add;
     nsub := sub;
     nmul := mul;
     ndiv := div;
     nsqrt := sqrt;
     nabs := abs;
     nmax := fmax;
     nleb := leb;
     float32_eps := 0x1p-23 |}.

End Binary64.

(** ** Definitions for the statements and the proofs *)

Section Auxiliary.

Context {N : Num}.

(** The norm that [prox_uv] takes of one row of [uv], and the projection of
    the row. *)
Definition row_norm (row : vec) : num :=
  nsqrt (np_sum (map (fun x => nmul x x) row)).

Definition prox_row (row : vec) : vec :=
  map (fun x => ndiv x (nmax n1 (row_norm row))) row.

(** One iteration of the loop on the value of [uv_hat]: the new value and
    the convergence signal. *)
Definition iteration (cst : constants) (step_size : num) (uv : mat)
  : result (mat * num) :=
  grad <- _gradient_uv uv None None (Some cst) ;;
  m <- isub2 uv (scale step_size grad) ;;
  Ok (prox_uv m, abs_sum grad).

(** [n] iterations from [uv] during which the convergence signal stays
    above the tolerance; [None] when the signal falls to the tolerance, or
    an iteration raises, within these [n] iterations. *)
Fixpoint without_convergence (cst : constants) (step_size eps : num)
    (n : nat) (uv : mat) : option mat :=
  match n with
  | O => Some uv
  | S n' =>
      match iteration cst step_size uv with
      | Ok (uv', f) =>
          if nleb f eps then None
          else without_convergence cst step_size eps n' uv'
      | Raise _ => None
      end
  end.

(** The world after the step and the projection of one iteration. *)
Definition after_step (w : world) (u : loc) (m : mat) : world :=
  snd (alloc (store w u m) (prox_uv (deref (store w u m) u))).

Definition tolerance (eps : option num) : num :=
  match eps with None => float32_eps | Some e => e end.

(** [a] has shape [(d1, d2, d3)]. *)
Definition shaped3 (a : ten) (d1 d2 d3 : nat) : Prop :=
  length a = d1 /\
  forall i, i < d1 ->
    length (nth i a []) = d2 /\
    forall j, j < d2 -> length (nth j (nth i a []) []) = d3.

(** The shape of an array, decided. *)
Definition has_shape3 (a : ten) (d1 d2 d3 : nat) : bool :=
  Nat.eqb (length a) d1 &&
  forallb (fun m => Nat.eqb (length m) d2 &&
                    forallb (fun v => Nat.eqb (length v) d3) m) a.

Definition hit (a b c i j k : nat) : bool :=
  Nat.eqb i a && Nat.eqb j b && Nat.eqb k c.

(** What one pass through the body of the innermost loop does to the
    entry [(a, b, c)] of the array. *)
Definition body_effect (Z : ten) (t0 a b c k0 k i : nat) (v : num) (t : nat) : num :=
  let z0 := nth i (nth k0 Z []) [] in
  let z := nth i (nth k Z []) [] in
  if Nat.eqb t 0 then
    if hit a b c k0 k t0 then nadd v (dot z0 z) else v
  else
    let v' := if hit a b c k0 k (t0 + t)
              then nadd v (dot (drop_last t z0) (skipn t z)) else v in
    if hit a b c k0 k (t0 - t)
    then nadd v' (dot (skipn t z0) (drop_last t z)) else v'.

Definition loops_effect (Z : ten) (n_atoms n_trials n_times_atom a b c : nat)
    (v : num) : num :=
  let t0 := n_times_atom - 1 in
  fold_left (fun v k0 =>
    fold_left (fun v k =>
      fold_left (fun v i =>
        fold_left (body_effect Z t0 a b c k0 k i) (seq 0 n_times_atom) v)
        (seq 0 n_trials) v)
      (seq 0 n_atoms) v)
    (seq 0 n_atoms) v.

(** The term that trial [i] adds at lag [+t], and at lag [-t]. *)
Definition lag_plus (t : nat) (z0 z : vec) : num :=
  if Nat.eqb t 0 then dot z0 z else dot (drop_last t z0) (skipn t z).

Definition lag_minus (t : nat) (z0 z : vec) : num :=
  dot (skipn t z0) (drop_last t z).

(** The length of the atoms, as [_get_d_update_constants] computes it. *)
Definition n_times_atom (X Z : ten) : nat :=
  Z.to_nat (Z.of_nat (length (hd [] (hd [] X)))
            - Z.of_nat (length (hd [] (hd [] Z))) + 1).

End Auxiliary.

(** Arrays given by their entries. *)
Definition tab1 {A : Type} (n : nat) (f : nat -> A) : list A := map f (seq 0 n).

Definition tab2 {A : Type} (n m : nat) (f : nat -> nat -> A) : list (list A) :=
  tab1 n (fun i => tab1 m (f i)).

Definition tab3 {A : Type} (n m l : nat) (f : nat -> nat -> nat -> A)
  : list (list (list A)) :=
  tab1 n (fun i => tab2 m l (f i)).

Section ExactDefinitions.

Local Open Scope R_scope.

(** The Euclidean norm of a row, as mathematics defines it. *)
Definition sum_sq (row : list R) : R := fold_right (fun x acc => x * x + acc) 0 row.

Definition euclidean_norm (row : list R) : R := sqrt (sum_sq row).

(** The divisor that [prox_uv] applies to a row. *)
Definition divisor (row : list R) : R := Rmax 1 (euclidean_norm row).

(** The sum of [f 0], ..., [f (n - 1)]. *)
Fixpoint bigsum (n : nat) (f : nat -> R) : R :=
  match n with
  | O => 0
  | S n' => bigsum n' f + f n'
  end.

(** An entry of a convolution: the kernel is read backwards. *)
Definition conv_entry (vol ker : list R) (n : nat) : R :=
  bigsum (length ker)
    (fun j => nth (n + j) vol 0 * nth (length ker - 1 - j) ker 0).

(** The code [z] seen through the padding of a kernel of length [L]. *)
Definition padded (L : nat) (z : list R) (m : nat) : R :=
  if Nat.ltb m (L - 1) then 0 else nth (m - (L - 1)) z 0.

(** The correlation of every code row with every row of a data-shaped
    array [af], summed over the trials: [ZtX] when [af] is the data, the
    direct gradient when [af] is the residual.  The code is [zf], of [n]
    trials and [Tv] time steps. *)
Definition corr_entry (n Tv : nat) (zf af : nat -> nat -> nat -> R)
    (k p t : nat) : R :=
  bigsum n (fun i =>
    bigsum Tv (fun s => af i p (t + s)%nat * nth s (tab1 Tv (zf k i)) 0)).

(** The reconstruction from [K] atoms [df] of length [L]. *)
Definition X_hat_entry (K L Tv : nat) (zf df : nat -> nat -> nat -> R)
    (i p s : nat) : R :=
  bigsum K (fun k =>
    bigsum L (fun j => padded L (tab1 Tv (zf k i)) (s + j)
                       * df k p (L - 1 - j)%nat)).

(** The convolution of [ZtZ], of entries [zzf], with the atoms. *)
Definition cached_entry (K L : nat) (df zzf : nat -> nat -> nat -> R)
    (k p t : nat) : R :=
  bigsum K (fun k' =>
    bigsum L (fun j => zzf k k' (t + j)%nat * df k' p (L - 1 - j)%nat)).

End ExactDefinitions.

(** ** Concrete inputs *)

Section Binary64Inputs.

Import PrimFloat.
#[local] Existing Instance FNum.
Local Open Scope float_scope.

(** Two atoms, one trial, two channels, atoms of length 2. *)
Definition Z_run : ten := [[[1; 2; 0]]; [[0; 1; 1]]].

Definition X_run : ten := [[[1; 2; 3; 4]; [0; 1; 0; 1]]].

Definition uv_run : mat := [[1; 0.5; 1; 2]; [0.5; 1; 0; 1]].

Definition w_run : world := {| heap := [uv_run]; stdout := [] |}.

Definition step_run : num := 0.5.

(** A code that is zero everywhere: the gradient vanishes. *)
Definition Z_zero : ten := [[[0]]].

Definition X_zero : ten := [[[0]]].

Definition cst_zero : constants :=
  {| ZtX := [[[0]]]; ZtZ := [[[0]]]; n_chan := 1 |}.

Definition w_34 : world := {| heap := [[[3; 4]]]; stdout := [] |}.

(** One atom of length 2 on one channel. *)
Definition uv_111 : mat := [[1; 1; 1]].

Definition Z_one_trial : ten := [[[1; 2]]].

Definition Z_two_trials : ten := [[[1; 2]; [3; 4]]].

Definition X_one_trial : ten := [[[1; 2; 3]]].

Definition X_two_trials : ten := [[[1; 2; 3]]; [[1; 1; 1]]].

Definition X_three_trials : ten := [[[1; 2; 3]]; [[1; 1; 1]]; [[1; 1; 1]]].

(** A statistics record whose [ZtX] has two channels while [n_chan] is 1. *)
Definition cst_two_channels : constants :=
  {| ZtX := [[[1; 2]; [3; 4]]]; ZtZ := [[[1; 2; 1]]]; n_chan := 1 |}.

End Binary64Inputs.

Section ExactInputs.

#[local] Existing Instance RNum.
Local Open Scope R_scope.

Definition Z_zeroR : ten := [[[0]]].

Definition X_zeroR : ten := [[[0]]].

Definition cst_zeroR : constants :=
  {| ZtX := [[[0]]]; ZtZ := [[[0]]]; n_chan := 1 |}.

Definition w_34R : world := {| heap := [[[3; 4]]]; stdout := [] |}.

(** Two atoms, one trial, two channels, atoms of length 2. *)
Definition Z_runR : list (list (list R)) := [[[1; 2; 0]]; [[0; 1; 1]]].

Definition X_runR : list (list (list R)) := [[[1; 2; 3; 4]; [0; 1; 0; 1]]].

Definition D_runR : list (list (list R)) :=
  [[[1; 2]; [1 / 2; 1]]; [[0; 1 / 2]; [0; 1]]].

End ExactInputs.

(** ** update_d_multi.py, continued *)

Section Objective.

Context {N : Num}.

(** The literal [.5]. *)
Definition half : num := ndiv n1 (nadd n1 n1).

(** [np.sum] of a three-dimensional array. *)
Definition np_sum3 (a : ten) : num := np_sum (concat (concat a)).

(** The function [objective] that [update_uv] defines (and never calls);
    [X], [Z] and [n_chan] are the variables of [update_uv] it closes
    over. *)
Definition objective (X Z : ten) (n_chan : nat) (uv : mat) : result num :=
  let D := _get_D uv n_chan in
  let X_hat := construct_X_multi Z D in
  res <- bcast3 nsub X X_hat ;;
  Ok (nmul half (np_sum3 (map (map (map (fun r => nmul r r))) res))).

(** [a] has shape [(d1, d2)]. *)
Definition shaped2 (a : mat) (d1 d2 : nat) : Prop :=
  length a = d1 /\ forall i, i < d1 -> length (nth i a []) = d2.

Definition has_shape2 (a : mat) (d1 d2 : nat) : bool :=
  Nat.eqb (length a) d1 && forallb (fun v => Nat.eqb (length v) d2) a.

End Objective.

(** A computation that can only fail with a [ValueError]. *)
Definition only_ValueError {A : Type} (r : result A) : Prop :=
  forall e, r = Raise e -> e = ValueError.

(** ** Binary64 numbers as rational numbers *)

Section Binary64ExactValues.

Import PrimFloat.

(** The rational number that a finite binary64 number stands for (zero for
    the infinities and NaN). *)
Definition float_to_Q (f : float) : QArith_base.Q :=
  match FloatOps.Prim2SF f with
  | SpecFloat.S754_finite s m e =>
      let v := QArith_base.Qmult (QArith_base.inject_Z (Zpos m))
                 (QArith_base.Qpower (QArith_base.inject_Z 2) e) in
      if s then QArith_base.Qopp v else v
  | _ => QArith_base.inject_Z 0
  end.

(** The sum of the squares of a row of binary64 numbers, without any
    rounding. *)
Definition exact_sum_sq (row : list float) : QArith_base.Q :=
  fold_right (fun x acc =>
                QArith_base.Qplus
                  (QArith_base.Qmult (float_to_Q x) (float_to_Q x)) acc)
             (QArith_base.inject_Z 0) row.


End Binary64ExactValues.

Section Binary64MoreInputs.

Import PrimFloat.
#[local] Existing Instance FNum.
Local Open Scope float_scope.

(** The statistics of [X_run] and [Z_run]. *)
Definition cst_run : constants :=
  {| ZtX := [[[5; 8]; [2; 1]]; [[5; 7]; [1; 1]]];
     ZtZ := [[[2; 5; 2]; [0; 2; 3]]; [[3; 2; 0]; [1; 2; 1]]];
     n_chan := 2 |}.

(** Data of one time step for a code of two. *)
Definition X_short : ten := [[[1]]].

(** A row of seven numbers whose squares add up to a little less than 1. *)
Definition row_below_1 : vec :=
  [0x1.f0be25a3a8984p-1; 0x1.f03c63319c612p-3;
   0x1.0000000000001p-27; 0x1.0000000000001p-27; 0x1.0000000000001p-27;
   0x1.6a09e667f3bcdp-27; 0x1.6a09e667f3bcdp-27].

(** A step size at the top of the binary64 range. *)
Definition step_huge : num := 0x1p1023.

End Binary64MoreInputs.

Section ExactMoreInputs.

#[local] Existing Instance RNum.
Local Open Scope R_scope.

(** Two atoms for [X_runR] and [Z_runR]: two channels, two time steps. *)
Definition uv_runR : list (list R) := [[1; 0; 1; 1]; [0; 1; 2; 0]].

Definition w_runR : world := {| heap := [uv_runR]; stdout := [] |}.

End ExactMoreInputs.

(** ** Shapes, row by row *)

(** [l] has [n] entries, each of which satisfies [Q]. *)
Definition rows_of {A : Type} (n : nat) (Q : A -> Prop) (l : list A) : Prop :=
  length l = n /\ Forall Q l.

Definition has_len {A : Type} (n : nat) (l : list A) : Prop := length l = n.

Section ExactMoreDefinitions.

Local Open Scope R_scope.

(** The chain rule of [_gradient_uv], entry by entry: the gradient with
    respect to [D], of entries [gf], against the rows [uf] of [uv]. *)
Definition grad_uv_entry (P L : nat) (gf : nat -> nat -> nat -> R)
    (uf : nat -> nat -> R) (k j : nat) : R :=
  if Nat.ltb j P
  then bigsum L (fun t => gf k j t * uf k (P + t)%nat)
  else bigsum P (fun p => gf k p (j - P)%nat * uf k p).

(** The correlation of the code with the residual of the atoms [df] on the
    data [xf]. *)
Definition residual_entry (K n L Tv : nat) (zf xf df : nat -> nat -> nat -> R)
    (k p t : nat) : R :=
  corr_entry n Tv zf
    (fun i p s => X_hat_entry K L Tv zf df i p s - xf i p s) k p t.

End ExactMoreDefinitions.

(** * Proofs *)

Ltac Rcompute :=
  cbv -[Rplus Rminus Rmult Rdiv Rinv Ropp IZR sqrt Rabs Rmax Rleb Rle_dec].

Ltac array_eq :=
  repeat match goal with
         | |- Ok _ = Ok _ => apply f_equal
         | |- Some _ = Some _ => apply f_equal
         | |- Build_constants _ _ _ = Build_constants _ _ _ => apply f_equal3
         | |- (_ :: _) = (_ :: _) => apply f_equal2
         | |- [] = [] => reflexivity
         | |- @eq nat _ _ => reflexivity
         end.

Ltac Rsimp :=
  cbn [num n0 n1 nadd nsub nmul ndiv nsqrt nabs nmax nleb RNum] in *.

Ltac Rlia := Rsimp; lia.

(** ** Facts that hold for every choice of scalars *)

Section ArrayFacts.

Context {N : Num}.

Lemma map2_length {A B C : Type} (f : A -> B -> C) (a : list A) (b : list B) :
  length (map2 f a b) = Nat.min (length a) (length b).
Proof.
  revert b; induction a as [|x a IH]; intros [|y b]; simpl; auto.
Qed.

Lemma map2_diag {A B C D : Type} (f : B -> C -> D) (g : A -> B) (h : A -> C)
    (a : list A) :
  map2 f (map g a) (map h a) = map (fun x => f (g x) (h x)) a.
Proof.
  induction a as [|x a IH]; simpl; auto. now rewrite IH.
Qed.

Lemma prox_uv_rows (uv : mat) : prox_uv uv = map prox_row uv.
Proof.
  unfold prox_uv, linalg_norm. rewrite map_map.
  rewrite <- (map_id uv) at 1.
  rewrite map2_diag. reflexivity.
Qed.

Lemma prox_uv_nth (uv : mat) (k : nat) :
  nth k (prox_uv uv) [] = prox_row (nth k uv []).
Proof.
  rewrite prox_uv_rows.
  change (@nil num) with (prox_row []) at 1.
  apply map_nth.
Qed.

End ArrayFacts.

(** ** Exact arithmetic: the projection *)

Section ExactProjection.

#[local] Existing Instance RNum.
Local Open Scope R_scope.

Lemma fold_left_Rplus (l : list R) (a : R) :
  fold_left Rplus l a = a + fold_right Rplus 0 l.
Proof.
  revert a; induction l as [|x l IH]; intros a; simpl.
  - lra.
  - rewrite IH. lra.
Qed.

Lemma np_sum_R (l : list R) : np_sum l = fold_right Rplus 0 l.
Proof. unfold np_sum; simpl. rewrite fold_left_Rplus. lra. Qed.

Lemma row_norm_R (row : list R) : row_norm row = euclidean_norm row.
Proof.
  unfold row_norm, euclidean_norm; simpl. f_equal.
  rewrite np_sum_R. induction row as [|x row IH]; simpl; auto.
  now rewrite IH.
Qed.

Lemma sum_sq_scaled (row : list R) (d : R) :
  d <> 0 -> sum_sq (map (fun x => x / d) row) = sum_sq row / (d * d).
Proof.
  intros Hd. induction row as [|x row IH]; simpl.
  - field. exact Hd.
  - rewrite IH. field. exact Hd.
Qed.

Lemma euclidean_norm_scaled (row : list R) (d : R) :
  0 < d -> euclidean_norm (map (fun x => x / d) row) = euclidean_norm row / d.
Proof.
  intros Hd. unfold euclidean_norm.
  rewrite sum_sq_scaled by lra.
  rewrite sqrt_div_alt by nra.
  f_equal. apply sqrt_square. lra.
Qed.

Lemma divisor_ge_1 (row : list R) : 1 <= divisor row.
Proof. apply Rmax_l. Qed.

Lemma prox_row_R (row : list R) :
  prox_row row = map (fun x => x / divisor row) row.
Proof. unfold prox_row, divisor. rewrite row_norm_R. reflexivity. Qed.

Lemma prox_row_norm (row : list R) :
  euclidean_norm (prox_row row) = euclidean_norm row / divisor row.
Proof.
  rewrite prox_row_R. apply euclidean_norm_scaled.
  pose proof (divisor_ge_1 row). lra.
Qed.

Lemma prox_row_norm_le_1 (row : list R) : euclidean_norm (prox_row row) <= 1.
Proof.
  rewrite prox_row_norm.
  pose proof (divisor_ge_1 row) as H1.
  assert (H2 : euclidean_norm row <= divisor row) by apply Rmax_r.
  apply Rmult_le_reg_r with (divisor row); [lra|].
  unfold Rdiv. rewrite Rmult_assoc, Rinv_l by lra. lra.
Qed.

Lemma prox_row_norm_eq_1 (row : list R) :
  1 < euclidean_norm row -> euclidean_norm (prox_row row) = 1.
Proof.
  intros H. rewrite prox_row_norm. unfold divisor.
  rewrite Rmax_right by lra. field. lra.
Qed.

Lemma prox_row_small (row : list R) :
  euclidean_norm row <= 1 -> prox_row row = row.
Proof.
  intros H. rewrite prox_row_R. unfold divisor.
  rewrite Rmax_left by lra.
  rewrite <- (map_id row) at 2. apply map_ext. intros x. field.
Qed.

Lemma prox_row_idem (row : list R) : prox_row (prox_row row) = prox_row row.
Proof. apply prox_row_small, prox_row_norm_le_1. Qed.

End ExactProjection.

(** ** The optimization loop and the heap *)

Section LoopFacts.

Context {N : Num}.

Lemma upd_length {A : Type} (i : nat) (f : A -> A) (l : list A) :
  length (upd i f l) = length l.
Proof.
  revert i; induction l as [|x l IH]; intros [|i]; simpl; auto.
Qed.

Lemma upd_nth_error_other {A : Type} (i j : nat) (f : A -> A) (l : list A) :
  i <> j -> nth_error (upd i f l) j = nth_error l j.
Proof.
  revert i j; induction l as [|x l IH]; intros [|i] [|j] H; simpl; auto;
    try congruence.
Qed.

Lemma upd_nth_same {A : Type} (i : nat) (f : A -> A) (l : list A) (d : A) :
  i < length l -> nth i (upd i f l) d = f (nth i l d).
Proof.
  revert i; induction l as [|x l IH]; intros [|i] H; simpl in *; try lia; auto.
  apply IH. lia.
Qed.

Lemma upd_nth_other {A : Type} (i j : nat) (f : A -> A) (l : list A) (d : A) :
  i <> j -> nth j (upd i f l) d = nth j l d.
Proof.
  revert i j; induction l as [|x l IH]; intros [|i] [|j] H; simpl; auto;
    try congruence.
Qed.

Lemma deref_store_same (w : world) (l : loc) (m : mat) :
  l < length (heap w) -> deref (store w l m) l = m.
Proof. intros H. unfold deref, store; simpl. now rewrite upd_nth_same. Qed.

Lemma deref_alloc_new (w : world) (m : mat) :
  deref (snd (alloc w m)) (fst (alloc w m)) = m.
Proof.
  unfold deref, alloc; simpl.
  rewrite app_nth2 by lia. now rewrite Nat.sub_diag.
Qed.

Lemma alloc_fst (w : world) (m : mat) : fst (alloc w m) = length (heap w).
Proof. reflexivity. Qed.

Lemma alloc_heap (w : world) (m : mat) : heap (snd (alloc w m)) = heap w ++ [m].
Proof. reflexivity. Qed.

Lemma alloc_stdout (w : world) (m : mat) : stdout (snd (alloc w m)) = stdout w.
Proof. reflexivity. Qed.

Lemma store_length (w : world) (l : loc) (m : mat) :
  length (heap (store w l m)) = length (heap w).
Proof. apply upd_length. Qed.

Lemma store_other (w : world) (l l' : loc) (m : mat) :
  l <> l' -> nth_error (heap (store w l m)) l' = nth_error (heap w) l'.
Proof. apply upd_nth_error_other. Qed.

Lemma after_step_length (w : world) (u : loc) (m : mat) :
  length (heap (after_step w u m)) = S (length (heap w)).
Proof.
  unfold after_step. rewrite alloc_heap, length_app, store_length. simpl. lia.
Qed.

Lemma after_step_stdout (w : world) (u : loc) (m : mat) :
  stdout (after_step w u m) = stdout w.
Proof. reflexivity. Qed.

Lemma after_step_other (w : world) (u l : loc) (m : mat) :
  l < length (heap w) -> l <> u ->
  nth_error (heap (after_step w u m)) l = nth_error (heap w) l.
Proof.
  intros Hl Hu. unfold after_step. rewrite alloc_heap.
  rewrite nth_error_app1 by (rewrite store_length; lia).
  apply store_other. congruence.
Qed.

Lemma after_step_new (w : world) (u : loc) (m : mat) :
  u < length (heap w) ->
  deref (after_step w u m) (length (heap w)) = prox_uv m.
Proof.
  intros Hu. unfold after_step, deref at 1. rewrite alloc_heap.
  rewrite app_nth2 by (rewrite store_length; lia).
  rewrite store_length, Nat.sub_diag. simpl.
  now rewrite deref_store_same.
Qed.

Lemma after_step_new_prox (w : world) (u : loc) (m : mat) :
  exists m', deref (after_step w u m) (length (heap w)) = prox_uv m'.
Proof.
  unfold after_step, deref at 1. rewrite alloc_heap.
  rewrite app_nth2 by (rewrite store_length; lia).
  rewrite store_length, Nat.sub_diag. simpl. eauto.
Qed.

Lemma update_uv_loop_S (cst : constants) (step_size eps : num)
    (todo i : nat) (last : option nat) (u : loc) (w : world) :
  update_uv_loop cst step_size eps (S todo) i last u w =
  match _gradient_uv (deref w u) None None (Some cst) with
  | Raise e => (Raise e, w)
  | Ok grad =>
      match isub2 (deref w u) (scale step_size grad) with
      | Raise e => (Raise e, w)
      | Ok m =>
          if nleb (abs_sum grad) eps
          then (Ok {| uv_hat := length (heap w); ii := Some i; broke := true |},
                after_step w u m)
          else update_uv_loop cst step_size eps todo (S i) (Some i)
                 (length (heap w)) (after_step w u m)
      end
  end.
Proof.
  simpl. destruct (_gradient_uv _ _ _ _); auto.
  destruct (isub2 _ _); auto.
  unfold after_step, alloc; simpl. rewrite upd_length. reflexivity.
Qed.

(** What is in the heap before the loop stays as it is, except the array
    [uv_hat] the loop works on; the loop prints nothing. *)
Lemma update_uv_loop_frame (cst : constants) (step_size eps : num) (todo : nat) :
  forall (i : nat) (last : option nat) (u : loc) (w : world) r w',
    update_uv_loop cst step_size eps todo i last u w = (r, w') ->
    stdout w' = stdout w /\
    length (heap w) <= length (heap w') /\
    forall l, l < length (heap w) -> l <> u ->
              nth_error (heap w') l = nth_error (heap w) l.
Proof.
  induction todo as [|todo IH]; intros i last u w r w' H.
  - simpl in H. inversion H; subst. auto.
  - rewrite update_uv_loop_S in H.
    destruct (_gradient_uv (deref w u) None None (Some cst)) as [grad|e].
    2:{ inversion H; subst. auto. }
    destruct (isub2 (deref w u) (scale step_size grad)) as [m|e].
    2:{ inversion H; subst. auto. }
    pose proof (after_step_length w u m) as Hlen.
    destruct (nleb (abs_sum grad) eps).
    + inversion H; subst. repeat split.
      * lia.
      * intros l Hl Hu. now apply after_step_other.
    + apply IH in H. destruct H as (Hout & Hlen' & Hfr).
      repeat split.
      * rewrite Hout. reflexivity.
      * lia.
      * intros l Hl Hu. rewrite Hfr by lia. now apply after_step_other.
Qed.

(** After at least one iteration [uv_hat] is an array made by [prox_uv],
    allocated by the loop. *)
Lemma update_uv_loop_result (cst : constants) (step_size eps : num) (todo : nat) :
  forall (i : nat) (last : option nat) (u : loc) (w : world) s w',
    update_uv_loop cst step_size eps (S todo) i last u w = (Ok s, w') ->
    length (heap w) <= uv_hat s /\ uv_hat s < length (heap w') /\
    exists m, deref w' (uv_hat s) = prox_uv m.
Proof.
  induction todo as [|todo IH]; intros i last u w s w' H;
    rewrite update_uv_loop_S in H;
    (destruct (_gradient_uv (deref w u) None None (Some cst)) as [grad|e];
     [|discriminate]);
    (destruct (isub2 (deref w u) (scale step_size grad)) as [m|e];
     [|discriminate]);
    pose proof (after_step_length w u m) as Hlen;
    pose proof (after_step_new_prox w u m) as Hnew.
  - destruct (nleb (abs_sum grad) eps); cbn [update_uv_loop] in H;
      inversion H; subst; cbn [uv_hat];
      (split; [lia | split; [lia | exact Hnew]]).
  - destruct (nleb (abs_sum grad) eps).
    + inversion H; subst; cbn [uv_hat].
      split; [lia | split; [lia | exact Hnew]].
    + apply IH in H.
      destruct H as (H1 & H2 & H3). split; [lia | split; auto].
Qed.

(** The loop, seen on the values: while the signal stays above the
    tolerance the loop goes on, and [uv_hat] holds the iterate. *)
Lemma update_uv_loop_prefix (cst : constants) (step_size eps : num) (j : nat) :
  forall (todo i : nat) (last : option nat) (u : loc) (w : world) uv_j,
    u < length (heap w) ->
    without_convergence cst step_size eps j (deref w u) = Some uv_j ->
    exists u' w1,
      update_uv_loop cst step_size eps (j + todo) i last u w =
      update_uv_loop cst step_size eps todo (i + j)
        (match j with O => last | S n => Some (i + n) end) u' w1 /\
      u' < length (heap w1) /\
      deref w1 u' = uv_j /\
      length (heap w1) = length (heap w) + j /\
      stdout w1 = stdout w.
Proof.
  induction j as [|j IH]; intros todo i last u w uv_j Hu H.
  - simpl in H. inversion H; subst. exists u, w.
    rewrite !Nat.add_0_r. simpl. repeat split; auto.
  - change (S j + todo) with (S (j + todo)).
    rewrite update_uv_loop_S. simpl in H. unfold iteration in H.
    destruct (_gradient_uv (deref w u) None None (Some cst)) as [grad|e];
      simpl in H; [|discriminate].
    destruct (isub2 (deref w u) (scale step_size grad)) as [m|e];
      simpl in H; [|discriminate].
    pose proof (after_step_length w u m) as Hlen.
    destruct (nleb (abs_sum grad) eps); [discriminate|].
    destruct (IH todo (S i) (Some i) (length (heap w)) (after_step w u m) uv_j)
      as (u' & w1 & Hrun & Hlt & Hd & Hlen' & Hout).
    + lia.
    + rewrite after_step_new by exact Hu. exact H.
    + exists u', w1. rewrite Hrun. repeat split; auto.
      * assert (Hl : match j with O => Some i | S n => Some (S i + n) end
                     = Some (i + j)) by (destruct j; f_equal; lia).
        rewrite Hl. replace (S i + j) with (i + S j) by lia. reflexivity.
      * lia.
Qed.

(** An iteration at which the signal is at or below the tolerance is the
    last one. *)
Lemma update_uv_loop_break (cst : constants) (step_size eps : num)
    (todo i : nat) (last : option nat) (u : loc) (w : world) (grad m : mat) :
  u < length (heap w) ->
  _gradient_uv (deref w u) None None (Some cst) = Ok grad ->
  isub2 (deref w u) (scale step_size grad) = Ok m ->
  nleb (abs_sum grad) eps = true ->
  update_uv_loop cst step_size eps (S todo) i last u w =
  (Ok {| uv_hat := length (heap w); ii := Some i; broke := true |},
   after_step w u m) /\
  deref (after_step w u m) (length (heap w)) = prox_uv m.
Proof.
  intros Hu Hg Hm Hf. rewrite update_uv_loop_S, Hg, Hm, Hf.
  split; [reflexivity|]. now apply after_step_new.
Qed.

End LoopFacts.

(** ** update_uv *)

Section UpdateUv.

Context {N : Num}.

(** [update_uv] in terms of its loop. *)
Lemma update_uv_locals_unfold (X Z : ten) (uv_hat0 : loc) (max_iter : nat)
    (step_size : num) (eps : option num) (verbose : int) (w : world)
    (cst : constants) :
  _get_d_update_constants X Z = Ok cst ->
  update_uv_locals X Z uv_hat0 max_iter step_size eps verbose w =
  match update_uv_loop cst step_size (tolerance eps) max_iter 0 None
          (length (heap w)) (snd (alloc w (deref w uv_hat0))) with
  | (Raise e, w) => (Raise e, w)
  | (Ok s, w) =>
      let w := if broke s then w else print w DidNotConverge in
      if (1 <? verbose)%Z then
        match ii s with
        | None => (Raise UnboundLocalError, w)
        | Some ii => (Ok s, print w (Iterations (ii + 1)))
        end
      else (Ok s, w)
  end.
Proof. intros H. unfold update_uv_locals. rewrite H. reflexivity. Qed.

(** The heap after [update_uv] agrees with the heap after its loop. *)
Lemma update_uv_locals_heap (X Z : ten) (uv_hat0 : loc) (max_iter : nat)
    (step_size : num) (eps : option num) (verbose : int) (w : world) r w' :
  update_uv_locals X Z uv_hat0 max_iter step_size eps verbose w = (r, w') ->
  (heap w' = heap w /\ forall s, r <> Ok s) \/
  exists cst r0 w0,
    _get_d_update_constants X Z = Ok cst /\
    update_uv_loop cst step_size (tolerance eps) max_iter 0 None
      (length (heap w)) (snd (alloc w (deref w uv_hat0))) = (r0, w0) /\
    heap w' = heap w0 /\
    forall s, r = Ok s -> r0 = Ok s.
Proof.
  intros H.
  destruct (_get_d_update_constants X Z) as [cst|e] eqn:Hc.
  - right. rewrite update_uv_locals_unfold with (cst := cst) in H by exact Hc.
    destruct (update_uv_loop _ _ _ _ _ _ _ _) as [[s|e] w0] eqn:Hloop.
    + exists cst, (Ok s), w0. split; [reflexivity|]. split; [exact Hloop|].
      cbv zeta in H.
      destruct (1 <? verbose)%Z; [destruct (ii s)|];
        destruct (broke s); inversion H; subst; simpl; split; auto;
        intros s' Hs'; congruence.
    + exists cst, (Raise e), w0. inversion H; subst.
      split; [reflexivity|]. split; [exact Hloop|].
      split; auto.
  - left. unfold update_uv_locals in H. rewrite Hc in H.
    inversion H; subst. split; auto. intros s Hs; congruence.
Qed.

End UpdateUv.

Section UpdateUvClaims.

Context {N : Num}.

Lemma nth_error_eq_nth {A : Type} (l l' : list A) (n : nat) (d : A) :
  nth_error l n = nth_error l' n -> nth n l d = nth n l' d.
Proof.
  intros H. destruct (nth_error l n) as [x|] eqn:E.
  - rewrite (nth_error_nth _ _ d E). symmetry in H.
    now rewrite (nth_error_nth _ _ d H).
  - symmetry in H. apply nth_error_None in E, H.
    now rewrite !nth_overflow.
Qed.

Lemma update_uv_unfold (X Z : ten) (uv_hat0 : loc) (max_iter : nat)
    (step_size : num) (eps : option num) (verbose : int) (w : world) :
  update_uv X Z uv_hat0 max_iter step_size eps verbose w =
  match update_uv_locals X Z uv_hat0 max_iter step_size eps verbose w with
  | (Ok s, w) => (Ok (uv_hat s), w)
  | (Raise e, w) => (Raise e, w)
  end.
Proof. reflexivity. Qed.

(** C6.  [update_uv] never mutates the array [uv_hat0] of its caller:
    whatever the inputs, the iteration budget and the outcome (a returned
    array or an exception), [uv_hat0] holds the same values after the call
    as before; the loop works on a copy, and the array that is returned is
    a new one, allocated during the call. *)
Theorem update_uv_leaves_uv_hat0 (X Z : ten) (uv_hat0 : loc) (max_iter : nat)
    (step_size : num) (eps : option num) (verbose : int) (w : world)
    (r : result loc) (w' : world) :
  uv_hat0 < length (heap w) ->
  update_uv X Z uv_hat0 max_iter step_size eps verbose w = (r, w') ->
  deref w' uv_hat0 = deref w uv_hat0 /\
  forall l, r = Ok l -> length (heap w) <= l < length (heap w').
Proof.
  intros Hl0 H. rewrite update_uv_unfold in H.
  destruct (update_uv_locals X Z uv_hat0 max_iter step_size eps verbose w)
    as [r1 w1] eqn:Hrun.
  assert (Hw : w1 = w') by (destruct r1; inversion H; reflexivity).
  subst w1.
  destruct (update_uv_locals_heap _ _ _ _ _ _ _ _ Hrun)
    as [[Hheap Hno] | (cst & r0 & w0 & Hc & Hloop & Hheap & Hok)].
  - split.
    + unfold deref. now rewrite Hheap.
    + intros l Hl. destruct r1 as [s|e].
      * exfalso. now apply (Hno s).
      * inversion H; subst. discriminate.
  - pose proof (update_uv_loop_frame _ _ _ _ _ _ _ _ Hloop) as (_ & Hlen & Hfr).
    rewrite alloc_heap, length_app in Hlen, Hfr. simpl in Hlen, Hfr.
    split.
    + unfold deref. rewrite Hheap. apply nth_error_eq_nth.
      rewrite Hfr by lia. apply nth_error_app1. exact Hl0.
    + intros l Hl. destruct r1 as [s|e]; inversion H; subst; try discriminate.
      match goal with E : Ok _ = Ok l |- _ => inversion E; subst l end.
      specialize (Hok s eq_refl). subst r0. rewrite Hheap.
      destruct max_iter as [|n].
      * simpl in Hloop. inversion Hloop; subst. simpl.
        rewrite length_app. simpl. lia.
      * apply update_uv_loop_result in Hloop.
        rewrite alloc_heap, length_app in Hloop. simpl in Hloop. lia.
Qed.

(** When the signal stays above the tolerance for the whole budget,
    [update_uv] runs [max_iter] iterations, prints its warning and returns
    the last iterate, unless the budget is zero and [verbose > 1]. *)
Lemma update_uv_budget_exhausted (X Z : ten) (uv_hat0 : loc) (max_iter : nat)
    (step_size : num) (eps : option num) (verbose : int) (w : world)
    (cst : constants) (uv_end : mat) :
  _get_d_update_constants X Z = Ok cst ->
  without_convergence cst step_size (tolerance eps) max_iter (deref w uv_hat0)
    = Some uv_end ->
  1 <= max_iter \/ (verbose <= 1)%Z ->
  exists s w',
    update_uv_locals X Z uv_hat0 max_iter step_size eps verbose w = (Ok s, w') /\
    broke s = false /\
    ii s = match max_iter with O => None | S n => Some n end /\
    deref w' (uv_hat s) = uv_end /\
    stdout w' = stdout w ++ DidNotConverge ::
                  (if (1 <? verbose)%Z then [Iterations max_iter] else []).
Proof.
  intros Hc Hrun Hcase.
  rewrite update_uv_locals_unfold with (cst := cst) by exact Hc.
  destruct (@update_uv_loop_prefix N cst step_size (tolerance eps) max_iter
              0 0 None (length (heap w)) (snd (alloc w (deref w uv_hat0))) uv_end)
    as (u' & w1 & Hloop & Hlt & Hd & Hlen & Hout).
  - rewrite alloc_heap, length_app. simpl. lia.
  - rewrite <- alloc_fst with (m := deref w uv_hat0).
    rewrite deref_alloc_new. exact Hrun.
  - rewrite Nat.add_0_r in Hloop. rewrite Hloop. simpl update_uv_loop.
    cbv zeta. cbn [broke ii].
    destruct (1 <? verbose)%Z eqn:Hv.
    + destruct max_iter as [|n].
      * exfalso. apply Z.ltb_lt in Hv. destruct Hcase; lia.
      * eexists; eexists. split; [reflexivity|].
        cbn [broke ii uv_hat print heap stdout Nat.add].
        split; [reflexivity|]. split; [reflexivity|]. split; [exact Hd|].
        rewrite Hout, alloc_stdout, <- app_assoc. simpl.
        now replace (n + 1) with (S n) by lia.
    + eexists; eexists. split; [reflexivity|].
      cbn [broke ii uv_hat print heap stdout].
      split; [reflexivity|]. split; [destruct max_iter; reflexivity|].
      split; [exact Hd|].
      now rewrite Hout, alloc_stdout.
Qed.

(** With an empty budget and [verbose > 1] the loop variable [ii] is read
    before it was ever bound. *)
Lemma update_uv_zero_budget_verbose (X Z : ten) (uv_hat0 : loc)
    (step_size : num) (eps : option num) (verbose : int) (w : world)
    (cst : constants) :
  _get_d_update_constants X Z = Ok cst ->
  (1 < verbose)%Z ->
  exists w', update_uv X Z uv_hat0 0 step_size eps verbose w
             = (Raise UnboundLocalError, w').
Proof.
  intros Hc Hv. rewrite update_uv_unfold.
  rewrite update_uv_locals_unfold with (cst := cst) by exact Hc.
  simpl. apply Z.ltb_lt in Hv. rewrite Hv. eauto.
Qed.

(** If after [j < max_iter] iterations without convergence the signal at
    the current parameters [uv_j] is at or below the tolerance, the loop is
    left by [break] in iteration [j], with [uv_hat] bound to the stepped and
    projected parameters. *)
Lemma update_uv_locals_converges_at (X Z : ten) (uv_hat0 : loc)
    (max_iter j : nat) (step_size : num) (eps : option num) (verbose : int)
    (w : world) (cst : constants) (uv_j grad m : mat) :
  j < max_iter ->
  _get_d_update_constants X Z = Ok cst ->
  without_convergence cst step_size (tolerance eps) j (deref w uv_hat0)
    = Some uv_j ->
  _gradient_uv uv_j None None (Some cst) = Ok grad ->
  isub2 uv_j (scale step_size grad) = Ok m ->
  nleb (abs_sum grad) (tolerance eps) = true ->
  exists s w',
    update_uv_locals X Z uv_hat0 max_iter step_size eps verbose w = (Ok s, w') /\
    broke s = true /\ ii s = Some j /\
    deref w' (uv_hat s) = prox_uv m /\
    stdout w' = stdout w ++
                  (if (1 <? verbose)%Z then [Iterations (j + 1)] else []).
Proof.
  intros Hj Hc Hrun Hg Hm Hf.
  rewrite update_uv_locals_unfold with (cst := cst) by exact Hc.
  destruct (@update_uv_loop_prefix N cst step_size (tolerance eps) j
              (max_iter - j) 0 None (length (heap w))
              (snd (alloc w (deref w uv_hat0))) uv_j)
    as (u' & w1 & Hloop & Hlt & Hd & Hlen & Hout).
  - rewrite alloc_heap, length_app. simpl. lia.
  - rewrite <- alloc_fst with (m := deref w uv_hat0).
    rewrite deref_alloc_new. exact Hrun.
  - replace (j + (max_iter - j)) with max_iter in Hloop by lia.
    rewrite Hloop.
    destruct (max_iter - j) as [|todo] eqn:Htodo; [lia|].
    rewrite <- Hd in Hg, Hm.
    destruct (@update_uv_loop_break N cst step_size (tolerance eps) todo (0 + j)
                (match j with O => None | S n => Some (0 + n) end)
                u' w1 grad m Hlt Hg Hm Hf) as [Hbreak Hnew].
    rewrite Hbreak. cbv zeta. cbn [broke ii uv_hat].
    destruct (1 <? verbose)%Z.
    + eexists; eexists. split; [reflexivity|].
      cbn [broke ii uv_hat]. repeat split.
      * exact Hnew.
      * cbn [print stdout]. rewrite after_step_stdout, Hout, alloc_stdout.
        reflexivity.
    + eexists; eexists. split; [reflexivity|].
      cbn [broke ii uv_hat]. repeat split.
      * exact Hnew.
      * rewrite after_step_stdout, Hout, alloc_stdout. now rewrite app_nil_r.
Qed.

(** C10.  The convergence test comes after the gradient step and the
    projection.  If after [j < max_iter] iterations without convergence the
    signal at the current parameters [uv_j] is at or below the tolerance,
    then [update_uv] returns [prox_uv (uv_j - step_size * grad)], the
    stepped and projected parameters of that iteration, and does not print
    the warning. *)
Theorem update_uv_returns_projected_step (X Z : ten) (uv_hat0 : loc)
    (max_iter j : nat) (step_size : num) (eps : option num) (verbose : int)
    (w : world) (cst : constants) (uv_j grad m : mat) :
  j < max_iter ->
  _get_d_update_constants X Z = Ok cst ->
  without_convergence cst step_size (tolerance eps) j (deref w uv_hat0)
    = Some uv_j ->
  _gradient_uv uv_j None None (Some cst) = Ok grad ->
  isub2 uv_j (scale step_size grad) = Ok m ->
  nleb (abs_sum grad) (tolerance eps) = true ->
  exists l w',
    update_uv X Z uv_hat0 max_iter step_size eps verbose w = (Ok l, w') /\
    deref w' l = prox_uv m /\
    stdout w' = stdout w ++
                  (if (1 <? verbose)%Z then [Iterations (j + 1)] else []).
Proof.
  intros Hj Hc Hrun Hg Hm Hf.
  destruct (@update_uv_locals_converges_at X Z uv_hat0 max_iter j step_size
              eps verbose w cst uv_j grad m Hj Hc Hrun Hg Hm Hf)
    as (s & w' & Hlocals & _ & _ & Hval & Hout).
  exists (uv_hat s), w'. rewrite update_uv_unfold, Hlocals.
  split; [reflexivity|]. split; [exact Hval | exact Hout].
Qed.

End UpdateUvClaims.

(** ** Exact arithmetic: the claims on the projection *)

Section ExactProjectionClaims.

#[local] Existing Instance RNum.
Local Open Scope R_scope.

Lemma prox_row_zero (n : nat) : prox_row (repeat 0 n) = repeat 0 n.
Proof.
  rewrite prox_row_R.
  pose proof (divisor_ge_1 (repeat 0 n)) as Hd.
  generalize dependent (divisor (repeat 0 n)). intros d Hd.
  induction n as [|n IH]; simpl; auto.
  rewrite IH. f_equal. field. lra.
Qed.

(** C2, as amended.  In exact arithmetic every row of an output of
    [prox_uv] has Euclidean norm at most 1, and norm exactly 1 when the row
    had norm above 1 before the projection; so has every row of what
    [update_uv] returns after at least one iteration (each iteration ends
    with [prox_uv]). *)
Theorem prox_uv_unit_ball (uv : mat) (k : nat) (X Z : ten) (uv_hat0 : loc)
    (n : nat) (step_size : R) (eps : option R) (verbose : int)
    (w w' : world) (l : loc) :
  euclidean_norm (nth k (prox_uv uv) []) <= 1 /\
  (1 < euclidean_norm (nth k uv []) ->
   euclidean_norm (nth k (prox_uv uv) []) = 1) /\
  (update_uv X Z uv_hat0 (S n) step_size eps verbose w = (Ok l, w') ->
   euclidean_norm (nth k (deref w' l) []) <= 1).
Proof.
  rewrite prox_uv_nth. split; [apply prox_row_norm_le_1|].
  split; [apply prox_row_norm_eq_1|].
  intros H. rewrite update_uv_unfold in H.
  destruct (update_uv_locals X Z uv_hat0 (S n) step_size eps verbose w)
    as [[s|e] w1] eqn:Hrun; inversion H; subst.
  destruct (update_uv_locals_heap _ _ _ _ _ _ _ _ Hrun)
    as [[_ Hno] | (cst & r0 & w0 & Hc & Hloop & Hheap & Hok)].
  - exfalso. now apply (Hno s).
  - rewrite (Hok s eq_refl) in Hloop.
    apply update_uv_loop_result in Hloop. destruct Hloop as (_ & _ & m & Hm).
    unfold deref in *. rewrite Hheap, Hm, prox_uv_nth.
    apply prox_row_norm_le_1.
Qed.

(** C3, as amended.  In exact arithmetic [prox_uv] is idempotent. *)
Theorem prox_uv_idempotent_exact (uv : mat) : prox_uv (prox_uv uv) = prox_uv uv.
Proof.
  rewrite !prox_uv_rows, map_map. apply map_ext. intros row.
  apply prox_row_idem.
Qed.

(** C4, as amended.  In exact arithmetic a row of Euclidean norm at most 1
    is divided by exactly 1 and comes back unchanged. *)
Theorem prox_uv_small_row_unchanged (uv : mat) (k : nat) :
  euclidean_norm (nth k uv []) <= 1 ->
  nmax n1 (row_norm (nth k uv [])) = 1 /\
  nth k (prox_uv uv) [] = nth k uv [].
Proof.
  intros H. split.
  - rewrite row_norm_R. simpl. apply Rmax_left. exact H.
  - rewrite prox_uv_nth. now apply prox_row_small.
Qed.

(** C9.  [prox_uv] divides each row by [max(1, norm)], which is at least 1
    and so never zero; a row of zeros comes back as the same row of
    zeros. *)
Theorem prox_uv_divisor_nonzero (uv uv' : mat) (n : nat) (row : list R) :
  prox_uv (uv ++ row :: uv') =
    prox_uv uv ++ map (fun x => x / Rmax 1 (euclidean_norm row)) row :: prox_uv uv' /\
  1 <= Rmax 1 (euclidean_norm row) /\
  Rmax 1 (euclidean_norm row) <> 0 /\
  prox_uv (uv ++ repeat 0 n :: uv') = prox_uv uv ++ repeat 0 n :: prox_uv uv'.
Proof.
  pose proof (divisor_ge_1 row) as Hd. unfold divisor in Hd.
  rewrite !prox_uv_rows, !map_app. simpl.
  rewrite prox_row_zero, prox_row_R.
  repeat split; auto. lra.
Qed.

End ExactProjectionClaims.

(** ** Runs on concrete inputs *)



Section Binary64Runs.

Import PrimFloat.
#[local] Existing Instance FNum.
Local Open Scope float_scope.

Lemma update_uv_leaves_uv_hat0_witness :
  deref (snd (update_uv X_run Z_run 0%nat 3%nat step_run None 0%Z w_run)) 0%nat
    = deref w_run 0%nat /\
  forall l, fst (update_uv X_run Z_run 0%nat 3%nat step_run None 0%Z w_run) = Ok l ->
            (length (heap w_run) <= l
             < length (heap (snd (update_uv X_run Z_run 0%nat 3%nat step_run None 0%Z w_run))))%nat.
Proof.
  apply (@update_uv_leaves_uv_hat0 FNum X_run Z_run 0%nat 3%nat step_run None 0%Z w_run).
  - simpl. lia.
  - apply surjective_pairing.
Defined.

(** C7.  With an empty iteration budget and [verbose = 2] the warning is
    printed and then [update_uv] raises [UnboundLocalError] instead of
    returning the parameters. *)
Theorem update_uv_zero_budget_raises :
  update_uv X_run Z_run 0%nat 0%nat step_run None 2%Z w_run =
  (Raise UnboundLocalError,
   {| heap := [uv_run; uv_run]; stdout := [DidNotConverge] |}).
Proof. reflexivity. Qed.

(** The same inputs with a budget of three iterations. *)
Example update_uv_three_iterations :
  fst (update_uv X_run Z_run 0%nat 3%nat step_run None 2%Z w_run) = Ok 4%nat /\
  map render
    (stdout (snd (update_uv X_run Z_run 0%nat 3%nat step_run None 2%Z w_run)))
    = three_iterations_printed.
Proof. split; reflexivity. Qed.

Lemma update_uv_returns_projected_step_witness :
  exists l w',
    update_uv X_zero Z_zero 0%nat 1%nat step_run None 0%Z w_34 = (Ok l, w') /\
    deref w' l = prox_uv [[3; 4]] /\
    stdout w' = stdout w_34 ++ [].
Proof.
  apply (@update_uv_returns_projected_step FNum X_zero Z_zero 0%nat 1%nat 0%nat step_run None
           0%Z w_34 cst_zero [[3; 4]] [[0; 0]] [[3; 4]]).
  - lia.
  - reflexivity.
  - reflexivity.
  - reflexivity.
  - reflexivity.
  - reflexivity.
Defined.

(** The parameters that are returned are not those at which the gradient
    was found small. *)
Example update_uv_returns_projected_step_moves :
  exists l w',
    update_uv X_zero Z_zero 0%nat 1%nat step_run None 0%Z w_34 = (Ok l, w') /\
    deref w' l = [[0x1.3333333333333p-1; 0x1.999999999999ap-1]].
Proof. eexists; eexists. split; reflexivity. Qed.

(** In binary64 arithmetic the row (19, 29) is projected to a row whose
    computed norm is above 1, so that the second projection divides again:
    [prox_uv] is not idempotent on what numpy computes. *)
Lemma prox_uv_not_idempotent_binary64 :
  prox_uv (prox_uv [[19; 29]]) <> prox_uv [[19; 29]].
Proof.
  intros H.
  apply (f_equal (fun m : list (list float) =>
                    eqb (nth 0%nat (nth 0%nat m []) 0)
                        0x1.1896e5c8ffbbep-1)) in H.
  vm_compute in H. discriminate H.
Qed.

(** A row of zeros is divided by 1. *)
Example prox_uv_binary64_zero_row :
  prox_uv [[0; 0; 0]; [3; 4; 0]] =
  [[0; 0; 0]; [0x1.3333333333333p-1; 0x1.999999999999ap-1; 0]].
Proof. reflexivity. Qed.

Example prox_uv_binary64_19_29 :
  row_norm (prox_row [19; 29]) = 0x1.0000000000001p+0 /\
  prox_uv [[19; 29]] = [[0x1.1896e5c8ffbbep-1; 0x1.ac44a217d72c4p-1]] /\
  prox_uv (prox_uv [[19; 29]]) = [[0x1.1896e5c8ffbbdp-1; 0x1.ac44a217d72c2p-1]].
Proof. repeat split; reflexivity. Qed.

(** C2, as stated, fails in binary64 arithmetic.  The row (19, 29) has norm
    above 1; the norm of its projection, as numpy computes it, is the next
    number above 1, and the squares of the projected entries add up to more
    than 1 without any rounding: the norm after projection is not exactly
    1.  When the squares overflow the projection is the zero row, of norm
    0; and a step that overflows makes [update_uv] return rows of NaN, whose
    norm is not at most 1 by any slack. *)
Lemma prox_uv_unit_ball_fails_binary64 :
  ltb 1 (row_norm [19; 29]) = true /\
  row_norm (nth 0%nat (prox_uv [[19; 29]]) []) = 0x1.0000000000001p+0 /\
  QArith_base.Qlt (QArith_base.inject_Z 1)
    (exact_sum_sq (nth 0%nat (prox_uv [[19; 29]]) [])) /\
  ltb 1 (row_norm [0x1p600; 0x1p600]) = true /\
  prox_uv [[0x1p600; 0x1p600]] = [[0; 0]] /\
  exists l w',
    update_uv X_run Z_run 0%nat 1%nat step_huge None 0%Z w_run = (Ok l, w') /\
    deref w' l = [[nan; nan; nan; nan]; [nan; nan; nan; nan]] /\
    leb (row_norm (nth 0%nat (deref w' l) [])) 1 = false.
Proof.
  repeat split; try reflexivity.
  eexists; eexists. repeat split; reflexivity.
Qed.

(** C4, as stated, fails in binary64 arithmetic.  The entries of
    [row_below_1] are finite and their squares add up to less than 1
    without any rounding, so the Euclidean norm of the row is below 1; the
    norm that numpy computes is the next number above 1, the row is divided
    by it, and comes back changed. *)
Lemma prox_uv_rescales_small_row_binary64 :
  forallb is_finite row_below_1 = true /\
  QArith_base.Qlt (exact_sum_sq row_below_1) (QArith_base.inject_Z 1) /\
  nmax n1 (row_norm row_below_1) = 0x1.0000000000001p+0 /\
  nth 0%nat (prox_uv [row_below_1]) [] <> row_below_1.
Proof.
  repeat split; try reflexivity.
  intros H.
  apply (f_equal (fun r : list float =>
                    eqb (nth 0%nat r 0) 0x1.f0be25a3a8984p-1)) in H.
  vm_compute in H. discriminate H.
Qed.

End Binary64Runs.

Section ExactRuns.

#[local] Existing Instance RNum.
Local Open Scope R_scope.

Lemma constants_zeroR : _get_d_update_constants X_zeroR Z_zeroR = Ok cst_zeroR.
Proof. Rcompute. array_eq; lra. Qed.

Lemma gradient_zeroR :
  _gradient_uv [[3; 4]] None None (Some cst_zeroR) = Ok [[0; 0]].
Proof. Rcompute. array_eq; lra. Qed.

Lemma step_zeroR : isub2 [[3; 4]] (scale (1 / 2) [[0; 0]]) = Ok [[3; 4]].
Proof. Rcompute. array_eq; lra. Qed.

Lemma signal_zeroR : nleb (abs_sum [[0; 0]]) (tolerance None) = true.
Proof.
  Rcompute. unfold Rleb. destruct (Rle_dec _ _) as [H|H]; auto.
  exfalso; apply H. rewrite Rabs_R0.
  match goal with |- _ <= / ?d => assert (0 < / d) by (apply Rinv_0_lt_compat; lra) end.
  lra.
Qed.

Lemma run_zeroR :
  exists l w', update_uv X_zeroR Z_zeroR 0%nat 1%nat (1 / 2) None 0%Z w_34R = (Ok l, w').
Proof.
  destruct (@update_uv_locals_converges_at RNum X_zeroR Z_zeroR 0%nat 1%nat
              0%nat (1 / 2) None 0%Z w_34R cst_zeroR [[3; 4]] [[0; 0]] [[3; 4]])
    as (s & w' & H & _);
    auto using constants_zeroR, gradient_zeroR, step_zeroR, signal_zeroR.
  exists (uv_hat s), w'. now rewrite update_uv_unfold, H.
Defined.

Lemma euclidean_norm_34 : euclidean_norm [3; 4] = 5.
Proof.
  unfold euclidean_norm; simpl.
  replace (3 * 3 + (4 * 4 + 0)) with (5 * 5) by lra.
  apply sqrt_square. lra.
Qed.

Lemma prox_uv_unit_ball_witness :
  euclidean_norm (nth 0 (prox_uv [[3; 4]]) []) <= 1 /\
  euclidean_norm (nth 0 (prox_uv [[3; 4]]) []) = 1 /\
  exists l w',
    update_uv X_zeroR Z_zeroR 0%nat 1%nat (1 / 2) None 0%Z w_34R = (Ok l, w') /\
    euclidean_norm (nth 0 (deref w' l) []) <= 1.
Proof.
  destruct run_zeroR as (l & w' & Hrun).
  destruct (@prox_uv_unit_ball [[3; 4]] 0%nat X_zeroR Z_zeroR 0%nat 0%nat (1 / 2) None
              0%Z w_34R w' l) as (H1 & H2 & H3).
  split; [exact H1|]. split.
  - apply H2. simpl. rewrite euclidean_norm_34. lra.
  - exists l, w'. split; [exact Hrun|]. apply H3. exact Hrun.
Defined.

Lemma euclidean_norm_halves : euclidean_norm [1 / 2; 1 / 2] <= 1.
Proof.
  unfold euclidean_norm; simpl.
  apply Rle_trans with (sqrt 1).
  - apply sqrt_le_1_alt. lra.
  - rewrite sqrt_1. lra.
Qed.

Lemma prox_uv_small_row_unchanged_witness :
  nmax n1 (row_norm (nth 1 [[3; 4]; [1 / 2; 1 / 2]] [])) = 1 /\
  nth 1 (prox_uv [[3; 4]; [1 / 2; 1 / 2]]) [] = [1 / 2; 1 / 2].
Proof.
  apply (@prox_uv_small_row_unchanged [[3; 4]; [1 / 2; 1 / 2]] 1%nat).
  simpl. apply euclidean_norm_halves.
Defined.

End ExactRuns.

(** ** _gradient_uv and the shapes of its inputs *)

Section GradientContract.

Context {N : Num}.

Lemma bcast_mismatch {A B C : Type} (f : A -> B -> result C)
    (a : list A) (b : list B) :
  length a <> length b -> length a <> 1 -> length b <> 1 ->
  bcast f a b = Raise ValueError.
Proof.
  intros Hab Ha Hb. unfold bcast.
  rewrite (proj2 (Nat.eqb_neq _ _) Hab).
  destruct a as [|x [|x' a]]; destruct b as [|y [|y' b]];
    simpl in *; congruence.
Qed.

Lemma construct_X_multi_length (Z D : ten) :
  length (construct_X_multi Z D) = length (hd [] Z).
Proof. unfold construct_X_multi. now rewrite length_map, length_seq. Qed.

(** C8, as amended.  Without a statistics record [_gradient_uv] fails at
    once with an [AssertionError] when [X] or [Z] is missing.  It does not
    check shapes itself: trial counts of [X] and [Z] that differ raise the
    [ValueError] of numpy's broadcasting when neither count is 1. *)
Theorem _gradient_uv_fails_fast (uv : mat) (X Z : option ten) (x z : ten) :
  (X = None \/ Z = None -> _gradient_uv uv X Z None = Raise AssertionError) /\
  (length (hd [] z) <> length x -> length (hd [] z) <> 1 -> length x <> 1 ->
   _gradient_uv uv (Some x) (Some z) None = Raise ValueError).
Proof.
  split.
  - intros [H|H]; subst; unfold _gradient_uv; simpl; auto.
    destruct X; reflexivity.
  - intros Hzx Hz Hx. unfold _gradient_uv, _gradient_d. simpl.
    unfold bcast3. rewrite bcast_mismatch;
      rewrite ?construct_X_multi_length; auto.
Qed.

End GradientContract.

Section GradientContractRuns.

Import PrimFloat.
#[local] Existing Instance FNum.
Local Open Scope float_scope.

(** Mismatched inputs that [_gradient_uv] accepts silently: the single
    trial of [X] is broadcast over the two trials of [Z]; the second trial of
    [X] is dropped when [Z] has one trial; the single channel of the atoms
    is broadcast over the two channels of the record. *)
Lemma _gradient_uv_broadcasts_silently :
  shape3 X_one_trial = (1, 1, 3)%nat /\ shape3 Z_two_trials = (1, 2, 2)%nat /\
  _gradient_uv uv_111 (Some X_one_trial) (Some Z_two_trials) None
    = Ok [[46; 28; 18]] /\
  shape3 X_two_trials = (2, 1, 3)%nat /\ shape3 Z_one_trial = (1, 1, 2)%nat /\
  _gradient_uv uv_111 (Some X_two_trials) (Some Z_one_trial) None
    = Ok [[1; 2; -1]] /\
  shape3 (ZtX cst_two_channels) = (1, 2, 2)%nat /\
  _gradient_uv uv_111 None None (Some cst_two_channels)
    = Ok [[3; -1; 2; 0]].
Proof. repeat split; reflexivity. Qed.

Lemma _gradient_uv_fails_fast_witness :
  _gradient_uv uv_111 None None None = Raise AssertionError /\
  _gradient_uv uv_111 (Some X_three_trials) (Some Z_two_trials) None
    = Raise ValueError.
Proof.
  destruct (@_gradient_uv_fails_fast FNum uv_111 None None
              X_three_trials Z_two_trials) as [H1 H2].
  split.
  - apply H1. left. reflexivity.
  - apply H2; simpl; lia.
Defined.

End GradientContractRuns.

(** ** The loops of _get_d_update_constants *)

Section ZtZFacts.

Context {N : Num}.

Lemma upd_nth {A : Type} (i j : nat) (f : A -> A) (l : list A) (d : A) :
  i < length l ->
  nth j (upd i f l) d = if Nat.eqb i j then f (nth j l d) else nth j l d.
Proof.
  intros H. destruct (Nat.eqb_spec i j) as [->|Hij].
  - now apply upd_nth_same.
  - now apply upd_nth_other.
Qed.

Lemma iadd3_shaped (a : ten) (i j k : nat) (v : num) (d1 d2 d3 : nat) :
  shaped3 a d1 d2 d3 -> shaped3 (iadd3 a i j k v) d1 d2 d3.
Proof.
  intros [H1 H2]. unfold iadd3. split.
  - now rewrite upd_length.
  - intros i' Hi'. destruct (H2 i' Hi') as [H3 H4].
    destruct (Nat.eq_dec i i') as [->|Hi].
    + rewrite upd_nth_same by lia. split.
      * now rewrite upd_length.
      * intros j' Hj'. destruct (Nat.eq_dec j j') as [->|Hj].
        -- rewrite upd_nth_same by lia. rewrite upd_length. now apply H4.
        -- rewrite upd_nth_other by exact Hj. now apply H4.
    + rewrite upd_nth_other by exact Hi. split; auto.
Qed.

Lemma get3_iadd3 (acc : ten) (i j k : nat) (v : num) (d1 d2 d3 a b c : nat) :
  shaped3 acc d1 d2 d3 -> i < d1 -> j < d2 -> k < d3 ->
  get3 (iadd3 acc i j k v) a b c =
  if hit a b c i j k then nadd (get3 acc a b c) v else get3 acc a b c.
Proof.
  intros [H1 H2] Hi Hj Hk. destruct (H2 i Hi) as [H3 H4].
  specialize (H4 j Hj). unfold get3, iadd3, hit.
  rewrite upd_nth by lia.
  destruct (Nat.eqb_spec i a) as [<-|Hia]; simpl; auto.
  rewrite upd_nth by lia.
  destruct (Nat.eqb_spec j b) as [<-|Hjb]; simpl; auto.
  rewrite upd_nth by lia.
  destruct (Nat.eqb_spec k c) as [<-|Hkc]; simpl; auto.
Qed.

Lemma ZtZ_body_effect (Z : ten) (t0 k0 k i t : nat) (acc : ten)
    (n m a b c : nat) :
  shaped3 acc n n m -> k0 < n -> k < n -> t0 + t < m ->
  shaped3 (ZtZ_body Z t0 k0 k i acc t) n n m /\
  get3 (ZtZ_body Z t0 k0 k i acc t) a b c =
  body_effect Z t0 a b c k0 k i (get3 acc a b c) t.
Proof.
  intros Hs Hk0 Hk Ht. unfold ZtZ_body, body_effect.
  destruct (Nat.eqb t 0).
  - split; [now apply iadd3_shaped|].
    apply get3_iadd3 with (d1 := n) (d2 := n) (d3 := m); auto; lia.
  - split; [now do 2 apply iadd3_shaped|].
    rewrite get3_iadd3 with (d1 := n) (d2 := n) (d3 := m);
      auto using iadd3_shaped; try lia.
    rewrite get3_iadd3 with (d1 := n) (d2 := n) (d3 := m); auto; lia.
Qed.

(** Reading an entry commutes with a loop whose body acts on the entry in
    a known way. *)
Lemma fold_left_get {S X V : Type} (P : S -> Prop) (Q : X -> Prop)
    (get : S -> V) (f : S -> X -> S) (g : V -> X -> V) :
  (forall s x, P s -> Q x -> P (f s x) /\ get (f s x) = g (get s) x) ->
  forall xs s, Forall Q xs -> P s ->
    P (fold_left f xs s) /\ get (fold_left f xs s) = fold_left g xs (get s).
Proof.
  intros Hstep xs. induction xs as [|x xs IH]; intros s HQ HP; simpl.
  - auto.
  - inversion HQ; subst. destruct (Hstep s x HP) as [HP' Hg]; auto.
    rewrite <- Hg. now apply IH.
Qed.

Lemma Forall_seq_lt (n : nat) : Forall (fun i => i < n) (seq 0 n).
Proof. apply Forall_forall. intros i Hi. apply in_seq in Hi. lia. Qed.

Lemma ZtZ_loops_effect (Z : ten) (n_atoms n_trials L : nat) (ZtZ0 : ten)
    (a b c : nat) :
  shaped3 ZtZ0 n_atoms n_atoms (2 * L - 1) ->
  shaped3 (ZtZ_loops Z n_atoms n_trials L ZtZ0) n_atoms n_atoms (2 * L - 1) /\
  get3 (ZtZ_loops Z n_atoms n_trials L ZtZ0) a b c =
  loops_effect Z n_atoms n_trials L a b c (get3 ZtZ0 a b c).
Proof.
  intros Hs. unfold ZtZ_loops, loops_effect.
  set (P := fun s : ten => shaped3 s n_atoms n_atoms (2 * L - 1)).
  apply (@fold_left_get (list (list (list num))) nat num P (fun k0 => k0 < n_atoms) (fun s => get3 s a b c));
    [|apply Forall_seq_lt|exact Hs].
  intros s1 k0 Hs1 Hk0.
  apply (@fold_left_get (list (list (list num))) nat num P (fun k => k < n_atoms) (fun s => get3 s a b c));
    [|apply Forall_seq_lt|exact Hs1].
  intros s2 k Hs2 Hk.
  apply (@fold_left_get (list (list (list num))) nat num P (fun _ => True) (fun s => get3 s a b c));
    [|apply Forall_forall; auto|exact Hs2].
  intros s3 i Hs3 _.
  apply (@fold_left_get (list (list (list num))) nat num P (fun t => t < L) (fun s => get3 s a b c));
    [|apply Forall_seq_lt|exact Hs3].
  intros s4 t Hs4 Ht.
  apply ZtZ_body_effect; auto. lia.
Qed.

End ZtZFacts.

Section ZtZClosedForm.

Context {N : Num}.

Lemma fold_left_noop {V X : Type} (h : V -> X -> V) (l : list X) (v : V) :
  (forall y u, In y l -> h u y = u) -> fold_left h l v = v.
Proof.
  revert v; induction l as [|x l IH]; intros v H; simpl; auto.
  rewrite H by (left; reflexivity). apply IH.
  intros y u Hy. apply H. now right.
Qed.

Lemma fold_left_single {V X : Type} (h : V -> X -> V) (l : list X) (x : X) (v : V) :
  NoDup l -> In x l ->
  (forall y u, In y l -> y <> x -> h u y = u) ->
  fold_left h l v = h v x.
Proof.
  revert v; induction l as [|y l IH]; intros v Hnd Hin H; simpl.
  - contradiction.
  - inversion Hnd as [|? ? Hy Hnd']; subst. destruct Hin as [->|Hin].
    + apply fold_left_noop. intros z u Hz. apply H; [now right|].
      intros ->. contradiction.
    + rewrite (H y v) by (auto using in_eq; intros ->; contradiction).
      apply IH; auto. intros z u Hz Hzx. apply H; auto. now right.
Qed.

Lemma fold_left_eq {V X : Type} (f g : V -> X -> V) (l : list X) (v : V) :
  (forall u x, In x l -> f u x = g u x) -> fold_left f l v = fold_left g l v.
Proof.
  revert v; induction l as [|x l IH]; intros v H; simpl; auto.
  rewrite H by (left; reflexivity). apply IH.
  intros u y Hy. apply H. now right.
Qed.

Lemma hit_same (a b c j : nat) : hit a b c a b j = Nat.eqb j c.
Proof. unfold hit. now rewrite !Nat.eqb_refl. Qed.

Lemma hit_other (a b c k0 k j : nat) :
  k0 <> a \/ k <> b -> hit a b c k0 k j = false.
Proof.
  unfold hit. intros [H|H]; apply Nat.eqb_neq in H; rewrite H; simpl; auto.
  now rewrite andb_false_r.
Qed.

Lemma body_effect_other (Z : ten) (t0 a b c k0 k i t : nat) (v : num) :
  k0 <> a \/ k <> b -> body_effect Z t0 a b c k0 k i v t = v.
Proof.
  intros H. unfold body_effect. rewrite !hit_other by exact H.
  now destruct (Nat.eqb t 0).
Qed.

(** Only the pair of atoms [(a, b)] acts on the entries [(a, b, _)]. *)
Lemma loops_effect_pair (Z : ten) (n n_trials L a b c : nat) (v : num) :
  a < n -> b < n ->
  loops_effect Z n n_trials L a b c v =
  fold_left (fun v i =>
               fold_left (body_effect Z (L - 1) a b c a b i) (seq 0 L) v)
            (seq 0 n_trials) v.
Proof.
  intros Ha Hb. unfold loops_effect.
  rewrite fold_left_single with (x := a);
    [|apply seq_NoDup|apply in_seq; lia|].
  - rewrite fold_left_single with (x := b);
      [reflexivity|apply seq_NoDup|apply in_seq; lia|].
    intros k u _ Hk. apply fold_left_noop. intros i u' _.
    apply fold_left_noop. intros t u'' _. apply body_effect_other. now right.
  - intros k0 u _ Hk0. apply fold_left_noop. intros k u' _.
    apply fold_left_noop. intros i u'' _.
    apply fold_left_noop. intros t u3 _. apply body_effect_other. now left.
Qed.

Lemma loops_effect_plus (Z : ten) (n n_trials L a b t : nat) (v : num) :
  a < n -> b < n -> t < L ->
  loops_effect Z n n_trials L a b (L - 1 + t) v =
  fold_left (fun v i =>
               nadd v (lag_plus t (nth i (nth a Z []) []) (nth i (nth b Z []) [])))
            (seq 0 n_trials) v.
Proof.
  intros Ha Hb Ht. rewrite loops_effect_pair by assumption.
  apply fold_left_eq. intros u i _.
  rewrite fold_left_single with (x := t);
    [|apply seq_NoDup|apply in_seq; lia|].
  - unfold body_effect, lag_plus. rewrite !hit_same.
    destruct (Nat.eqb_spec t 0) as [->|Ht0].
    + now rewrite Nat.add_0_r, Nat.eqb_refl.
    + rewrite Nat.eqb_refl.
      destruct (Nat.eqb_spec (L - 1 - t) (L - 1 + t)); [lia|reflexivity].
  - intros y w Hy Hyt. apply in_seq in Hy.
    unfold body_effect. rewrite !hit_same.
    destruct (Nat.eqb_spec y 0) as [->|Hy0].
    + destruct (Nat.eqb_spec (L - 1) (L - 1 + t)); [lia|reflexivity].
    + destruct (Nat.eqb_spec (L - 1 + y) (L - 1 + t)); [lia|].
      destruct (Nat.eqb_spec (L - 1 - y) (L - 1 + t)); [lia|reflexivity].
Qed.

Lemma loops_effect_minus (Z : ten) (n n_trials L a b t : nat) (v : num) :
  a < n -> b < n -> 1 <= t < L ->
  loops_effect Z n n_trials L a b (L - 1 - t) v =
  fold_left (fun v i =>
               nadd v (lag_minus t (nth i (nth a Z []) []) (nth i (nth b Z []) [])))
            (seq 0 n_trials) v.
Proof.
  intros Ha Hb Ht. rewrite loops_effect_pair by assumption.
  apply fold_left_eq. intros u i _.
  rewrite fold_left_single with (x := t);
    [|apply seq_NoDup|apply in_seq; lia|].
  - unfold body_effect, lag_minus. rewrite !hit_same.
    destruct (Nat.eqb_spec t 0) as [->|Ht0]; [lia|].
    rewrite Nat.eqb_refl.
    destruct (Nat.eqb_spec (L - 1 + t) (L - 1 - t)); [lia|reflexivity].
  - intros y w Hy Hyt. apply in_seq in Hy.
    unfold body_effect. rewrite !hit_same.
    destruct (Nat.eqb_spec y 0) as [->|Hy0].
    + destruct (Nat.eqb_spec (L - 1) (L - 1 - t)); [lia|reflexivity].
    + destruct (Nat.eqb_spec (L - 1 + y) (L - 1 - t)); [lia|].
      destruct (Nat.eqb_spec (L - 1 - y) (L - 1 - t)); [lia|reflexivity].
Qed.

(** The array of zeros the loops start from. *)
Lemma nth_repeat_lt {A : Type} (x d : A) (n i : nat) :
  i < n -> nth i (repeat x n) d = x.
Proof.
  revert i; induction n as [|n IH]; intros [|i] H; simpl; try lia; auto.
  apply IH. lia.
Qed.

Lemma zeros3_shaped (n m : nat) :
  shaped3 (repeat (repeat (zeros m) n) n) n n m.
Proof.
  split; [apply repeat_length|]. intros i Hi.
  rewrite nth_repeat_lt by exact Hi. split; [apply repeat_length|].
  intros j Hj. rewrite nth_repeat_lt by exact Hj. apply repeat_length.
Qed.

Lemma zeros3_get (n m a b c : nat) :
  a < n -> b < n -> get3 (repeat (repeat (zeros m) n) n) a b c = n0.
Proof.
  intros Ha Hb. unfold get3. rewrite !nth_repeat_lt by assumption.
  unfold zeros. destruct (Nat.lt_ge_cases c m).
  - now apply nth_repeat_lt.
  - apply nth_overflow. now rewrite repeat_length.
Qed.

Lemma _get_d_update_constants_Ok (X Z : ten) (c : constants) :
  _get_d_update_constants X Z = Ok c ->
  1 <= n_times_atom X Z /\
  ZtZ c = ZtZ_loops Z (length Z) (length (hd [] Z)) (n_times_atom X Z)
            (repeat (repeat (zeros (2 * n_times_atom X Z - 1)) (length Z))
                    (length Z)) /\
  ZtX c = map (fun zk =>
                 sum_list madd []
                   (map2 (fun zik xi =>
                            map (fun xip => convolve_valid (rev zik) xip) xi)
                         zk X))
              Z /\
  n_chan c = length (hd [] X).
Proof.
  unfold _get_d_update_constants, n_times_atom, shape3.
  match goal with
  | |- context [Z.ltb ?e 0] => destruct (Z.ltb_spec e 0) as [Hneg|Hpos]
  end; [discriminate|].
  intros H. inversion H; subst; cbn [ZtZ ZtX n_chan].
  split; [lia|]. repeat split; reflexivity.
Qed.

(** The entries of [ZtZ]: sums over the trials, in the order of the loop. *)
Lemma ZtZ_plus (X Z : ten) (c : constants) (k0 k t : nat) :
  _get_d_update_constants X Z = Ok c ->
  k0 < length Z -> k < length Z -> t < n_times_atom X Z ->
  get3 (ZtZ c) k0 k (n_times_atom X Z - 1 + t) =
  fold_left (fun v i =>
               nadd v (lag_plus t (nth i (nth k0 Z []) []) (nth i (nth k Z []) [])))
            (seq 0 (length (hd [] Z))) n0.
Proof.
  intros Hc Hk0 Hk Ht.
  destruct (_get_d_update_constants_Ok _ _ Hc) as (HL & Hzz & _).
  rewrite Hzz.
  destruct (@ZtZ_loops_effect N Z (length Z) (length (hd [] Z))
              (n_times_atom X Z) _ k0 k (n_times_atom X Z - 1 + t)
              (zeros3_shaped (length Z) (2 * n_times_atom X Z - 1)))
    as [_ Hget].
  rewrite Hget, zeros3_get by assumption.
  now apply loops_effect_plus.
Qed.

Lemma ZtZ_minus (X Z : ten) (c : constants) (k0 k t : nat) :
  _get_d_update_constants X Z = Ok c ->
  k0 < length Z -> k < length Z -> 1 <= t < n_times_atom X Z ->
  get3 (ZtZ c) k0 k (n_times_atom X Z - 1 - t) =
  fold_left (fun v i =>
               nadd v (lag_minus t (nth i (nth k0 Z []) []) (nth i (nth k Z []) [])))
            (seq 0 (length (hd [] Z))) n0.
Proof.
  intros Hc Hk0 Hk Ht.
  destruct (_get_d_update_constants_Ok _ _ Hc) as (HL & Hzz & _).
  rewrite Hzz.
  destruct (@ZtZ_loops_effect N Z (length Z) (length (hd [] Z))
              (n_times_atom X Z) _ k0 k (n_times_atom X Z - 1 - t)
              (zeros3_shaped (length Z) (2 * n_times_atom X Z - 1)))
    as [_ Hget].
  rewrite Hget, zeros3_get by assumption.
  now apply loops_effect_minus.
Qed.

Lemma map2_comm {A B : Type} (f : A -> A -> B) (a b : list A) :
  (forall x y, f x y = f y x) -> map2 f a b = map2 f b a.
Proof.
  intros H. revert b; induction a as [|x a IH]; intros [|y b]; simpl; auto.
  now rewrite H, IH.
Qed.

(** C5.  [ZtZ[k0, k, t0 + t] == ZtZ[k, k0, t0 - t]] for all atoms [k0], [k]
    and all lags [t] in [[0, n_times_atom)], with [t0 = n_times_atom - 1]:
    the two entries are sums, over the trials in one order, of the same
    products with their factors swapped.  All that is asked of the scalars
    is that their multiplication commutes. *)
Theorem ZtZ_symmetry (X Z : ten) (c : constants) (k0 k t : nat) :
  (forall x y : num, nmul x y = nmul y x) ->
  _get_d_update_constants X Z = Ok c ->
  k0 < length Z -> k < length Z -> t < n_times_atom X Z ->
  get3 (ZtZ c) k0 k (n_times_atom X Z - 1 + t) =
  get3 (ZtZ c) k k0 (n_times_atom X Z - 1 - t).
Proof.
  intros Hcomm Hc Hk0 Hk Ht.
  rewrite (@ZtZ_plus X Z c k0 k t Hc) by assumption.
  destruct (Nat.eq_dec t 0) as [->|Ht0].
  - rewrite Nat.sub_0_r, <- (Nat.add_0_r (n_times_atom X Z - 1)) at 1.
    rewrite (@ZtZ_plus X Z c k k0 0 Hc) by assumption.
    apply fold_left_eq. intros u i _. unfold lag_plus. simpl.
    unfold dot. f_equal. f_equal. now apply map2_comm.
  - rewrite (@ZtZ_minus X Z c k k0 t Hc) by (auto; lia).
    apply fold_left_eq. intros u i _. unfold lag_plus, lag_minus.
    destruct (Nat.eqb_spec t 0); [contradiction|].
    unfold dot. f_equal. f_equal. now apply map2_comm.
Qed.

End ZtZClosedForm.

(** ** Exact arithmetic: finite sums *)

Section BigSums.

Local Open Scope R_scope.

Lemma bigsum_ext (n : nat) (f g : nat -> R) :
  (forall i, (i < n)%nat -> f i = g i) -> bigsum n f = bigsum n g.
Proof.
  induction n as [|n IH]; intros H; simpl; auto.
  rewrite IH, H by (auto; intros; apply H; lia). reflexivity.
Qed.

Lemma bigsum_zero (n : nat) (f : nat -> R) :
  (forall i, (i < n)%nat -> f i = 0) -> bigsum n f = 0.
Proof.
  induction n as [|n IH]; intros H; simpl; auto.
  rewrite IH, H by (auto; intros; apply H; lia). lra.
Qed.

Lemma bigsum_plus (n : nat) (f g : nat -> R) :
  bigsum n (fun i => f i + g i) = bigsum n f + bigsum n g.
Proof. induction n as [|n IH]; simpl; [|rewrite IH]; lra. Qed.

Lemma bigsum_minus (n : nat) (f g : nat -> R) :
  bigsum n (fun i => f i - g i) = bigsum n f - bigsum n g.
Proof. induction n as [|n IH]; simpl; [|rewrite IH]; lra. Qed.

Lemma bigsum_mult_r (n : nat) (f : nat -> R) (c : R) :
  bigsum n (fun i => f i * c) = bigsum n f * c.
Proof. induction n as [|n IH]; simpl; [|rewrite IH]; lra. Qed.

Lemma bigsum_swap (n m : nat) (f : nat -> nat -> R) :
  bigsum n (fun i => bigsum m (fun j => f i j)) =
  bigsum m (fun j => bigsum n (fun i => f i j)).
Proof.
  induction n as [|n IH]; simpl.
  - symmetry. now apply bigsum_zero.
  - rewrite IH, <- bigsum_plus. reflexivity.
Qed.

Lemma bigsum_shift (a b : nat) (f : nat -> R) :
  bigsum (a + b) f = bigsum a f + bigsum b (fun i => f (a + i)%nat).
Proof.
  induction b as [|b IH]; simpl.
  - rewrite Nat.add_0_r. lra.
  - rewrite Nat.add_succ_r. simpl. rewrite IH. lra.
Qed.

Lemma bigsum_S_left (n : nat) (f : nat -> R) :
  bigsum (S n) f = f O + bigsum n (fun i => f (S i)).
Proof.
  change (S n) with (1 + n)%nat. rewrite bigsum_shift. simpl. lra.
Qed.

Lemma bigsum_extend (n m : nat) (f : nat -> R) :
  (n <= m)%nat -> (forall i, (n <= i < m)%nat -> f i = 0) ->
  bigsum n f = bigsum m f.
Proof.
  intros Hnm H. replace m with (n + (m - n))%nat at 1 by lia.
  rewrite bigsum_shift, (@bigsum_zero (m - n)%nat); [lra|].
  intros i Hi. apply H. lia.
Qed.

Lemma bigsum_rev (n : nat) (f : nat -> R) :
  bigsum n f = bigsum n (fun i => f (n - 1 - i)%nat).
Proof.
  induction n as [|n IH]; [reflexivity|].
  rewrite (bigsum_S_left n (fun i => f (S n - 1 - i)%nat)).
  change (bigsum (S n) f) with (bigsum n f + f n).
  rewrite (@bigsum_ext n (fun i => f (S n - 1 - S i)%nat)
                         (fun i => f (n - 1 - i)%nat))
    by (intros i Hi; f_equal; lia).
  rewrite <- IH. replace (S n - 1 - 0)%nat with n by lia. lra.
Qed.

(** Sums of lists are such sums. *)
Lemma fold_left_Rplus_bigsum (l : list R) (v : R) :
  fold_left Rplus l v = v + bigsum (length l) (fun i => nth i l 0).
Proof.
  revert v; induction l as [|x l IH]; intros v.
  - simpl. lra.
  - cbn [fold_left length]. rewrite IH, bigsum_S_left. simpl. lra.
Qed.

Lemma fold_left_seq_bigsum (n : nat) (g : nat -> R) (v : R) :
  fold_left (fun u i => u + g i) (seq 0 n) v = v + bigsum n g.
Proof.
  induction n as [|n IH].
  - simpl. lra.
  - rewrite seq_S, fold_left_app, IH. simpl. lra.
Qed.

End BigSums.

(** ** Arrays given by their entries *)

Section Tabulate.

Lemma tab1_length {A : Type} (n : nat) (f : nat -> A) : length (tab1 n f) = n.
Proof. unfold tab1. now rewrite length_map, length_seq. Qed.

Lemma tab1_nth {A : Type} (n : nat) (f : nat -> A) (i : nat) (d : A) :
  i < n -> nth i (tab1 n f) d = f i.
Proof.
  intros H. unfold tab1.
  rewrite nth_indep with (d' := f 0) by (now rewrite length_map, length_seq).
  rewrite map_nth, seq_nth by exact H. reflexivity.
Qed.

Lemma tab1_ext {A : Type} (n : nat) (f g : nat -> A) :
  (forall i, i < n -> f i = g i) -> tab1 n f = tab1 n g.
Proof.
  intros H. unfold tab1. apply map_ext_in. intros i Hi.
  apply in_seq in Hi. apply H. lia.
Qed.

Lemma tab1_S {A : Type} (n : nat) (f : nat -> A) :
  tab1 (S n) f = f 0 :: tab1 n (fun i => f (S i)).
Proof. unfold tab1. simpl. now rewrite <- seq_shift, map_map. Qed.

Lemma list_tab1 {A : Type} (l : list A) (d : A) :
  l = tab1 (length l) (fun i => nth i l d).
Proof.
  induction l as [|x l IH]; [reflexivity|].
  cbn [length]. rewrite tab1_S. simpl. now rewrite <- IH.
Qed.

Lemma map_tab1 {A B : Type} (g : A -> B) (n : nat) (f : nat -> A) :
  map g (tab1 n f) = tab1 n (fun i => g (f i)).
Proof. unfold tab1. apply map_map. Qed.

Lemma map2_tab1 {N : Num} {A B C : Type} (g : A -> B -> C) (n : nat)
    (f : nat -> A) (h : nat -> B) :
  map2 g (tab1 n f) (tab1 n h) = tab1 n (fun i => g (f i) (h i)).
Proof. unfold tab1. apply map2_diag. Qed.

Lemma zipM_tab1 {N : Num} {A B C : Type} (g : A -> B -> result C) (n : nat)
    (f : nat -> A) (h : nat -> B) (r : nat -> C) :
  (forall i, i < n -> g (f i) (h i) = Ok (r i)) ->
  zipM g (tab1 n f) (tab1 n h) = Ok (tab1 n r).
Proof.
  revert f h r. induction n as [|n IH]; intros f h r H; [reflexivity|].
  rewrite !tab1_S. simpl. rewrite H by lia. simpl.
  rewrite (IH _ _ (fun i => r (S i))) by (intros i Hi; apply H; lia).
  reflexivity.
Qed.

Lemma bcast_tab1 {N : Num} {A B C : Type} (g : A -> B -> result C) (n : nat)
    (f : nat -> A) (h : nat -> B) (r : nat -> C) :
  (forall i, i < n -> g (f i) (h i) = Ok (r i)) ->
  bcast g (tab1 n f) (tab1 n h) = Ok (tab1 n r).
Proof.
  intros H. unfold bcast. rewrite !tab1_length, Nat.eqb_refl.
  now apply zipM_tab1.
Qed.

Lemma bcast3_tab3 {N : Num} (op : num -> num -> num) (n m l : nat)
    (f g : nat -> nat -> nat -> num) :
  bcast3 op (tab3 n m l f) (tab3 n m l g) =
  Ok (tab3 n m l (fun i j k => op (f i j k) (g i j k))).
Proof.
  unfold bcast3, tab3, tab2. apply bcast_tab1. intros i _.
  apply bcast_tab1. intros j _. apply bcast_tab1. intros k _. reflexivity.
Qed.

Lemma shaped3_tab3 {N : Num} (a : list (list (list num))) (d1 d2 d3 : nat) :
  shaped3 a d1 d2 d3 -> a = tab3 d1 d2 d3 (get3 a).
Proof.
  intros [H1 H2]. unfold tab3, tab2, get3.
  rewrite (list_tab1 a []) at 1. rewrite H1. apply tab1_ext. intros i Hi.
  destruct (H2 i Hi) as [H3 H4].
  rewrite (list_tab1 (nth i a []) []) at 1. rewrite H3.
  apply tab1_ext. intros j Hj.
  rewrite (list_tab1 (nth j (nth i a []) []) n0) at 1. now rewrite H4.
Qed.

End Tabulate.

(** ** Exact arithmetic: convolutions as sums *)



Section ExactConvolution.

#[local] Existing Instance RNum.
Local Open Scope R_scope.

Lemma np_sum_bigsum (l : list R) :
  np_sum l = bigsum (length l) (fun i => nth i l 0).
Proof. unfold np_sum; simpl. rewrite fold_left_Rplus_bigsum. lra. Qed.

Lemma nth_map2 {A B C : Type} (f : A -> B -> C) (a : list A) (b : list B)
    (i : nat) (da : A) (db : B) (dc : C) :
  (i < length a)%nat -> (i < length b)%nat ->
  nth i (map2 f a b) dc = f (nth i a da) (nth i b db).
Proof.
  revert b i; induction a as [|x a IH]; intros [|y b] [|i] Ha Hb;
    simpl in *; try Rlia; auto.
  apply IH; Rlia.
Qed.

Lemma dot_bigsum (a b : list R) :
  dot a b = bigsum (Nat.min (length a) (length b))
              (fun i => nth i a 0 * nth i b 0).
Proof.
  unfold dot. rewrite np_sum_bigsum, map2_length.
  apply bigsum_ext. intros i Hi.
  apply (@nth_map2 R R R Rmult a b i 0 0 0); Rlia.
Qed.

Lemma window_length (n len : nat) (v : list R) :
  (n + len <= length v)%nat -> length (window n len v) = len.
Proof.
  intros H. unfold window. rewrite length_firstn, length_skipn. Rlia.
Qed.

Lemma window_nth (n len j : nat) (v : list R) :
  (j < len)%nat -> nth j (window n len v) 0 = nth (n + j) v 0.
Proof.
  intros H. unfold window. rewrite nth_firstn.
  destruct (Nat.ltb_spec j len); [|Rlia]. apply nth_skipn.
Qed.

Lemma slide_tab (vol ker : list R) :
  (length ker <= length vol)%nat ->
  slide vol ker = tab1 (length vol - length ker + 1) (conv_entry vol ker).
Proof.
  intros H. unfold slide. apply tab1_ext. intros n Hn.
  rewrite dot_bigsum, window_length, length_rev, Nat.min_id by Rlia.
  apply bigsum_ext. intros j Hj.
  rewrite window_nth by exact Hj. f_equal.
  rewrite rev_nth by exact Hj. f_equal. Rlia.
Qed.

(** With inputs of one length there is one output, and it does not depend
    on which input is taken for the kernel. *)
Lemma conv_entry_sym (a b : list R) :
  length a = length b -> conv_entry a b 0 = conv_entry b a 0.
Proof.
  intros H. unfold conv_entry. rewrite H.
  rewrite bigsum_rev. apply bigsum_ext. intros j Hj.
  simpl. rewrite Rmult_comm. f_equal; f_equal; Rlia.
Qed.

Lemma convolve_valid_tab (vol ker : list R) :
  (length ker <= length vol)%nat ->
  convolve_valid vol ker = tab1 (length vol - length ker + 1) (conv_entry vol ker)
  /\ convolve_valid ker vol
     = tab1 (length vol - length ker + 1) (conv_entry vol ker).
Proof.
  intros H. unfold convolve_valid. Rsimp. split.
  - destruct (Nat.ltb_spec (length vol) (length ker)); [Rlia|].
    now apply slide_tab.
  - destruct (Nat.ltb_spec (length ker) (length vol)).
    + now apply slide_tab.
    + assert (E : length ker = length vol) by Rlia.
      rewrite slide_tab by Rlia. rewrite E, Nat.sub_diag. simpl.
      unfold tab1. simpl. f_equal. now apply conv_entry_sym.
Qed.

(** The zero padding of the full convolution. *)
Lemma nth_padded (p q m : nat) (a : list R) :
  nth m (zeros p ++ a ++ zeros q) 0 =
  if Nat.ltb m p then 0 else nth (m - p) a 0.
Proof.
  unfold zeros. destruct (Nat.ltb_spec m p) as [H|H].
  - rewrite app_nth1 by (now rewrite repeat_length).
    apply nth_repeat_lt. exact H.
  - rewrite app_nth2 by (rewrite repeat_length; Rlia).
    rewrite repeat_length.
    destruct (Nat.lt_ge_cases (m - p) (length a)) as [Ha|Ha].
    + now rewrite app_nth1.
    + rewrite app_nth2 by exact Ha. rewrite (nth_overflow a) by exact Ha.
      simpl. destruct (Nat.lt_ge_cases (m - p - length a) q).
      * now apply nth_repeat_lt.
      * apply nth_overflow. now rewrite repeat_length.
Qed.

Lemma convolve_full_tab (a v : list R) :
  (1 <= length a)%nat -> (1 <= length v)%nat ->
  convolve_full a v =
  tab1 (length a + length v - 1)
    (fun s => bigsum (length v)
                (fun j => padded (length v) a (s + j)
                          * nth (length v - 1 - j) v 0)).
Proof.
  intros Ha Hv. unfold convolve_full. rewrite slide_tab.
  - rewrite !length_app. unfold zeros. rewrite !repeat_length. Rsimp.
    replace (length v - 1 + (length a + (length v - 1)) - length v + 1)%nat
      with (length a + length v - 1)%nat by Rlia.
    apply tab1_ext. intros s Hs. unfold conv_entry.
    apply bigsum_ext. intros j Hj.
    change (repeat 0 (length v - 1)) with (zeros (length v - 1)).
    now rewrite nth_padded.
  - rewrite !length_app. unfold zeros. rewrite !repeat_length. Rlia.
Qed.

(** Sums of arrays, entry by entry. *)
Lemma vadd_tab1 (n : nat) (f g : nat -> R) :
  vadd (tab1 n f) (tab1 n g) = tab1 n (fun i => f i + g i).
Proof. unfold vadd. apply map2_tab1. Qed.

Lemma madd_tab2 (n m : nat) (f g : nat -> nat -> R) :
  madd (tab2 n m f) (tab2 n m g) = tab2 n m (fun i j => f i j + g i j).
Proof.
  unfold madd, tab2. rewrite map2_tab1. apply tab1_ext. intros i _.
  apply vadd_tab1.
Qed.

Lemma fold_left_madd_tab2 (n m : nat) (f : nat -> nat -> nat -> R)
    (l : list nat) (g : nat -> nat -> R) :
  fold_left madd (map (fun i => tab2 n m (f i)) l) (tab2 n m g) =
  tab2 n m (fun p t => fold_left (fun u i => u + f i p t) l (g p t)).
Proof.
  revert g; induction l as [|i l IH]; intros g; simpl; auto.
  rewrite madd_tab2. apply IH.
Qed.

Lemma sum_list_madd_tab (k n m : nat) (f : nat -> nat -> nat -> R) :
  (1 <= k)%nat ->
  sum_list madd [] (tab1 k (fun i => tab2 n m (f i))) =
  tab2 n m (fun p t => bigsum k (fun i => f i p t)).
Proof.
  intros Hk. destruct k as [|k]; [Rlia|].
  rewrite tab1_S. unfold sum_list, tab1.
  rewrite <- map_map with (f := S) (g := fun i => tab2 n m (f i)).
  rewrite fold_left_madd_tab2. unfold tab2. apply tab1_ext. intros p _.
  apply tab1_ext. intros t _.
  rewrite bigsum_S_left, seq_shift.
  rewrite <- (map_id (seq 1 k)), <- seq_shift, map_map.
  generalize (f 0%nat p t). intros v.
  rewrite <- fold_left_seq_bigsum.
  generalize (seq 0 k). intros l. revert v.
  induction l as [|i l IH]; intros v; simpl; auto.
Qed.

End ExactConvolution.

(** ** Exact arithmetic: the statistics as sums *)

Section ExactStatistics.

#[local] Existing Instance RNum.
Local Open Scope R_scope.

Lemma conv_entry_rev (xs zs : list R) (t : nat) :
  conv_entry xs (rev zs) t =
  bigsum (length zs) (fun j => nth (t + j) xs 0 * nth j zs 0).
Proof.
  unfold conv_entry. rewrite length_rev. apply bigsum_ext. intros j Hj.
  f_equal. rewrite rev_nth by Rlia. f_equal. Rlia.
Qed.

(** The correlation of a code row of length [Tv] with a data row of length
    [Tv + L - 1], whichever way round [convolve] is given them. *)
Lemma correlate_rows (xs zs : list R) (L : nat) :
  (1 <= L)%nat -> length xs = (length zs + L - 1)%nat ->
  convolve_valid xs (rev zs)
    = tab1 L (fun t => bigsum (length zs) (fun j => nth (t + j) xs 0 * nth j zs 0))
  /\ convolve_valid (rev zs) xs
    = tab1 L (fun t => bigsum (length zs) (fun j => nth (t + j) xs 0 * nth j zs 0)).
Proof.
  intros HL Hx.
  destruct (@convolve_valid_tab xs (rev zs)) as [H1 H2].
  - rewrite length_rev. Rlia.
  - rewrite H1, H2, length_rev.
    replace (length xs - length zs + 1)%nat with L by Rlia.
    split; apply tab1_ext; intros t _; apply conv_entry_rev.
Qed.

(** The two sliced dot products of the loops, as sums over the whole
    row. *)
Lemma lag_plus_sum (L t : nat) (a b : list R) :
  length a = length b ->
  lag_plus t a b =
  bigsum (length a) (fun s => nth s a 0 * padded L b (s + (L - 1 + t))).
Proof.
  intros Hab.
  assert (Hpad : forall s, padded L b (s + (L - 1 + t)) = nth (s + t) b 0).
  { intros s. unfold padded. destruct (Nat.ltb_spec (s + (L - 1 + t)) (L - 1));
      [lia|]. f_equal. lia. }
  unfold lag_plus. destruct (Nat.eqb_spec t 0) as [->|Ht].
  - rewrite dot_bigsum, <- Hab, Nat.min_id. apply bigsum_ext. intros s _.
    now rewrite Hpad, Nat.add_0_r.
  - rewrite dot_bigsum. unfold drop_last.
    rewrite length_firstn, length_skipn. Rsimp.
    replace (Nat.min (Nat.min (length a - t) (length a)) (length b - t))
      with (length a - t)%nat by Rlia.
    rewrite <- (@bigsum_extend (length a - t) (length a)
                  (fun s => nth s a 0 * padded L b (s + (L - 1 + t)))).
    + apply bigsum_ext. intros s Hs.
      rewrite nth_firstn, nth_skipn, Hpad.
      destruct (Nat.ltb_spec s (length a - t)); [|Rlia].
      f_equal. f_equal. lia.
    + lia.
    + intros s Hs. rewrite Hpad, (nth_overflow b) by Rlia. lra.
Qed.

Lemma lag_minus_sum (L t : nat) (a b : list R) :
  length a = length b -> (1 <= t <= L - 1)%nat ->
  lag_minus t a b =
  bigsum (length a) (fun s => nth s a 0 * padded L b (s + (L - 1 - t))).
Proof.
  intros Hab Ht.
  assert (Hpad : forall s, padded L b (s + (L - 1 - t)) =
                           if Nat.ltb s t then 0 else nth (s - t) b 0).
  { intros s. unfold padded.
    destruct (Nat.ltb_spec (s + (L - 1 - t)) (L - 1));
      destruct (Nat.ltb_spec s t); try lia; auto.
    f_equal. lia. }
  unfold lag_minus. rewrite dot_bigsum. unfold drop_last.
  rewrite length_firstn, length_skipn. Rsimp.
  replace (Nat.min (length a - t) (Nat.min (length b - t) (length b)))
    with (length a - t)%nat by Rlia.
  destruct (Nat.le_gt_cases t (length a)) as [Hle|Hgt].
  - set (F := fun s => nth s a 0 * padded L b (s + (L - 1 - t))).
    replace (bigsum (length a) F) with (bigsum (t + (length a - t)) F)
      by (f_equal; lia).
    unfold F. rewrite bigsum_shift, (@bigsum_zero t).
    + rewrite Rplus_0_l. apply bigsum_ext. intros s Hs.
      rewrite nth_firstn, nth_skipn, Hpad.
      destruct (Nat.ltb_spec s (length b - t)); [|Rlia].
      destruct (Nat.ltb_spec (t + s) t); [lia|].
      f_equal. f_equal. lia.
    + intros s Hs. rewrite Hpad.
      destruct (Nat.ltb_spec s t); [lra|lia].
  - replace (length a - t)%nat with 0%nat by lia. simpl.
    symmetry. apply bigsum_zero. intros s Hs. rewrite Hpad.
    destruct (Nat.ltb_spec s t); [lra|Rlia].
Qed.

End ExactStatistics.

(** ** Exact arithmetic: the two gradients on tabulated arrays *)

Section ExactGradientTab.

#[local] Existing Instance RNum.
Local Open Scope R_scope.

Variables K n P L Tv : nat.
Hypothesis HK : (1 <= K)%nat.
Hypothesis Hn : (1 <= n)%nat.
Hypothesis HP : (1 <= P)%nat.
Hypothesis HL : (1 <= L)%nat.
Hypothesis HTv : (1 <= Tv)%nat.

(** The number of time steps of the data. *)
Let T : nat := (Tv + L - 1)%nat.

Variable zf : nat -> nat -> nat -> R.

Lemma correlate_tab (af : nat -> nat -> nat -> R) (k i p : nat) :
  convolve_valid (tab1 T (af i p)) (rev (tab1 Tv (zf k i)))
    = tab1 L (fun t => bigsum Tv (fun s => af i p (t + s)%nat
                                           * nth s (tab1 Tv (zf k i)) 0))
  /\ convolve_valid (rev (tab1 Tv (zf k i))) (tab1 T (af i p))
    = tab1 L (fun t => bigsum Tv (fun s => af i p (t + s)%nat
                                           * nth s (tab1 Tv (zf k i)) 0)).
Proof.
  destruct (@correlate_rows (tab1 T (af i p)) (tab1 Tv (zf k i)) L HL)
    as [H1 H2].
  - rewrite !tab1_length. reflexivity.
  - rewrite H1, H2, tab1_length.
    split; apply tab1_ext; intros t Ht; apply bigsum_ext; intros s Hs;
      (rewrite (@tab1_nth R T) by (unfold T; lia)); reflexivity.
Qed.

Lemma sum_list_madd_tab1 (k a b : nat) (f : nat -> nat -> nat -> R) :
  (1 <= k)%nat ->
  sum_list madd [] (tab1 k (fun i => tab1 a (fun p => tab1 b (f i p)))) =
  tab1 a (fun p => tab1 b (fun t => bigsum k (fun i => f i p t))).
Proof. apply sum_list_madd_tab. Qed.

Lemma _dense_transpose_convolve_tab (af : nat -> nat -> nat -> R) :
  _dense_transpose_convolve (tab3 K n Tv zf) (tab3 n P T af)
  = tab3 K P L (corr_entry n Tv zf af).
Proof.
  unfold _dense_transpose_convolve, tab3, tab2. rewrite map_tab1.
  apply tab1_ext. intros k Hk. rewrite map2_tab1.
  unfold corr_entry. rewrite <- sum_list_madd_tab1 by exact Hn.
  f_equal. apply tab1_ext. intros i Hi. rewrite map_tab1.
  apply tab1_ext. intros p Hp. apply correlate_tab.
Qed.

Lemma ZtX_tab (xf : nat -> nat -> nat -> R) :
  map (fun zk =>
         sum_list madd []
           (map2 (fun zik xi => map (fun xip => convolve_valid (rev zik) xip) xi)
                 zk (tab3 n P T xf)))
      (tab3 K n Tv zf)
  = tab3 K P L (corr_entry n Tv zf xf).
Proof.
  unfold tab3, tab2. rewrite map_tab1.
  apply tab1_ext. intros k Hk. rewrite map2_tab1.
  unfold corr_entry. rewrite <- sum_list_madd_tab1 by exact Hn.
  f_equal. apply tab1_ext. intros i Hi. rewrite map_tab1.
  apply tab1_ext. intros p Hp. apply correlate_tab.
Qed.

Variable df : nat -> nat -> nat -> R.

Lemma tab3_hd_length (a b c : nat) (f : nat -> nat -> nat -> R) :
  (1 <= a)%nat -> length (hd [] (tab3 a b c f)) = b.
Proof.
  intros Ha. destruct a as [|a]; [lia|].
  unfold tab3. rewrite tab1_S. simpl. apply tab1_length.
Qed.

Lemma construct_X_multi_tab :
  construct_X_multi (tab3 K n Tv zf) (tab3 K P L df) = tab3 n P T (X_hat_entry K L Tv zf df).
Proof.
  unfold construct_X_multi. rewrite tab3_hd_length by exact HK.
  unfold tab3, tab2. apply tab1_ext. intros i Hi. rewrite map2_tab1.
  unfold X_hat_entry. rewrite <- sum_list_madd_tab1 by exact HK.
  f_equal. apply tab1_ext. intros k Hk. rewrite map_tab1.
  apply tab1_ext. intros p Hp.
  rewrite (@tab1_nth (list R) n) by exact Hi.
  rewrite convolve_full_tab by (rewrite tab1_length; assumption).
  rewrite !tab1_length. apply tab1_ext. intros s Hs.
  apply bigsum_ext. intros j Hj.
  rewrite (@tab1_nth R L) by lia. reflexivity.
Qed.

Variable zzf : nat -> nat -> nat -> R.

Lemma cached_convolution_tab :
  map (fun zzk =>
         sum_list madd []
           (map2 (fun zzkk dk => map (fun dkp => convolve_valid zzkk dkp) dk)
                 zzk (tab3 K P L df)))
      (tab3 K K (2 * L - 1) zzf)
  = tab3 K P L (cached_entry K L df zzf).
Proof.
  unfold tab3, tab2. rewrite map_tab1.
  apply tab1_ext. intros k Hk. rewrite map2_tab1.
  unfold cached_entry. rewrite <- sum_list_madd_tab1 by exact HK.
  f_equal. apply tab1_ext. intros k' Hk'. rewrite map_tab1.
  apply tab1_ext. intros p Hp.
  destruct (@convolve_valid_tab (tab1 (2 * L - 1) (zzf k k')) (tab1 L (df k' p)))
    as [H1 _]; [rewrite !tab1_length; lia|].
  rewrite H1, !tab1_length.
  replace (2 * L - 1 - L + 1)%nat with L by lia.
  apply tab1_ext. intros t Ht. unfold conv_entry. rewrite tab1_length.
  apply bigsum_ext. intros j Hj.
  rewrite (@tab1_nth R (2 * L - 1)) by lia.
  rewrite (@tab1_nth R L) by lia. reflexivity.
Qed.

End ExactGradientTab.

(** ** Exact arithmetic: the cached and the direct gradient *)

Section ConstantsDefined.

Context {N : Num}.

Lemma _get_d_update_constants_defined (X Z : ten) :
  length (hd [] (hd [] Z)) <= length (hd [] (hd [] X)) ->
  exists c, _get_d_update_constants X Z = Ok c.
Proof.
  intros H. unfold _get_d_update_constants, shape3.
  match goal with
  | |- context [Z.ltb ?e 0] => destruct (Z.ltb_spec e 0) as [Hneg|Hpos]
  end; [lia|]. eexists. reflexivity.
Qed.

Lemma ZtZ_shaped (X Z : ten) (c : constants) :
  _get_d_update_constants X Z = Ok c ->
  shaped3 (ZtZ c) (length Z) (length Z) (2 * n_times_atom X Z - 1).
Proof.
  intros Hc. destruct (_get_d_update_constants_Ok _ _ Hc) as (_ & Hzz & _).
  rewrite Hzz.
  apply (@ZtZ_loops_effect N Z (length Z) (length (hd [] Z))
           (n_times_atom X Z) _ 0 0 0 (zeros3_shaped _ _)).
Qed.

Lemma has_shape3_shaped (a : ten) (d1 d2 d3 : nat) :
  has_shape3 a d1 d2 d3 = true -> shaped3 a d1 d2 d3.
Proof.
  unfold has_shape3. intros H. apply andb_prop in H. destruct H as [H1 H2].
  apply Nat.eqb_eq in H1. split; [exact H1|]. intros i Hi.
  rewrite forallb_forall in H2.
  assert (Hin : In (nth i a []) a) by (apply nth_In; lia).
  specialize (H2 _ Hin). apply andb_prop in H2. destruct H2 as [H3 H4].
  apply Nat.eqb_eq in H3. split; [exact H3|]. intros j Hj.
  rewrite forallb_forall in H4. apply Nat.eqb_eq, H4, nth_In. lia.
Qed.

Lemma hd_nth_0 {A : Type} (l : list A) (d : A) : hd d l = nth 0 l d.
Proof. now destruct l. Qed.

End ConstantsDefined.

Section ExactGradient.

#[local] Existing Instance RNum.
Local Open Scope R_scope.

Lemma bigsum_swap4 (a b c d : nat) (F : nat -> nat -> nat -> nat -> R) :
  bigsum a (fun i => bigsum b (fun s =>
    bigsum c (fun k => bigsum d (fun j => F i s k j)))) =
  bigsum c (fun k => bigsum d (fun j =>
    bigsum a (fun i => bigsum b (fun s => F i s k j)))).
Proof.
  transitivity
    (bigsum a (fun i => bigsum c (fun k =>
       bigsum d (fun j => bigsum b (fun s => F i s k j))))).
  - apply bigsum_ext. intros i _. rewrite bigsum_swap.
    apply bigsum_ext. intros k _. apply bigsum_swap.
  - rewrite bigsum_swap. apply bigsum_ext. intros k _. apply bigsum_swap.
Qed.

Lemma tab3_ext {A : Type} (a b c : nat) (f g : nat -> nat -> nat -> A) :
  (forall i j k, (i < a)%nat -> (j < b)%nat -> (k < c)%nat ->
                 f i j k = g i j k) ->
  tab3 a b c f = tab3 a b c g.
Proof.
  intros H. unfold tab3, tab2. apply tab1_ext. intros i Hi.
  apply tab1_ext. intros j Hj. apply tab1_ext. intros k Hk. now apply H.
Qed.

(** An entry of [ZtZ] is a sum over the trials and the time steps of
    products of the code with the zero-padded code. *)
Lemma ZtZ_entry (X Z : ten) (c : constants) (K n Tv L k k' m : nat) :
  _get_d_update_constants X Z = Ok c ->
  shaped3 Z K n Tv -> n_times_atom X Z = L -> length (hd [] Z) = n ->
  (k < K)%nat -> (k' < K)%nat -> (m < 2 * L - 1)%nat ->
  get3 (ZtZ c) k k' m =
  bigsum n (fun i =>
    bigsum Tv (fun s => nth s (nth i (nth k Z []) []) 0
                        * padded L (nth i (nth k' Z []) []) (s + m))).
Proof.
  intros Hc [HZ1 HZ2] HL Hn Hk Hk' Hm.
  assert (Hrow : forall a i, (a < K)%nat -> (i < n)%nat ->
                             length (nth i (nth a Z []) []) = Tv).
  { intros a i Ha Hi. destruct (HZ2 a Ha) as [_ H]. now apply H. }
  destruct (Nat.le_gt_cases (L - 1) m) as [Hge|Hlt].
  - replace m with (n_times_atom X Z - 1 + (m - (L - 1)))%nat at 1 by lia.
    rewrite (@ZtZ_plus RNum X Z c k k' (m - (L - 1)) Hc) by lia.
    rewrite Hn. Rsimp.
    rewrite (fold_left_seq_bigsum n
               (fun i => @lag_plus RNum (m - (L - 1)) (nth i (nth k Z []) [])
                           (nth i (nth k' Z []) []))).
    rewrite Rplus_0_l. apply bigsum_ext. intros i Hi.
    rewrite (@lag_plus_sum L) by (rewrite !Hrow; auto).
    rewrite Hrow by assumption.
    apply bigsum_ext. intros s _. do 2 f_equal. lia.
  - replace m with (n_times_atom X Z - 1 - (L - 1 - m))%nat at 1 by lia.
    rewrite (@ZtZ_minus RNum X Z c k k' (L - 1 - m) Hc) by lia.
    rewrite Hn. Rsimp.
    rewrite (fold_left_seq_bigsum n
               (fun i => @lag_minus RNum (L - 1 - m) (nth i (nth k Z []) [])
                           (nth i (nth k' Z []) []))).
    rewrite Rplus_0_l. apply bigsum_ext. intros i Hi.
    rewrite (@lag_minus_sum L) by (rewrite ?Hrow; auto; lia).
    rewrite Hrow by assumption.
    apply bigsum_ext. intros s _. do 2 f_equal. lia.
Qed.

Lemma sum4_residual (a b c d : nat) (A : nat -> nat -> nat -> nat -> R)
    (x z : nat -> nat -> R) :
  bigsum a (fun i => bigsum b (fun s =>
    (bigsum c (fun k => bigsum d (fun j => A i s k j)) - x i s) * z i s)) =
  bigsum c (fun k => bigsum d (fun j =>
    bigsum a (fun i => bigsum b (fun s => A i s k j * z i s))))
  - bigsum a (fun i => bigsum b (fun s => x i s * z i s)).
Proof.
  rewrite <- bigsum_swap4, <- bigsum_minus.
  apply bigsum_ext. intros i _. rewrite <- bigsum_minus.
  apply bigsum_ext. intros s _.
  rewrite Rmult_minus_distr_r. f_equal.
  rewrite <- bigsum_mult_r. apply bigsum_ext. intros k _.
  now rewrite <- bigsum_mult_r.
Qed.

Lemma shaped3_row (a : list (list (list R))) (d1 d2 d3 i j : nat) :
  shaped3 a d1 d2 d3 -> (i < d1)%nat -> (j < d2)%nat ->
  nth j (nth i a []) [] = tab1 d3 (get3 a i j).
Proof.
  intros [_ H] Hi Hj. destruct (H i Hi) as [_ H'].
  rewrite <- (H' j Hj). unfold get3. apply list_tab1.
Qed.

Lemma shaped3_hd (a : list (list (list R))) (d1 d2 d3 : nat) :
  shaped3 a d1 d2 d3 -> (1 <= d1)%nat -> (1 <= d2)%nat ->
  length (hd [] a) = d2 /\ length (hd [] (hd [] a)) = d3.
Proof.
  intros [_ H] H1 H2. rewrite !hd_nth_0.
  destruct (H 0%nat) as [H3 H4]; [lia|]. split; [exact H3|].
  apply H4. lia.
Qed.

(** C1.  For a code [Z], data [X] and atoms [D] of consistent shapes, the
    gradient that [_gradient_d] computes from the statistics of
    [_get_d_update_constants(X, Z)] is the gradient that it computes from
    the residual [construct_X_multi(Z, D) - X]: in exact arithmetic the two
    are the same array. *)
Theorem gradient_paths_agree (Z X D : list (list (list R)))
    (K n P L Tv : nat) :
  (1 <= K)%nat -> (1 <= n)%nat -> (1 <= P)%nat -> (1 <= L)%nat ->
  (1 <= Tv)%nat ->
  has_shape3 Z K n Tv = true ->
  has_shape3 X n P (Tv + L - 1) = true ->
  has_shape3 D K P L = true ->
  exists c g,
    _get_d_update_constants X Z = Ok c /\
    _gradient_d D None None (Some c) = Ok g /\
    _gradient_d D (Some X) (Some Z) None = Ok g.
Proof.
  intros HK Hn HP HL HTv HZ HX HD.
  apply has_shape3_shaped in HZ, HX, HD.
  destruct (shaped3_hd HZ HK Hn) as [HZn HZt].
  destruct (shaped3_hd HX Hn HP) as [HXp HXt].
  assert (HLx : n_times_atom X Z = L).
  { unfold n_times_atom. Rsimp. rewrite HZt, HXt. lia. }
  destruct (@_get_d_update_constants_defined RNum X Z) as [c Hc].
  { Rsimp. rewrite HZt, HXt. lia. }
  destruct (_get_d_update_constants_Ok _ _ Hc) as (_ & _ & Hztx & _).
  pose proof (ZtZ_shaped _ _ Hc) as Hs.
  rewrite HLx in Hs. pose proof HZ as [HZ1 _].
  Rsimp. rewrite HZ1 in Hs.
  assert (Hzz : forall k k' m, (k < K)%nat -> (k' < K)%nat ->
                  (m < 2 * L - 1)%nat ->
                  get3 (ZtZ c) k k' m =
                  bigsum n (fun i =>
                    bigsum Tv (fun s => nth s (tab1 Tv (get3 Z k i)) 0
                                * padded L (tab1 Tv (get3 Z k' i)) (s + m)))).
  { intros k k' m Hk Hk' Hm.
    rewrite (@ZtZ_entry X Z c K n Tv L k k' m) by assumption.
    apply bigsum_ext. intros i Hi.
    now rewrite !(shaped3_row HZ) by assumption. }
  exists c.
  cut (exists g, _gradient_d D None None (Some c) = Ok g /\
                 _gradient_d D (Some X) (Some Z) None = Ok g).
  { intros (g & H1 & H2). exists g. auto. }
  unfold _gradient_d. rewrite Hztx.
  rewrite (shaped3_tab3 Hs), (shaped3_tab3 HD), (shaped3_tab3 HX).
  rewrite (shaped3_tab3 HZ).
  generalize dependent (get3 (ZtZ c)). intros zzf Hzz.
  generalize (get3 D) (get3 X). intros df xf.
  clear HZ HZ1 HZn HZt HX HXp HXt HD HLx Hc Hztx Hs.
  generalize dependent (get3 Z). intros zf Hzz.
  rewrite (@cached_convolution_tab K n P L Tv HK Hn HP HL HTv).
  rewrite (@ZtX_tab K n P L Tv HK Hn HP HL HTv).
  rewrite (@construct_X_multi_tab K n P L Tv HK Hn HP HL HTv).
  rewrite !(@bcast3_tab3 RNum). unfold bind.
  rewrite (@_dense_transpose_convolve_tab K n P L Tv HK Hn HP HL HTv).
  eexists. split; [reflexivity|].
  f_equal. symmetry. apply tab3_ext. intros k p t Hk Hp Ht.
  unfold cached_entry, corr_entry, X_hat_entry. Rsimp.
  rewrite (@sum4_residual n Tv K L
             (fun i s k' j => padded L (tab1 Tv (zf k' i)) (t + s + j)
                              * df k' p (L - 1 - j)%nat)
             (fun i s => xf i p (t + s)%nat)
             (fun i s => nth s (tab1 Tv (zf k i)) 0)).
  f_equal.
  apply bigsum_ext. intros k' Hk'. apply bigsum_ext. intros j Hj.
  rewrite Hzz by lia. rewrite <- bigsum_mult_r.
  apply bigsum_ext. intros i Hi. rewrite <- bigsum_mult_r.
  apply bigsum_ext. intros s Hs.
  replace (t + s + j)%nat with (s + (t + j))%nat by lia. ring.
Qed.

End ExactGradient.

Section ExactStatisticsRuns.

#[local] Existing Instance RNum.
Local Open Scope R_scope.

Lemma gradient_paths_agree_witness :
  exists c g,
    _get_d_update_constants X_runR Z_runR = Ok c /\
    _gradient_d D_runR None None (Some c) = Ok g /\
    _gradient_d D_runR (Some X_runR) (Some Z_runR) None = Ok g.
Proof.
  apply (@gradient_paths_agree Z_runR X_runR D_runR 2 1 2 2 3);
    try lia; reflexivity.
Defined.

Lemma ZtZ_symmetry_witness :
  exists c,
    _get_d_update_constants X_runR Z_runR = Ok c /\
    get3 (ZtZ c) 0 1 (n_times_atom X_runR Z_runR - 1 + 1) =
    get3 (ZtZ c) 1 0 (n_times_atom X_runR Z_runR - 1 - 1).
Proof.
  destruct (@_get_d_update_constants_defined RNum X_runR Z_runR) as [c Hc].
  - simpl. lia.
  - exists c. split; [exact Hc|].
    apply (@ZtZ_symmetry RNum X_runR Z_runR c 0 1 1 Rmult_comm Hc).
    + simpl. lia.
    + simpl. lia.
    + vm_compute. lia.
Defined.

End ExactStatisticsRuns.

Section Binary64StatisticsRuns.

Import PrimFloat.
#[local] Existing Instance FNum.
Local Open Scope float_scope.

(** The statistics of the run above, as numpy computes them. *)
Example constants_run :
  _get_d_update_constants X_run Z_run =
  Ok {| ZtX := [[[5; 8]; [2; 1]]; [[5; 7]; [1; 1]]];
        ZtZ := [[[2; 5; 2]; [0; 2; 3]]; [[3; 2; 0]; [1; 2; 1]]];
        n_chan := 2 |}.
Proof. reflexivity. Qed.

(** On this run the two gradients agree in binary64 arithmetic too. *)
Example gradient_paths_run :
  _gradient_uv uv_run None None
    (Some {| ZtX := [[[5; 8]; [2; 1]]; [[5; 7]; [1; 1]]];
             ZtZ := [[[2; 5; 2]; [0; 2; 3]]; [[3; 2; 0]; [1; 2; 1]]];
             n_chan := 2 |})
    = Ok [[14; 16.5; 5.25; 8.5]; [-2; 3; 5.75; 2]] /\
  _gradient_uv uv_run (Some X_run) (Some Z_run) None
    = Ok [[14; 16.5; 5.25; 8.5]; [-2; 3; 5.75; 2]].
Proof. split; reflexivity. Qed.

End Binary64StatisticsRuns.

(** * Further properties of the code *)

(** ** _get_d_update_constants *)

Section ConstantsFacts.

Context {N : Num}.

(** [_get_d_update_constants] raises the [ValueError] of [np.zeros] exactly
    when the data has fewer time steps than the code; otherwise it returns
    a record whose [n_chan] is the number of channels of [X], whose [ZtX]
    has one entry per atom and whose [ZtZ] has shape
    [(n_atoms, n_atoms, 2 * n_times_atom - 1)]. *)
Theorem _get_d_update_constants_outcome (X Z : ten) :
  if Nat.ltb (length (hd [] (hd [] X))) (length (hd [] (hd [] Z)))
  then _get_d_update_constants X Z = Raise ValueError
  else exists c,
      _get_d_update_constants X Z = Ok c /\
      n_chan c = length (hd [] X) /\
      length (ZtX c) = length Z /\
      n_times_atom X Z
        = length (hd [] (hd [] X)) - length (hd [] (hd [] Z)) + 1 /\
      shaped3 (ZtZ c) (length Z) (length Z) (2 * n_times_atom X Z - 1).
Proof.
  destruct (Nat.ltb_spec (length (hd [] (hd [] X)))
                         (length (hd [] (hd [] Z)))) as [Hlt|Hge].
  - unfold _get_d_update_constants, shape3.
    match goal with
    | |- context [Z.ltb ?e 0] => destruct (Z.ltb_spec e 0) as [Hneg|Hpos]
    end; [reflexivity|lia].
  - destruct (_get_d_update_constants_defined X Z Hge) as [c Hc].
    exists c. split; [exact Hc|].
    destruct (_get_d_update_constants_Ok _ _ Hc) as (_ & _ & Hztx & Hn).
    split; [exact Hn|]. split; [rewrite Hztx; apply length_map|].
    split; [unfold n_times_atom; lia|]. now apply ZtZ_shaped.
Qed.

Lemma drop_last_0 (z : vec) : drop_last 0 z = z.
Proof. unfold drop_last. rewrite Nat.sub_0_r. apply firstn_all. Qed.

(** The loops of [_get_d_update_constants] leave in [ZtZ[k0, k, t0 + t]] the
    sum over the trials, in their order and starting from zero, of the dot
    products of [Z[k0, i, :-t]] with [Z[k, i, t:]], and in
    [ZtZ[k0, k, t0 - t]] that of [Z[k0, i, t:]] with [Z[k, i, :-t]]. *)
Theorem ZtZ_lag_spectrum (X Z : ten) (c : constants) (k0 k t : nat) :
  _get_d_update_constants X Z = Ok c ->
  k0 < length Z -> k < length Z -> t < n_times_atom X Z ->
  get3 (ZtZ c) k0 k (n_times_atom X Z - 1 + t) =
    fold_left (fun v i =>
                 nadd v (dot (drop_last t (nth i (nth k0 Z []) []))
                             (skipn t (nth i (nth k Z []) []))))
              (seq 0 (length (hd [] Z))) n0 /\
  get3 (ZtZ c) k0 k (n_times_atom X Z - 1 - t) =
    fold_left (fun v i =>
                 nadd v (dot (skipn t (nth i (nth k0 Z []) []))
                             (drop_last t (nth i (nth k Z []) []))))
              (seq 0 (length (hd [] Z))) n0.
Proof.
  intros Hc Hk0 Hk Ht. split.
  - rewrite (@ZtZ_plus N X Z c k0 k t Hc) by assumption.
    apply fold_left_eq. intros u i _. unfold lag_plus.
    destruct (Nat.eqb_spec t 0) as [->|Ht0]; [|reflexivity].
    now rewrite drop_last_0.
  - destruct (Nat.eq_dec t 0) as [->|Ht0].
    + rewrite Nat.sub_0_r, <- (Nat.add_0_r (n_times_atom X Z - 1)) at 1.
      rewrite (@ZtZ_plus N X Z c k0 k 0 Hc) by assumption.
      apply fold_left_eq. intros u i _. unfold lag_plus. simpl.
      now rewrite drop_last_0.
    + rewrite (@ZtZ_minus N X Z c k0 k t Hc) by (auto; lia).
      reflexivity.
Qed.

End ConstantsFacts.

(** ** _dense_transpose_convolve and prox_uv *)

Section MoreArrayFacts.

Context {N : Num}.

Lemma map2_app_r {A B C : Type} (f : A -> B -> C) (a : list A)
    (b extra : list B) :
  length a <= length b -> map2 f a (b ++ extra) = map2 f a b.
Proof.
  revert b; induction a as [|x a IH]; intros [|y b] H; simpl in *;
    try lia; auto.
  f_equal. apply IH. lia.
Qed.

(** [zip] stops at the shorter argument: trials of the residual beyond
    those of the code are dropped without a word. *)
Theorem _dense_transpose_convolve_drops_trials (Z residual extra : ten) :
  forallb (fun zk => Nat.leb (length zk) (length residual)) Z = true ->
  _dense_transpose_convolve Z (residual ++ extra)
  = _dense_transpose_convolve Z residual.
Proof.
  intros H. unfold _dense_transpose_convolve. apply map_ext_in.
  intros zk Hzk. rewrite forallb_forall in H.
  apply H, Nat.leb_le in Hzk. now rewrite map2_app_r.
Qed.

(** [prox_uv] keeps the shape of [uv]: as many rows, each as long as it
    was. *)
Theorem prox_uv_shape (uv : mat) (k : nat) :
  length (prox_uv uv) = length uv /\
  length (nth k (prox_uv uv) []) = length (nth k uv []).
Proof.
  split.
  - rewrite prox_uv_rows. apply length_map.
  - rewrite prox_uv_nth. unfold prox_row. apply length_map.
Qed.

End MoreArrayFacts.

Section ExactProjectionMore.

#[local] Existing Instance RNum.
Local Open Scope R_scope.

(** In exact arithmetic [prox_uv] multiplies each row by a factor in
    (0, 1]: it never turns a row round and never makes it longer. *)
Theorem prox_uv_shrinks (uv : list (list R)) (k : nat) :
  exists c, 0 < c <= 1 /\
    nth k (prox_uv uv) [] = map (fun x => c * x) (nth k uv []) /\
    euclidean_norm (nth k (prox_uv uv) []) <= euclidean_norm (nth k uv []).
Proof.
  set (row := nth k uv []).
  pose proof (divisor_ge_1 row) as Hd.
  pose proof (sqrt_pos (sum_sq row)) as Hn. fold (euclidean_norm row) in Hn.
  assert (Hinv : 0 < / divisor row <= 1).
  { split; [apply Rinv_0_lt_compat; lra|].
    rewrite <- Rinv_1. apply Rinv_le_contravar; lra. }
  exists (/ divisor row). split; [exact Hinv|].
  rewrite prox_uv_nth. fold row. split.
  - rewrite prox_row_R. apply map_ext. intros x. Rsimp. unfold Rdiv.
    apply Rmult_comm.
  - rewrite prox_row_norm. unfold Rdiv.
    apply Rle_trans with (euclidean_norm row * 1); [|lra].
    apply Rmult_le_compat_l; [apply sqrt_pos | apply Hinv].
Qed.

End ExactProjectionMore.

Section Binary64MoreRuns.

Import PrimFloat.
#[local] Existing Instance FNum.
Local Open Scope float_scope.

Lemma _dense_transpose_convolve_drops_trials_witness :
  _dense_transpose_convolve Z_one_trial (X_one_trial ++ [[[1; 1; 1]]])
  = _dense_transpose_convolve Z_one_trial X_one_trial.
Proof.
  apply (@_dense_transpose_convolve_drops_trials FNum Z_one_trial X_one_trial).
  reflexivity.
Defined.

End Binary64MoreRuns.

(** ** update_uv: edge cases and exceptions *)

Section UpdateUvMore.

Context {N : Num}.

Lemma _get_d_update_constants_raises (X Z : ten) :
  length (hd [] (hd [] X)) < length (hd [] (hd [] Z)) ->
  _get_d_update_constants X Z = Raise ValueError.
Proof.
  intros H. unfold _get_d_update_constants, shape3.
  match goal with
  | |- context [Z.ltb ?e 0] => destruct (Z.ltb_spec e 0) as [Hneg|Hpos]
  end; [reflexivity|lia].
Qed.

Lemma _get_d_update_constants_only_ValueError (X Z : ten) :
  only_ValueError (_get_d_update_constants X Z).
Proof.
  intros e. unfold _get_d_update_constants, shape3.
  match goal with
  | |- context [Z.ltb ?e 0] => destruct (Z.ltb e 0)
  end; congruence.
Qed.

(** Data with fewer time steps than the code: [update_uv] raises the
    [ValueError] of the statistics before it copies or prints anything. *)
Theorem update_uv_short_data (X Z : ten) (uv_hat0 : loc) (max_iter : nat)
    (step_size : num) (eps : option num) (verbose : int) (w : world) :
  length (hd [] (hd [] X)) < length (hd [] (hd [] Z)) ->
  update_uv X Z uv_hat0 max_iter step_size eps verbose w
  = (Raise ValueError, w).
Proof.
  intros H. unfold update_uv, update_uv_locals.
  now rewrite _get_d_update_constants_raises.
Qed.

(** An empty iteration budget: the array that is returned is a fresh copy
    of [uv_hat0], the warning is printed, and with [verbose > 1] the call
    ends in [UnboundLocalError] instead of returning. *)
Theorem update_uv_zero_budget (X Z : ten) (uv_hat0 : loc)
    (step_size : num) (eps : option num) (verbose : int) (w : world) :
  length (hd [] (hd [] Z)) <= length (hd [] (hd [] X)) ->
  update_uv X Z uv_hat0 0 step_size eps verbose w =
  (if (1 <? verbose)%Z then Raise UnboundLocalError else Ok (length (heap w)),
   {| heap := heap w ++ [deref w uv_hat0];
      stdout := stdout w ++ [DidNotConverge] |}).
Proof.
  intros H. destruct (_get_d_update_constants_defined X Z H) as [c Hc].
  rewrite update_uv_unfold.
  rewrite update_uv_locals_unfold with (cst := c) by exact Hc.
  simpl. now destruct (1 <? verbose)%Z.
Qed.

(** A budget that runs out: when the signal stays above the tolerance for
    [max_iter >= 1] iterations (none of which raises), [update_uv] returns
    the iterate after [max_iter] iterations and prints the warning, followed
    by the number of iterations when [verbose > 1]. *)
Theorem update_uv_exhausts_budget (X Z : ten) (uv_hat0 : loc) (max_iter : nat)
    (step_size : num) (eps : option num) (verbose : int) (w : world)
    (cst : constants) (uv_end : mat) :
  1 <= max_iter ->
  _get_d_update_constants X Z = Ok cst ->
  without_convergence cst step_size (tolerance eps) max_iter (deref w uv_hat0)
    = Some uv_end ->
  exists l w',
    update_uv X Z uv_hat0 max_iter step_size eps verbose w = (Ok l, w') /\
    deref w' l = uv_end /\
    stdout w' = stdout w ++ DidNotConverge ::
                  (if (1 <? verbose)%Z then [Iterations max_iter] else []).
Proof.
  intros Hm Hc Hrun.
  destruct (@update_uv_budget_exhausted N X Z uv_hat0 max_iter step_size eps
              verbose w cst uv_end Hc Hrun (or_introl Hm))
    as (s & w' & Hlocals & _ & _ & Hval & Hout).
  exists (uv_hat s), w'. rewrite update_uv_unfold, Hlocals. auto.
Qed.

(** Failures of the array operations are [ValueError]s. *)
Lemma bind_only_ValueError {A B : Type} (r : result A) (k : A -> result B) :
  only_ValueError r -> (forall a, only_ValueError (k a)) ->
  only_ValueError (bind r k).
Proof.
  intros Hr Hk e. destruct r as [a|e']; simpl.
  - apply Hk.
  - intros E. inversion E; subst. now apply Hr.
Qed.

Lemma Ok_only_ValueError {A : Type} (a : A) : only_ValueError (Ok a).
Proof. intros e H. discriminate. Qed.

Lemma Raise_only_ValueError {A : Type} : only_ValueError (@Raise A ValueError).
Proof. intros e H. now inversion H. Qed.

Lemma mapM_only_ValueError {A B : Type} (f : A -> result B) (a : list A) :
  (forall x, only_ValueError (f x)) -> only_ValueError (mapM f a).
Proof.
  intros Hf. induction a as [|x a IH]; simpl.
  - apply Ok_only_ValueError.
  - apply bind_only_ValueError; [apply Hf|]. intros y.
    apply bind_only_ValueError; [exact IH|]. intros ys.
    apply Ok_only_ValueError.
Qed.

Lemma zipM_only_ValueError {A B C : Type} (f : A -> B -> result C)
    (a : list A) (b : list B) :
  (forall x y, only_ValueError (f x y)) -> only_ValueError (zipM f a b).
Proof.
  intros Hf. revert b. induction a as [|x a IH]; intros [|y b]; simpl;
    try apply Ok_only_ValueError.
  apply bind_only_ValueError; [apply Hf|]. intros z.
  apply bind_only_ValueError; [apply IH|]. intros zs.
  apply Ok_only_ValueError.
Qed.

Lemma bcast_only_ValueError {A B C : Type} (f : A -> B -> result C)
    (a : list A) (b : list B) :
  (forall x y, only_ValueError (f x y)) -> only_ValueError (bcast f a b).
Proof.
  intros Hf. unfold bcast. destruct (Nat.eqb (length a) (length b)).
  - now apply zipM_only_ValueError.
  - destruct a as [|x [|x' a]]; destruct b as [|y [|y' b]];
      try apply Raise_only_ValueError;
      try (apply mapM_only_ValueError; intros; apply Hf).
Qed.

Lemma bcast_into_only_ValueError {A B : Type} (f : A -> B -> result A)
    (a : list A) (b : list B) :
  (forall x y, only_ValueError (f x y)) -> only_ValueError (bcast_into f a b).
Proof.
  intros Hf. unfold bcast_into. destruct (Nat.eqb (length a) (length b)).
  - now apply zipM_only_ValueError.
  - destruct b as [|y [|y' b]];
      try apply Raise_only_ValueError.
    apply mapM_only_ValueError. intros; apply Hf.
Qed.

Lemma bcast3_only_ValueError (op : num -> num -> num) (a b : ten) :
  only_ValueError (bcast3 op a b).
Proof.
  unfold bcast3. apply bcast_only_ValueError. intros x y.
  apply bcast_only_ValueError. intros x' y'.
  apply bcast_only_ValueError. intros x'' y''. apply Ok_only_ValueError.
Qed.

Lemma isub2_only_ValueError (a b : mat) : only_ValueError (isub2 a b).
Proof.
  unfold isub2. apply bcast_into_only_ValueError. intros x y.
  apply bcast_into_only_ValueError. intros x' y'. apply Ok_only_ValueError.
Qed.

Lemma _gradient_uv_only_ValueError (uv : mat) (X Z : option ten)
    (c : constants) :
  only_ValueError (_gradient_uv uv X Z (Some c)).
Proof.
  unfold _gradient_uv, _gradient_d.
  apply bind_only_ValueError; [apply Ok_only_ValueError|]. intros p.
  apply bind_only_ValueError; [apply bcast3_only_ValueError|]. intros g.
  apply bind_only_ValueError; [apply bcast3_only_ValueError|]. intros gu.
  apply bind_only_ValueError; [apply bcast3_only_ValueError|]. intros gv.
  unfold np_c_. destruct (Nat.eqb _ _);
    [apply Ok_only_ValueError | apply Raise_only_ValueError].
Qed.

Lemma update_uv_loop_raises (cst : constants) (step_size eps : num) (todo : nat) :
  forall (i : nat) (last : option nat) (u : loc) (w : world) e w',
    update_uv_loop cst step_size eps todo i last u w = (Raise e, w') ->
    e = ValueError.
Proof.
  induction todo as [|todo IH]; intros i last u w e w' H.
  - simpl in H. discriminate.
  - rewrite update_uv_loop_S in H.
    destruct (_gradient_uv (deref w u) None None (Some cst)) as [grad|e1] eqn:Hg.
    2:{ apply _gradient_uv_only_ValueError in Hg. congruence. }
    destruct (isub2 (deref w u) (scale step_size grad)) as [m|e1] eqn:Hm.
    2:{ apply isub2_only_ValueError in Hm. congruence. }
    destruct (nleb (abs_sum grad) eps); [discriminate|].
    now apply IH in H.
Qed.

Lemma update_uv_loop_unbound (cst : constants) (step_size eps : num) (todo : nat) :
  forall (i : nat) (last : option nat) (u : loc) (w : world) s w',
    update_uv_loop cst step_size eps todo i last u w = (Ok s, w') ->
    ii s = None -> todo = 0 /\ broke s = false /\ w' = w.
Proof.
  induction todo as [|todo IH]; intros i last u w s w' H Hii.
  - simpl in H. inversion H; subst. auto.
  - exfalso. rewrite update_uv_loop_S in H.
    destruct (_gradient_uv (deref w u) None None (Some cst)) as [grad|e1];
      [|discriminate].
    destruct (isub2 (deref w u) (scale step_size grad)) as [m|e1];
      [|discriminate].
    destruct (nleb (abs_sum grad) eps).
    + inversion H; subst. discriminate.
    + destruct todo as [|todo'].
      * simpl in H. inversion H; subst. discriminate.
      * destruct (IH _ _ _ _ _ _ H Hii) as [E _]. discriminate.
Qed.

(** The exceptions of [update_uv]: a [ValueError] of numpy, raised before
    anything is printed, or the [UnboundLocalError] of an empty budget with
    [verbose > 1], raised after the warning.  There is no other. *)
Theorem update_uv_exceptions (X Z : ten) (uv_hat0 : loc) (max_iter : nat)
    (step_size : num) (eps : option num) (verbose : int) (w : world)
    (e : exn) (w' : world) :
  update_uv X Z uv_hat0 max_iter step_size eps verbose w = (Raise e, w') ->
  (e = ValueError /\ stdout w' = stdout w) \/
  (e = UnboundLocalError /\ max_iter = 0 /\ (1 < verbose)%Z /\
   stdout w' = stdout w ++ [DidNotConverge]).
Proof.
  intros H. rewrite update_uv_unfold in H.
  destruct (_get_d_update_constants X Z) as [cst|e0] eqn:Hc.
  - rewrite update_uv_locals_unfold with (cst := cst) in H by exact Hc.
    destruct (update_uv_loop cst step_size (tolerance eps) max_iter 0 None
                (length (heap w)) (snd (alloc w (deref w uv_hat0))))
      as [[s|e1] w1] eqn:Hloop.
    + cbv zeta in H.
      destruct (1 <? verbose)%Z eqn:Hv; [|discriminate].
      destruct (ii s) as [j|] eqn:Hii; [discriminate|].
      destruct (update_uv_loop_unbound _ _ _ _ _ _ _ _ Hloop Hii)
        as (Hm & Hb & Hw).
      rewrite Hb in H. inversion H; subst. right.
      repeat split; auto. now apply Z.ltb_lt.
    + inversion H; subst. left. split.
      * now apply update_uv_loop_raises in Hloop.
      * apply update_uv_loop_frame in Hloop. destruct Hloop as [Hout _].
        now rewrite Hout.
  - unfold update_uv_locals in H. rewrite Hc in H. inversion H; subst.
    left. split; auto.
    now apply (@_get_d_update_constants_only_ValueError X Z).
Qed.

End UpdateUvMore.

Section Binary64UpdateUvRuns.

Import PrimFloat.
#[local] Existing Instance FNum.
Local Open Scope float_scope.

Lemma ZtZ_lag_spectrum_witness :
  get3 (ZtZ cst_run) 0 1 (n_times_atom X_run Z_run - 1 + 1) =
    fold_left (fun v i =>
                 nadd v (dot (drop_last 1 (nth i (nth 0 Z_run []) []))
                             (skipn 1 (nth i (nth 1 Z_run []) []))))
              (seq 0 (length (hd [] Z_run))) n0 /\
  get3 (ZtZ cst_run) 0 1 (n_times_atom X_run Z_run - 1 - 1) =
    fold_left (fun v i =>
                 nadd v (dot (skipn 1 (nth i (nth 0 Z_run []) []))
                             (drop_last 1 (nth i (nth 1 Z_run []) []))))
              (seq 0 (length (hd [] Z_run))) n0.
Proof.
  apply (@ZtZ_lag_spectrum FNum X_run Z_run cst_run 0 1 1).
  - reflexivity.
  - simpl. lia.
  - simpl. lia.
  - vm_compute. lia.
Defined.

Lemma update_uv_short_data_witness :
  update_uv X_short Z_one_trial 0%nat 3%nat step_run None 0%Z w_run
  = (Raise ValueError, w_run).
Proof.
  apply (@update_uv_short_data FNum X_short Z_one_trial 0%nat 3%nat step_run
           None 0%Z w_run).
  simpl. lia.
Defined.

Lemma update_uv_zero_budget_witness :
  update_uv X_run Z_run 0%nat 0%nat step_run None 1%Z w_run =
  (Ok 1%nat, {| heap := [uv_run; uv_run]; stdout := [DidNotConverge] |}).
Proof.
  apply (@update_uv_zero_budget FNum X_run Z_run 0%nat step_run None 1%Z w_run).
  simpl. lia.
Defined.

Lemma update_uv_exhausts_budget_witness :
  exists l w',
    update_uv X_run Z_run 0%nat 3%nat step_run None 2%Z w_run = (Ok l, w') /\
    stdout w' = [DidNotConverge; Iterations 3].
Proof.
  destruct (without_convergence cst_run step_run (tolerance None) 3
              (deref w_run 0%nat)) as [uv_end|] eqn:E;
    [|vm_compute in E; discriminate E].
  destruct (@update_uv_exhausts_budget FNum X_run Z_run 0%nat 3%nat step_run
              None 2%Z w_run cst_run uv_end) as (l & w' & H1 & _ & H3).
  - lia.
  - reflexivity.
  - exact E.
  - exists l, w'. split; [exact H1 | exact H3].
Defined.

Lemma update_uv_exceptions_witness :
  (ValueError = ValueError /\ stdout w_run = stdout w_run) \/
  (ValueError = UnboundLocalError /\ 3%nat = 0%nat /\ (1 < 0)%Z /\
   stdout w_run = stdout w_run ++ [DidNotConverge]).
Proof.
  apply (@update_uv_exceptions FNum X_short Z_one_trial 0%nat 3%nat step_run
           None 0%Z w_run ValueError w_run).
  reflexivity.
Defined.

End Binary64UpdateUvRuns.

(** ** Exact arithmetic: the statistics and the objective *)

Section ExactStatisticsMore.

#[local] Existing Instance RNum.
Local Open Scope R_scope.

Lemma get3_tab3 (n m l : nat) (f : nat -> nat -> nat -> R) (i j k : nat) :
  (i < n)%nat -> (j < m)%nat -> (k < l)%nat ->
  get3 (tab3 n m l f) i j k = f i j k.
Proof.
  intros Hi Hj Hk. unfold get3, tab3, tab2.
  rewrite (@tab1_nth (list (list R)) n) by exact Hi.
  rewrite (@tab1_nth (list R) m) by exact Hj.
  now rewrite (@tab1_nth R l) by exact Hk.
Qed.

Lemma bigsum_nonneg (n : nat) (f : nat -> R) :
  (forall i, (i < n)%nat -> 0 <= f i) -> 0 <= bigsum n f.
Proof.
  induction n as [|n IH]; intros H; simpl; [lra|].
  assert (0 <= bigsum n f) by (apply IH; intros; apply H; lia).
  assert (0 <= f n) by (apply H; lia). lra.
Qed.

(** The statistic [ZtX] is the transpose convolution of the data itself,
    and its entries are the cross-correlations of the code with the data:
    [ZtX[k, p, t]] is the sum over the trials [i] and the time steps [s] of
    [Z[k, i, s] * X[i, p, s + t]]. *)
Theorem ZtX_cross_correlation (Z X : list (list (list R)))
    (K n P L Tv : nat) :
  (1 <= K)%nat -> (1 <= n)%nat -> (1 <= P)%nat -> (1 <= L)%nat ->
  (1 <= Tv)%nat ->
  has_shape3 Z K n Tv = true ->
  has_shape3 X n P (Tv + L - 1) = true ->
  exists c,
    _get_d_update_constants X Z = Ok c /\
    ZtX c = _dense_transpose_convolve Z X /\
    forall k p t, (k < K)%nat -> (p < P)%nat -> (t < L)%nat ->
      get3 (ZtX c) k p t =
      bigsum n (fun i =>
        bigsum Tv (fun s => get3 Z k i s * get3 X i p (s + t))).
Proof.
  intros HK Hn HP HL HTv HZ HX.
  apply has_shape3_shaped in HZ, HX.
  destruct (shaped3_hd HZ HK Hn) as [HZn HZt].
  destruct (shaped3_hd HX Hn HP) as [HXp HXt].
  destruct (@_get_d_update_constants_defined RNum X Z) as [c Hc].
  { Rsimp. rewrite HZt, HXt. lia. }
  destruct (_get_d_update_constants_Ok _ _ Hc) as (_ & _ & Hztx & _).
  exists c. split; [exact Hc|]. rewrite Hztx. clear Hztx Hc.
  rewrite (shaped3_tab3 HX), (shaped3_tab3 HZ).
  generalize (get3 X) (get3 Z). intros xf zf. Rsimp.
  rewrite (@ZtX_tab K n P L Tv HK Hn HP HL HTv).
  rewrite (@_dense_transpose_convolve_tab K n P L Tv HK Hn HP HL HTv).
  split; [reflexivity|]. intros k p t Hk Hp Ht.
  rewrite !get3_tab3 by assumption. unfold corr_entry.
  apply bigsum_ext. intros i Hi. apply bigsum_ext. intros s Hs.
  rewrite (@tab1_nth R Tv) by exact Hs.
  rewrite !get3_tab3 by (try assumption; lia).
  rewrite (Nat.add_comm s t). apply Rmult_comm.
Qed.

(** The statistic [ZtZ] is the correlation of the code with itself:
    [ZtZ[k, k', t0 + t]] is the sum over the trials [i] and the time steps
    [s] of [Z[k, i, s] * Z[k', i, s + t]] (reading zero past the end of a
    row); at lag zero an atom's entry is the energy of its code, which is
    not negative. *)
Theorem ZtZ_autocorrelation (Z X : list (list (list R)))
    (K n P L Tv k k' t : nat) :
  (1 <= K)%nat -> (1 <= n)%nat -> (1 <= P)%nat -> (1 <= L)%nat ->
  (1 <= Tv)%nat ->
  has_shape3 Z K n Tv = true ->
  has_shape3 X n P (Tv + L - 1) = true ->
  (k < K)%nat -> (k' < K)%nat -> (t < L)%nat ->
  exists c,
    _get_d_update_constants X Z = Ok c /\
    get3 (ZtZ c) k k' (L - 1 + t) =
      bigsum n (fun i =>
        bigsum Tv (fun s => get3 Z k i s * get3 Z k' i (s + t))) /\
    0 <= get3 (ZtZ c) k k (L - 1).
Proof.
  intros HK Hn HP HL HTv HZ HX Hk Hk' Ht.
  apply has_shape3_shaped in HZ, HX.
  destruct (shaped3_hd HZ HK Hn) as [HZn HZt].
  destruct (shaped3_hd HX Hn HP) as [HXp HXt].
  assert (HLx : n_times_atom X Z = L).
  { unfold n_times_atom. Rsimp. rewrite HZt, HXt. lia. }
  destruct (@_get_d_update_constants_defined RNum X Z) as [c Hc].
  { Rsimp. rewrite HZt, HXt. lia. }
  assert (Hpad : forall a i s u, padded L (nth i (nth a Z []) []) (s + (L - 1 + u))
                                 = get3 Z a i (s + u)).
  { intros a i s u. unfold padded, get3.
    destruct (Nat.ltb_spec (s + (L - 1 + u)) (L - 1)); [lia|].
    replace (s + (L - 1 + u) - (L - 1))%nat with (s + u)%nat by lia.
    reflexivity. }
  exists c. split; [exact Hc|]. split.
  - rewrite (@ZtZ_entry X Z c K n Tv L k k' (L - 1 + t)); try assumption; [|lia].
    apply bigsum_ext. intros i Hi. apply bigsum_ext. intros s Hs.
    now rewrite Hpad.
  - rewrite <- (Nat.add_0_r (L - 1)).
    rewrite (@ZtZ_entry X Z c K n Tv L k k (L - 1 + 0)); try assumption; [|lia].
    apply bigsum_nonneg. intros i Hi. apply bigsum_nonneg. intros s Hs.
    rewrite Hpad, Nat.add_0_r. unfold get3.
    apply Rle_0_sqr.
Qed.

Lemma zipM_self {A B : Type} (f : A -> A -> result B) (g : A -> B)
    (a : list A) :
  (forall x, f x x = Ok (g x)) -> zipM f a a = Ok (map g a).
Proof.
  intros H. induction a as [|x a IH]; simpl; auto.
  now rewrite H, IH.
Qed.

Lemma bcast_self {A B : Type} (f : A -> A -> result B) (g : A -> B)
    (a : list A) :
  (forall x, f x x = Ok (g x)) -> bcast f a a = Ok (map g a).
Proof.
  intros H. unfold bcast. rewrite Nat.eqb_refl. now apply zipM_self.
Qed.

Lemma fold_right_Rplus_nonneg (l : list R) :
  Forall (fun x => 0 <= x) l -> 0 <= fold_right Rplus 0 l.
Proof.
  induction 1 as [|x l Hx Hl IH]; simpl; lra.
Qed.

Lemma Forall_concat {A : Type} (Q : A -> Prop) (l : list (list A)) :
  Forall (Forall Q) l -> Forall Q (concat l).
Proof.
  induction 1 as [|x l Hx Hl IH]; simpl; auto using Forall_app.
  apply Forall_app. auto.
Qed.

Lemma np_sum3_squares_nonneg (res : list (list (list R))) :
  0 <= np_sum3 (map (map (map (fun r : R => nmul r r))) res).
Proof.
  unfold np_sum3. rewrite np_sum_R. apply fold_right_Rplus_nonneg.
  apply Forall_concat, Forall_concat.
  apply Forall_forall. intros m Hm. apply in_map_iff in Hm.
  destruct Hm as (m' & <- & _).
  apply Forall_forall. intros v Hv. apply in_map_iff in Hv.
  destruct Hv as (v' & <- & _).
  apply Forall_forall. intros x Hx. apply in_map_iff in Hx.
  destruct Hx as (x' & <- & _). simpl. apply Rle_0_sqr.
Qed.

Lemma fold_right_Rplus_zero (l : list R) :
  Forall (fun x => x = 0) l -> fold_right Rplus 0 l = 0.
Proof.
  induction 1 as [|x l Hx Hl IH]; simpl; lra.
Qed.

Lemma np_sum3_zeros (a : list (list (list R))) :
  np_sum3 (map (map (map (fun r : R => nmul r r)))
             (map (map (map (fun x : R => nsub x x))) a)) = 0.
Proof.
  unfold np_sum3. rewrite np_sum_R. apply fold_right_Rplus_zero.
  apply Forall_concat, Forall_concat.
  apply Forall_forall. intros m Hm. apply in_map_iff in Hm.
  destruct Hm as (m' & <- & Hm'). apply in_map_iff in Hm'.
  destruct Hm' as (m'' & <- & _).
  apply Forall_forall. intros v Hv. apply in_map_iff in Hv.
  destruct Hv as (v' & <- & Hv'). apply in_map_iff in Hv'.
  destruct Hv' as (v'' & <- & _).
  apply Forall_forall. intros x Hx. apply in_map_iff in Hx.
  destruct Hx as (x' & <- & Hx'). apply in_map_iff in Hx'.
  destruct Hx' as (x'' & <- & _). simpl. ring.
Qed.

(** In exact arithmetic the objective that [update_uv] defines is never
    negative, and it is zero when the data is exactly the reconstruction
    from the atoms. *)
Theorem objective_nonneg (X Z : list (list (list R))) (P : nat)
    (uv : list (list R)) :
  (forall v, objective X Z P uv = Ok v -> 0 <= v) /\
  objective (construct_X_multi Z (_get_D uv P)) Z P uv = Ok 0.
Proof.
  assert (Hhalf : @half RNum = 1 / 2) by (unfold half; simpl; lra).
  split.
  - intros v. unfold objective.
    match goal with
    | |- context [bind ?r _] => destruct r as [res|e]
    end; cbn [bind]; [|discriminate].
    intros H. inversion H; subst.
    pose proof (np_sum3_squares_nonneg res). Rsimp. lra.
  - unfold objective, bcast3.
    rewrite bcast_self with (g := map (map (fun x : num => nsub x x))).
    + cbn [bind]. f_equal.
      pose proof (np_sum3_zeros (construct_X_multi Z (_get_D uv P))) as H0.
      Rsimp. rewrite H0, Hhalf. lra.
    + intros m. apply bcast_self. intros v. apply bcast_self. reflexivity.
Qed.

End ExactStatisticsMore.

Section ExactStatisticsMoreRuns.

#[local] Existing Instance RNum.
Local Open Scope R_scope.

Lemma objective_nonneg_witness :
  exists v, objective X_runR Z_runR 2 uv_runR = Ok v /\ 0 <= v.
Proof.
  eexists. split.
  - Rcompute. reflexivity.
  - apply (proj1 (objective_nonneg X_runR Z_runR 2 uv_runR)).
    Rcompute. reflexivity.
Defined.

Lemma ZtX_cross_correlation_witness :
  exists c,
    _get_d_update_constants X_runR Z_runR = Ok c /\
    ZtX c = _dense_transpose_convolve Z_runR X_runR /\
    forall k p t, (k < 2)%nat -> (p < 2)%nat -> (t < 2)%nat ->
      get3 (ZtX c) k p t =
      bigsum 1 (fun i =>
        bigsum 3 (fun s => get3 Z_runR k i s * get3 X_runR i p (s + t))).
Proof.
  apply (@ZtX_cross_correlation Z_runR X_runR 2 1 2 2 3);
    try lia; reflexivity.
Defined.

Lemma ZtZ_autocorrelation_witness :
  exists c,
    _get_d_update_constants X_runR Z_runR = Ok c /\
    get3 (ZtZ c) 0 1 (2 - 1 + 1) =
      bigsum 1 (fun i =>
        bigsum 3 (fun s => get3 Z_runR 0 i s * get3 Z_runR 1 i (s + 1))) /\
    0 <= get3 (ZtZ c) 0 0 (2 - 1).
Proof.
  apply (@ZtZ_autocorrelation Z_runR X_runR 2 1 2 2 3 0 1 1);
    try lia; reflexivity.
Defined.

End ExactStatisticsMoreRuns.

(** * Shapes, the chain rule and the fixed points *)

(** ** Shapes *)

Section ShapeFacts.

Context {N : Num}.

Lemma rows_of_map {A B : Type} (f : A -> B) (n : nat) (Q : A -> Prop)
    (Q' : B -> Prop) (l : list A) :
  rows_of n Q l -> (forall x, Q x -> Q' (f x)) -> rows_of n Q' (map f l).
Proof.
  intros [Hl HQ] Hf. split; [now rewrite length_map|].
  apply Forall_map. eapply Forall_impl; [|exact HQ]. exact Hf.
Qed.

Lemma rows_of_map2 {A B C : Type} (f : A -> B -> C) (n : nat)
    (Qa : A -> Prop) (Qb : B -> Prop) (Qc : C -> Prop) (a : list A) :
  forall (b : list B),
    rows_of n Qa a -> rows_of n Qb b ->
    (forall x y, Qa x -> Qb y -> Qc (f x y)) ->
    rows_of n Qc (map2 f a b).
Proof.
  revert n. induction a as [|x a IH]; intros n [|y b] [Ha HQa] [Hb HQb] Hf;
    simpl in *; subst; try discriminate.
  - split; [reflexivity|constructor].
  - inversion HQa; inversion HQb; subst.
    destruct (IH (length a) b) as [Hl HQ]; try (split; auto; lia); auto.
    split; [simpl; lia|]. constructor; auto.
Qed.

Lemma rows_of_nth {A : Type} (n : nat) (Q : A -> Prop) (l : list A) (d : A)
    (i : nat) :
  rows_of n Q l -> i < n -> Q (nth i l d).
Proof.
  intros [Hl HQ] Hi. rewrite Forall_forall in HQ. apply HQ, nth_In. lia.
Qed.

Lemma rows_of_fold_left {A : Type} (add : A -> A -> A) (Q : A -> Prop)
    (l : list A) :
  (forall x y, Q x -> Q y -> Q (add x y)) ->
  Forall Q l -> forall x, Q x -> Q (fold_left add l x).
Proof.
  intros Hadd. induction 1 as [|y l Hy Hl IH]; intros x Hx; simpl; auto.
Qed.

Lemma rows_of_sum_list {A : Type} (add : A -> A -> A) (dflt : A) (n : nat)
    (Q : A -> Prop) (l : list A) :
  1 <= n -> rows_of n Q l ->
  (forall x y, Q x -> Q y -> Q (add x y)) ->
  Q (sum_list add dflt l).
Proof.
  intros Hn [Hl HQ] Hadd. destruct l as [|x l]; simpl in *; [lia|].
  inversion HQ; subst. now apply rows_of_fold_left.
Qed.

Lemma has_len_vadd (d : nat) (a b : vec) :
  has_len d a -> has_len d b -> has_len d (vadd a b).
Proof.
  unfold has_len, vadd. intros Ha Hb. rewrite map2_length. lia.
Qed.

Lemma rows_of_madd (d1 d2 : nat) (a b : mat) :
  rows_of d1 (has_len d2) a -> rows_of d1 (has_len d2) b ->
  rows_of d1 (has_len d2) (madd a b).
Proof.
  intros Ha Hb. unfold madd.
  eapply rows_of_map2; [exact Ha|exact Hb|]. intros x y. apply has_len_vadd.
Qed.

Lemma mapM_rows {A B : Type} (f : A -> result B) (n : nat) (Qa : A -> Prop)
    (Qb : B -> Prop) (a : list A) :
  rows_of n Qa a ->
  (forall x, Qa x -> exists z, f x = Ok z /\ Qb z) ->
  exists c, mapM f a = Ok c /\ rows_of n Qb c.
Proof.
  intros [Hl HQ] Hf. subst n. induction HQ as [|x a Hx Ha IH]; simpl.
  - exists []. split; [reflexivity|]. split; [reflexivity|constructor].
  - destruct (Hf x Hx) as (z & -> & Hz). destruct IH as (c & -> & Hc1 & Hc2).
    exists (z :: c). split; [reflexivity|].
    split; [simpl; lia|]. now constructor.
Qed.

Lemma zipM_rows {A B C : Type} (f : A -> B -> result C) (n : nat)
    (Qa : A -> Prop) (Qb : B -> Prop) (Qc : C -> Prop) (a : list A) :
  forall (b : list B),
    rows_of n Qa a -> rows_of n Qb b ->
    (forall x y, Qa x -> Qb y -> exists z, f x y = Ok z /\ Qc z) ->
    exists c, zipM f a b = Ok c /\ rows_of n Qc c.
Proof.
  revert n. induction a as [|x a IH]; intros n [|y b] [Ha HQa] [Hb HQb] Hf;
    simpl in *; subst; try discriminate.
  - exists []. split; [reflexivity|]. split; [reflexivity|constructor].
  - inversion HQa; inversion HQb; subst.
    destruct (Hf x y) as (z & -> & Hz); auto.
    destruct (IH (length a) b) as (c & -> & Hc1 & Hc2);
      try (split; auto; lia); auto.
    exists (z :: c). split; [reflexivity|].
    split; [simpl; lia|]. now constructor.
Qed.

(** Broadcasting along one axis succeeds when the second operand has the
    length of the first or length one, and gives the length of the
    first. *)
Lemma bcast_rows {A B C : Type} (f : A -> B -> result C) (n : nat)
    (Qa : A -> Prop) (Qb : B -> Prop) (Qc : C -> Prop) (a : list A)
    (b : list B) :
  rows_of n Qa a -> rows_of n Qb b \/ rows_of 1 Qb b ->
  (forall x y, Qa x -> Qb y -> exists z, f x y = Ok z /\ Qc z) ->
  exists c, bcast f a b = Ok c /\ rows_of n Qc c.
Proof.
  intros Ha Hb Hf. unfold bcast.
  destruct (Nat.eqb_spec (length a) (length b)) as [Heq|Hne].
  - eapply zipM_rows; [exact Ha| |exact Hf].
    destruct Hb as [Hb|[Hb1 Hb2]]; auto.
    split; auto. destruct Ha. lia.
  - destruct Hb as [[Hb _]|[Hb1 Hb2]]; [destruct Ha; lia|].
    destruct b as [|y [|y' b]]; simpl in Hb1; try discriminate.
    inversion Hb2; subst.
    destruct a as [|x [|x' a]]; [| simpl in Hne; lia |];
      (eapply mapM_rows; [exact Ha|]; intros x0 Hx0; apply Hf; auto).
Qed.

(** An in-place operation succeeds in the same cases. *)
Lemma bcast_into_rows {A B : Type} (f : A -> B -> result A) (n : nat)
    (Qa : A -> Prop) (Qb : B -> Prop) (a : list A) (b : list B) :
  rows_of n Qa a -> rows_of n Qb b ->
  (forall x y, Qa x -> Qb y -> exists z, f x y = Ok z /\ Qa z) ->
  exists c, bcast_into f a b = Ok c /\ rows_of n Qa c.
Proof.
  intros Ha Hb Hf. unfold bcast_into.
  destruct (Nat.eqb_spec (length a) (length b)) as [Heq|Hne].
  - eapply zipM_rows; [exact Ha|exact Hb|exact Hf].
  - destruct Ha, Hb. lia.
Qed.

Lemma has_len_rows (n : nat) (v : vec) :
  has_len n v <-> rows_of n (fun _ => True) v.
Proof.
  unfold has_len, rows_of. split; [|tauto].
  intros H. split; [exact H|]. apply Forall_forall. auto.
Qed.

Lemma bcast_scalars (f : num -> num -> num) (n : nat) (a b : vec) :
  has_len n a -> has_len n b \/ has_len 1 b ->
  exists c, bcast (fun x y => Ok (f x y)) a b = Ok c /\ has_len n c.
Proof.
  intros Ha Hb. rewrite has_len_rows in Ha. rewrite !has_len_rows in Hb.
  destruct (@bcast_rows _ _ _ (fun x y => Ok (f x y)) n _ _ (fun _ => True)
              a b Ha Hb) as (c & Hc & Hs).
  - intros x y _ _. eauto.
  - exists c. split; [exact Hc|]. now apply has_len_rows.
Qed.

(** Broadcasting a three-dimensional array against one that has, along each
    axis, the same length or length one. *)
Lemma bcast3_rows (f : num -> num -> num) (d1 d2 d3 : nat) (a b : ten) :
  rows_of d1 (rows_of d2 (has_len d3)) a ->
  rows_of d1 (fun m => rows_of d2 (fun v => has_len d3 v \/ has_len 1 v) m \/
                       rows_of 1 (fun v => has_len d3 v \/ has_len 1 v) m) b ->
  exists c, bcast3 f a b = Ok c /\ rows_of d1 (rows_of d2 (has_len d3)) c.
Proof.
  intros Ha Hb. unfold bcast3.
  eapply bcast_rows; [exact Ha|left; exact Hb|].
  intros m m' Hm Hm'.
  eapply bcast_rows; [exact Hm|exact Hm'|].
  intros v v' Hv Hv'. now apply bcast_scalars.
Qed.

Lemma has_shape2_rows (a : mat) (d1 d2 : nat) :
  has_shape2 a d1 d2 = true <-> rows_of d1 (has_len d2) a.
Proof.
  unfold has_shape2, rows_of, has_len.
  rewrite andb_true_iff, Nat.eqb_eq, forallb_forall, Forall_forall.
  split; intros [H1 H2]; (split; [exact H1|]); intros v Hv;
    apply Nat.eqb_eq; auto.
Qed.

Lemma has_shape3_rows (a : ten) (d1 d2 d3 : nat) :
  has_shape3 a d1 d2 d3 = true <-> rows_of d1 (rows_of d2 (has_len d3)) a.
Proof.
  unfold has_shape3. unfold rows_of at 1.
  rewrite andb_true_iff, Nat.eqb_eq, forallb_forall, Forall_forall.
  split; intros [H1 H2]; (split; [exact H1|]); intros m Hm.
  - apply has_shape2_rows. unfold has_shape2. now apply H2.
  - apply H2, has_shape2_rows in Hm. exact Hm.
Qed.

Lemma shaped3_rows (a : ten) (d1 d2 d3 : nat) :
  shaped3 a d1 d2 d3 -> rows_of d1 (rows_of d2 (has_len d3)) a.
Proof.
  intros [H1 H2]. split; [exact H1|]. apply Forall_forall. intros m Hm.
  destruct (In_nth _ _ [] Hm) as (i & Hi & <-).
  destruct (H2 i) as [H3 H4]; [lia|]. split; [exact H3|].
  apply Forall_forall. intros v Hv.
  destruct (In_nth _ _ [] Hv) as (j & Hj & <-). apply H4. lia.
Qed.

Lemma rows_shaped3 (a : ten) (d1 d2 d3 : nat) :
  rows_of d1 (rows_of d2 (has_len d3)) a -> shaped3 a d1 d2 d3.
Proof.
  intros [H1 H2]. split; [exact H1|]. intros i Hi.
  rewrite Forall_forall in H2.
  destruct (H2 (nth i a [])) as [H3 H4]; [apply nth_In; lia|].
  split; [exact H3|]. intros j Hj. rewrite Forall_forall in H4.
  apply H4, nth_In. lia.
Qed.

Lemma slide_length (vol ker : vec) :
  length (slide vol ker) = length vol - length ker + 1.
Proof. unfold slide. now rewrite length_map, length_seq. Qed.

Lemma convolve_valid_length (in1 in2 : vec) :
  length (convolve_valid in1 in2)
  = Nat.max (length in1) (length in2) - Nat.min (length in1) (length in2) + 1.
Proof.
  unfold convolve_valid.
  destruct (Nat.ltb_spec (length in1) (length in2));
    rewrite slide_length; lia.
Qed.

Lemma _get_D_rows (uv : mat) (K P L : nat) :
  rows_of K (has_len (P + L)) uv ->
  rows_of K (rows_of P (has_len L)) (_get_D uv P).
Proof.
  intros Huv. unfold _get_D. eapply rows_of_map; [exact Huv|].
  intros row Hrow. unfold has_len in Hrow.
  apply rows_of_map with (Q := fun _ => True).
  - split; [rewrite length_firstn; lia|]. apply Forall_forall. auto.
  - intros u _. unfold has_len. rewrite length_map, length_skipn. lia.
Qed.

(** The cached gradient with respect to [D] has the shape of [D]. *)
Lemma _gradient_d_cached_rows (D : ten) (c : constants) (K P L : nat) :
  1 <= K -> 1 <= L ->
  rows_of K (rows_of K (has_len (2 * L - 1))) (ZtZ c) ->
  rows_of K (rows_of P (has_len L)) (ZtX c) ->
  rows_of K (rows_of P (has_len L)) D ->
  exists g, _gradient_d D None None (Some c) = Ok g /\
            rows_of K (rows_of P (has_len L)) g.
Proof.
  intros HK HL Hzz Hzx HD. unfold _gradient_d.
  apply bcast3_rows.
  - eapply rows_of_map; [exact Hzz|]. intros zzk Hzzk.
    apply (@rows_of_sum_list _ madd [] K); [exact HK| |apply rows_of_madd].
    eapply rows_of_map2; [exact Hzzk|exact HD|]. intros zzkk dk Hzzkk Hdk.
    eapply rows_of_map; [exact Hdk|]. intros dkp Hdkp.
    unfold has_len in *. rewrite convolve_valid_length. lia.
  - destruct Hzx as [Hl HQ]. split; [exact Hl|].
    eapply Forall_impl; [|exact HQ]. intros m [Hm1 Hm2]. left.
    split; [exact Hm1|]. eapply Forall_impl; [|exact Hm2]. auto.
Qed.

Lemma np_c__rows (a b : mat) (K P L : nat) :
  rows_of K (has_len P) a -> rows_of K (has_len L) b ->
  exists g, np_c_ a b = Ok g /\ rows_of K (has_len (P + L)) g.
Proof.
  intros Ha Hb. unfold np_c_.
  replace (length a) with (length b) by (destruct Ha, Hb; lia).
  rewrite Nat.eqb_refl. eexists. split; [reflexivity|].
  eapply rows_of_map2; [exact Ha|exact Hb|]. intros x y Hx Hy. unfold has_len in *.
  rewrite length_app. lia.
Qed.

(** With statistics of the right shapes, [_gradient_uv] returns, and its
    result has the shape of [uv]. *)
Lemma _gradient_uv_rows (uv : mat) (c : constants) (K P L : nat) :
  1 <= K -> 1 <= P -> 1 <= L ->
  rows_of K (rows_of K (has_len (2 * L - 1))) (ZtZ c) ->
  rows_of K (rows_of P (has_len L)) (ZtX c) ->
  n_chan c = P ->
  rows_of K (has_len (P + L)) uv ->
  exists g, _gradient_uv uv None None (Some c) = Ok g /\
            rows_of K (has_len (P + L)) g.
Proof.
  intros HK HP HL Hzz Hzx Hn Huv. unfold _gradient_uv. cbn [bind].
  rewrite Hn.
  destruct (@_gradient_d_cached_rows (_get_D uv P) c K P L HK HL Hzz Hzx
              (@_get_D_rows uv K P L Huv))
    as (gd & -> & Hgd).
  cbn [bind].
  destruct (@bcast3_rows nmul K P L gd
              (map (fun row => [skipn P row]) uv) Hgd) as (gu & -> & Hgu).
  { eapply rows_of_map; [exact Huv|]. intros row Hrow. right.
    split; [reflexivity|]. constructor; [|constructor]. left.
    unfold has_len in *. rewrite length_skipn. lia. }
  cbn [bind].
  destruct (@bcast3_rows nmul K P L gd
              (map (fun row => map (fun u => [u]) (firstn P row)) uv) Hgd)
    as (gv & -> & Hgv).
  { eapply rows_of_map; [exact Huv|]. intros row Hrow. left.
    apply rows_of_map with (Q := fun _ => True).
    - split; [|apply Forall_forall; auto].
      unfold has_len in *. rewrite length_firstn. lia.
    - intros u _. now right. }
  cbn [bind].
  apply np_c__rows.
  - eapply rows_of_map; [exact Hgu|]. intros m [Hm _]. unfold has_len.
    now rewrite length_map.
  - eapply rows_of_map; [exact Hgv|]. intros m Hm.
    apply (@rows_of_sum_list _ vadd [] P); [exact HP|exact Hm|].
    intros x y. apply has_len_vadd.
Qed.

Lemma isub2_rows (a b : mat) (d1 d2 : nat) :
  rows_of d1 (has_len d2) a -> rows_of d1 (has_len d2) b ->
  exists m, isub2 a b = Ok m /\ rows_of d1 (has_len d2) m.
Proof.
  intros Ha Hb. unfold isub2.
  eapply bcast_into_rows; [exact Ha|exact Hb|]. intros v v' Hv Hv'.
  rewrite has_len_rows in Hv, Hv'.
  destruct (@bcast_into_rows _ _ (fun x y : num => Ok (nsub x y)) d2 _ _
              v v' Hv Hv') as (r & Hr & Hs).
  - intros x y _ _. eauto.
  - exists r. split; [exact Hr|]. now apply has_len_rows.
Qed.

Lemma scale_rows (s : num) (m : mat) (d1 d2 : nat) :
  rows_of d1 (has_len d2) m -> rows_of d1 (has_len d2) (scale s m).
Proof.
  intros Hm. unfold scale. eapply rows_of_map; [exact Hm|].
  intros v Hv. unfold has_len in *. now rewrite length_map.
Qed.

Lemma prox_uv_rows_of (m : mat) (d1 d2 : nat) :
  rows_of d1 (has_len d2) m -> rows_of d1 (has_len d2) (prox_uv m).
Proof.
  intros Hm. rewrite prox_uv_rows. eapply rows_of_map; [exact Hm|].
  intros v Hv. unfold has_len, prox_row in *. now rewrite length_map.
Qed.

(** With statistics and an iterate of the right shapes the loop never
    raises; its result has the shape of the iterate, and [ii] is bound when
    it was bound before the loop or the loop did one iteration. *)
Lemma update_uv_loop_succeeds (cst : constants) (step_size eps : num)
    (K P L : nat) :
  1 <= K -> 1 <= P -> 1 <= L ->
  rows_of K (rows_of K (has_len (2 * L - 1))) (ZtZ cst) ->
  rows_of K (rows_of P (has_len L)) (ZtX cst) ->
  n_chan cst = P ->
  forall (todo i : nat) (last : option nat) (u : loc) (w : world),
    u < length (heap w) ->
    rows_of K (has_len (P + L)) (deref w u) ->
    exists s w',
      update_uv_loop cst step_size eps todo i last u w = (Ok s, w') /\
      rows_of K (has_len (P + L)) (deref w' (uv_hat s)) /\
      (ii s = None -> last = None /\ todo = 0).
Proof.
  intros HK HP HL Hzz Hzx Hn. induction todo as [|todo IH];
    intros i last u w Hu Huv.
  - simpl. eexists _, _. split; [reflexivity|]. simpl. auto.
  - rewrite update_uv_loop_S.
    destruct (@_gradient_uv_rows (deref w u) cst K P L HK HP HL Hzz Hzx Hn Huv)
      as (g & -> & Hg).
    destruct (@isub2_rows (deref w u) (scale step_size g) K (P + L) Huv
                (@scale_rows step_size g K (P + L) Hg)) as (m & -> & Hm).
    assert (Hnew : rows_of K (has_len (P + L))
                     (deref (after_step w u m) (length (heap w)))).
    { rewrite after_step_new by exact Hu. now apply prox_uv_rows_of. }
    destruct (nleb (abs_sum g) eps).
    + eexists _, _. split; [reflexivity|]. simpl. split; [exact Hnew|].
      discriminate.
    + destruct (IH (S i) (Some i) (length (heap w)) (after_step w u m))
        as (s & w' & -> & Hs & Hii); [rewrite after_step_length; lia|exact Hnew|].
      exists s, w'. split; [reflexivity|]. split; [exact Hs|].
      intros H. apply Hii in H. destruct H. discriminate.
Qed.

Lemma rows_of_hd {A : Type} (n : nat) (Q : A -> Prop) (l : list A) (d : A) :
  rows_of n Q l -> 1 <= n -> Q (hd d l).
Proof.
  intros [Hl HQ] Hn. destruct l as [|x l]; simpl in *; [lia|].
  now inversion HQ.
Qed.

(** The statistic [ZtX] has the shape of the atoms. *)
Lemma ZtX_rows (X Z : ten) (c : constants) (K n P L Tv : nat) :
  1 <= n -> 1 <= L -> 1 <= Tv ->
  rows_of K (rows_of n (has_len Tv)) Z ->
  rows_of n (rows_of P (has_len (Tv + L - 1))) X ->
  _get_d_update_constants X Z = Ok c ->
  rows_of K (rows_of P (has_len L)) (ZtX c).
Proof.
  intros Hn HL HTv HZ HX Hc.
  destruct (_get_d_update_constants_Ok _ _ Hc) as (_ & _ & -> & _).
  eapply rows_of_map; [exact HZ|]. intros zk Hzk.
  apply (@rows_of_sum_list _ madd [] n); [exact Hn| |apply rows_of_madd].
  eapply rows_of_map2; [exact Hzk|exact HX|]. intros zik xi Hzik Hxi.
  eapply rows_of_map; [exact Hxi|]. intros xip Hxip.
  unfold has_len in *. rewrite convolve_valid_length, length_rev. lia.
Qed.

(** The shapes of the statistics of rectangular data and code. *)
Lemma _get_d_update_constants_rows (X Z : ten) (K n P L Tv : nat) :
  1 <= K -> 1 <= n -> 1 <= P -> 1 <= L -> 1 <= Tv ->
  rows_of K (rows_of n (has_len Tv)) Z ->
  rows_of n (rows_of P (has_len (Tv + L - 1))) X ->
  exists c,
    _get_d_update_constants X Z = Ok c /\
    rows_of K (rows_of K (has_len (2 * L - 1))) (ZtZ c) /\
    rows_of K (rows_of P (has_len L)) (ZtX c) /\
    n_chan c = P.
Proof.
  intros HK Hn HP HL HTv HZ HX.
  assert (HZt : length (hd [] (hd [] Z)) = Tv).
  { apply (@rows_of_hd _ n (has_len Tv) (hd [] Z) []); [|exact Hn].
    apply (@rows_of_hd _ K (rows_of n (has_len Tv)) Z []); assumption. }
  assert (HXt : length (hd [] (hd [] X)) = Tv + L - 1).
  { apply (@rows_of_hd _ P (has_len (Tv + L - 1)) (hd [] X) []); [|exact HP].
    apply (@rows_of_hd _ n (rows_of P (has_len (Tv + L - 1))) X []);
      assumption. }
  assert (HXp : length (hd [] X) = P).
  { apply (@rows_of_hd _ n (rows_of P (has_len (Tv + L - 1))) X []);
      assumption. }
  assert (HL' : n_times_atom X Z = L).
  { unfold n_times_atom. rewrite HZt, HXt. lia. }
  destruct (@_get_d_update_constants_defined N X Z) as [c Hc]; [lia|].
  exists c. split; [exact Hc|].
  pose proof (ZtZ_shaped _ _ Hc) as Hs. rewrite HL' in Hs.
  replace (length Z) with K in Hs by (destruct HZ; lia).
  split; [now apply shaped3_rows|].
  split; [now apply (@ZtX_rows X Z c K n P L Tv)|].
  destruct (_get_d_update_constants_Ok _ _ Hc) as (_ & _ & _ & ->).
  exact HXp.
Qed.

(** With statistics of the shapes that [_get_d_update_constants] gives them
    and [uv] of shape [(n_atoms, n_chan + n_times_atom)], [_gradient_uv]
    raises nothing, and the gradient has the shape of [uv]. *)
Theorem _gradient_uv_shape (uv : mat) (c : constants) (K P L : nat) :
  1 <= K -> 1 <= P -> 1 <= L ->
  has_shape3 (ZtZ c) K K (2 * L - 1) = true ->
  has_shape3 (ZtX c) K P L = true ->
  n_chan c = P ->
  has_shape2 uv K (P + L) = true ->
  exists g, _gradient_uv uv None None (Some c) = Ok g /\
            has_shape2 g K (P + L) = true.
Proof.
  intros HK HP HL Hzz Hzx Hn Huv.
  apply has_shape3_rows in Hzz, Hzx. apply has_shape2_rows in Huv.
  destruct (@_gradient_uv_rows uv c K P L HK HP HL Hzz Hzx Hn Huv)
    as (g & Hg & Hs).
  exists g. split; [exact Hg|]. now apply has_shape2_rows.
Qed.

(** On rectangular data and code the statistics are defined and the loop
    never raises. *)
Lemma update_uv_defined (X Z : ten) (uv_hat0 : loc) (max_iter : nat)
    (step_size : num) (eps : option num) (verbose : int) (w : world)
    (K n P L Tv : nat) :
  1 <= K -> 1 <= n -> 1 <= P -> 1 <= L -> 1 <= Tv ->
  rows_of K (rows_of n (has_len Tv)) Z ->
  rows_of n (rows_of P (has_len (Tv + L - 1))) X ->
  rows_of K (has_len (P + L)) (deref w uv_hat0) ->
  1 <= max_iter \/ (verbose <= 1)%Z ->
  exists l w',
    update_uv X Z uv_hat0 max_iter step_size eps verbose w = (Ok l, w') /\
    rows_of K (has_len (P + L)) (deref w' l).
Proof.
  intros HK Hn HP HL HTv HZ HX Huv Hbudget.
  destruct (@_get_d_update_constants_rows X Z K n P L Tv HK Hn HP HL HTv HZ HX)
    as (c & Hc & Hzz & Hzx & Hnc).
  rewrite update_uv_unfold.
  rewrite (@update_uv_locals_unfold N X Z uv_hat0 max_iter step_size eps
             verbose w c Hc).
  destruct (@update_uv_loop_succeeds c step_size (tolerance eps) K P L
              HK HP HL Hzz Hzx Hnc max_iter 0 None (length (heap w))
              (snd (alloc w (deref w uv_hat0))))
    as (s & w1 & -> & Hs & Hii).
  - rewrite alloc_heap, length_app. simpl. lia.
  - rewrite <- (alloc_fst w (deref w uv_hat0)), deref_alloc_new. exact Huv.
  - cbv zeta. destruct (Z.ltb_spec 1 verbose) as [Hv|Hv].
    + destruct (ii s) as [j|] eqn:Ej.
      * eexists _, _. split; [reflexivity|].
        destruct (broke s); exact Hs.
      * destruct (Hii eq_refl) as [_ H0]. lia.
    + eexists _, _. split; [reflexivity|].
      destruct (broke s); exact Hs.
Qed.

(** On rectangular data and code, with [uv_hat0] of shape
    [(n_atoms, n_chan + n_times_atom)], [update_uv] raises nothing unless
    the budget is empty and [verbose > 1]; what it returns has the shape of
    [uv_hat0]. *)
Theorem update_uv_returns (X Z : ten) (uv_hat0 : loc) (max_iter : nat)
    (step_size : num) (eps : option num) (verbose : int) (w : world)
    (K n P L Tv : nat) :
  1 <= K -> 1 <= n -> 1 <= P -> 1 <= L -> 1 <= Tv ->
  has_shape3 Z K n Tv = true ->
  has_shape3 X n P (Tv + L - 1) = true ->
  has_shape2 (deref w uv_hat0) K (P + L) = true ->
  1 <= max_iter \/ (verbose <= 1)%Z ->
  exists l w',
    update_uv X Z uv_hat0 max_iter step_size eps verbose w = (Ok l, w') /\
    has_shape2 (deref w' l) K (P + L) = true.
Proof.
  intros HK Hn HP HL HTv HZ HX Huv Hbudget.
  apply has_shape3_rows in HZ, HX. apply has_shape2_rows in Huv.
  destruct (@update_uv_defined X Z uv_hat0 max_iter step_size eps verbose w
              K n P L Tv HK Hn HP HL HTv HZ HX Huv Hbudget)
    as (l & w' & Hrun & Hs).
  exists l, w'. split; [exact Hrun|]. now apply has_shape2_rows.
Qed.

End ShapeFacts.

Section Binary64ShapeRuns.

Import PrimFloat.
#[local] Existing Instance FNum.
Local Open Scope float_scope.

Lemma _gradient_uv_shape_witness :
  exists g, _gradient_uv uv_run None None (Some cst_run) = Ok g /\
            has_shape2 g 2 (2 + 2) = true.
Proof.
  apply (@_gradient_uv_shape FNum uv_run cst_run 2 2 2);
    try lia; reflexivity.
Defined.

Lemma update_uv_returns_witness :
  exists l w',
    update_uv X_run Z_run 0%nat 3%nat step_run None 2%Z w_run = (Ok l, w') /\
    has_shape2 (deref w' l) 2 (2 + 2) = true.
Proof.
  apply (@update_uv_returns FNum X_run Z_run 0%nat 3%nat step_run None 2%Z
           w_run 2 1 2 2 3); try lia; reflexivity.
Defined.

End Binary64ShapeRuns.

(** ** Exact arithmetic: _gradient_uv by its entries *)

Section ExactGradientUv.

#[local] Existing Instance RNum.
Local Open Scope R_scope.

Lemma seq_add_map (a b : nat) : seq a b = map (Nat.add a) (seq 0 b).
Proof.
  induction a as [|a IH].
  - simpl. symmetry. apply map_id.
  - rewrite <- seq_shift, IH, map_map. reflexivity.
Qed.

Lemma firstn_tab1 {A : Type} (a b : nat) (f : nat -> A) :
  firstn a (tab1 (a + b) f) = tab1 a f.
Proof.
  unfold tab1. rewrite seq_app, map_app, firstn_app.
  rewrite length_map, length_seq, Nat.sub_diag, firstn_O, app_nil_r.
  apply firstn_all2. now rewrite length_map, length_seq.
Qed.

Lemma skipn_tab1 {A : Type} (a b : nat) (f : nat -> A) :
  skipn a (tab1 (a + b) f) = tab1 b (fun t => f (a + t)%nat).
Proof.
  unfold tab1. rewrite seq_app, map_app, skipn_app.
  rewrite length_map, length_seq, Nat.sub_diag, skipn_O.
  rewrite skipn_all2 by now rewrite length_map, length_seq.
  simpl. rewrite (seq_add_map a b), map_map. reflexivity.
Qed.

Lemma tab1_app {A : Type} (a b : nat) (f g : nat -> A) :
  tab1 a f ++ tab1 b g
  = tab1 (a + b) (fun j => if Nat.ltb j a then f j else g (j - a)%nat).
Proof.
  unfold tab1. rewrite seq_app, map_app. f_equal.
  - apply map_ext_in. intros j Hj. apply in_seq in Hj.
    destruct (Nat.ltb_spec j a); [reflexivity|lia].
  - simpl. rewrite (seq_add_map a b), map_map. apply map_ext. intros t.
    destruct (Nat.ltb_spec (a + t) a); [lia|]. f_equal. lia.
Qed.

Lemma _get_D_tab (K P L : nat) (uf : nat -> nat -> R) :
  _get_D (tab2 K (P + L) uf) P
  = tab3 K P L (fun k p t => uf k p * uf k (P + t)%nat).
Proof.
  unfold _get_D, tab3, tab2. rewrite map_tab1.
  apply tab1_ext. intros k Hk. rewrite firstn_tab1, skipn_tab1, map_tab1.
  apply tab1_ext. intros p Hp. now rewrite map_tab1.
Qed.

Lemma mapM_tab1 {A B : Type} (g : A -> result B) (n : nat) (f : nat -> A)
    (r : nat -> B) :
  (forall i, (i < n)%nat -> g (f i) = Ok (r i)) ->
  mapM g (tab1 n f) = Ok (tab1 n r).
Proof.
  revert f r. induction n as [|n IH]; intros f r H; [reflexivity|].
  rewrite !tab1_S. simpl. rewrite H by lia. simpl.
  rewrite (IH _ (fun i => r (S i))) by (intros i Hi; apply H; lia).
  reflexivity.
Qed.

(** Broadcasting against an axis of length one. *)
Lemma bcast_tab1_single {A B C : Type} (g : A -> B -> result C) (n : nat)
    (f : nat -> A) (y : B) (r : nat -> C) :
  (forall i, (i < n)%nat -> g (f i) y = Ok (r i)) ->
  bcast g (tab1 n f) [y] = Ok (tab1 n r).
Proof.
  intros H. destruct n as [|[|n]].
  - reflexivity.
  - unfold bcast, tab1. simpl. now rewrite H by lia.
  - unfold bcast. rewrite tab1_length. simpl Nat.eqb. cbv iota.
    rewrite (@mapM_tab1 _ _ (fun x => g x y) (S (S n)) f r H).
    rewrite !tab1_S. reflexivity.
Qed.

Lemma fold_left_vadd_tab1 (m : nat) (f : nat -> nat -> R) (l : list nat)
    (g : nat -> R) :
  fold_left vadd (map (fun i => tab1 m (f i)) l) (tab1 m g) =
  tab1 m (fun t => fold_left (fun u i => u + f i t) l (g t)).
Proof.
  revert g; induction l as [|i l IH]; intros g; simpl; auto.
  rewrite vadd_tab1. apply IH.
Qed.

Lemma sum_list_vadd_tab (k m : nat) (f : nat -> nat -> R) :
  (1 <= k)%nat ->
  sum_list vadd [] (tab1 k (fun i => tab1 m (f i))) =
  tab1 m (fun t => bigsum k (fun i => f i t)).
Proof.
  intros Hk. destruct k as [|k]; [Rlia|].
  rewrite tab1_S. unfold sum_list. unfold tab1 at 1.
  rewrite <- map_map with (f := S) (g := fun i => tab1 m (f i)).
  rewrite fold_left_vadd_tab1. apply tab1_ext. intros t _.
  rewrite bigsum_S_left, seq_shift.
  rewrite <- (map_id (seq 1 k)), <- seq_shift, map_map.
  generalize (f 0%nat t). intros v.
  rewrite <- fold_left_seq_bigsum.
  generalize (seq 0 k). intros l. revert v.
  induction l as [|i l IH]; intros v; simpl; auto.
Qed.

(** [_gradient_uv] on arrays given by their entries: once the gradient with
    respect to [D] is known, the rest is the chain rule. *)
Lemma _gradient_uv_tab (K P L : nat) (uf : nat -> nat -> R)
    (gf : nat -> nat -> nat -> R) (X Z : option (list (list (list R))))
    (cst : option constants) :
  (1 <= P)%nat ->
  match cst with
  | Some c => n_chan c = P
  | None => exists x z, X = Some x /\ Z = Some z /\ length (hd [] x) = P
  end ->
  _gradient_d (_get_D (tab2 K (P + L) uf) P) X Z cst = Ok (tab3 K P L gf) ->
  _gradient_uv (tab2 K (P + L) uf) X Z cst
  = Ok (tab2 K (P + L) (grad_uv_entry P L gf uf)).
Proof.
  intros HP Hn Hgd. unfold _gradient_uv.
  match goal with
  | |- bind ?r _ = _ => assert (Hnc : r = Ok P)
  end.
  { destruct cst as [c|]; [now rewrite Hn|].
    destruct Hn as (x & z & -> & -> & Hx). f_equal. exact Hx. }
  rewrite Hnc. cbn [bind]. rewrite Hgd. cbn [bind].
  match goal with
  | |- bind ?r _ = _ =>
      assert (Hgu : r = Ok (tab3 K P L
                              (fun k p t => gf k p t * uf k (P + t)%nat)))
  end.
  { unfold bcast3, tab3, tab2. rewrite map_tab1. apply bcast_tab1.
    intros k Hk. rewrite skipn_tab1. apply bcast_tab1_single.
    intros p Hp. apply bcast_tab1. reflexivity. }
  rewrite Hgu. cbn [bind].
  match goal with
  | |- bind ?r _ = _ =>
      assert (Hgv : r = Ok (tab3 K P L (fun k p t => gf k p t * uf k p)))
  end.
  { unfold bcast3, tab3, tab2. rewrite map_tab1. apply bcast_tab1.
    intros k Hk. rewrite firstn_tab1, map_tab1. apply bcast_tab1.
    intros p Hp. apply bcast_tab1_single. reflexivity. }
  rewrite Hgv. cbn [bind].
  unfold np_c_, tab3, tab2. rewrite !length_map, !tab1_length, Nat.eqb_refl.
  f_equal. rewrite !map_tab1, map2_tab1. apply tab1_ext. intros k Hk.
  rewrite map_tab1, sum_list_vadd_tab by exact HP.
  rewrite tab1_app. apply tab1_ext. intros j Hj. unfold grad_uv_entry.
  destruct (Nat.ltb_spec j P) as [Hlt|Hge]; [|reflexivity].
  rewrite np_sum_bigsum, tab1_length. apply bigsum_ext. intros t Ht.
  now rewrite (@tab1_nth R L).
Qed.

End ExactGradientUv.

Section ExactGradientUvMore.

#[local] Existing Instance RNum.
Local Open Scope R_scope.

Lemma rows_tab2 (a : list (list R)) (d1 d2 : nat) :
  rows_of d1 (has_len d2) a ->
  a = tab2 d1 d2 (fun i j => nth j (nth i a []) 0).
Proof.
  intros [H1 H2]. unfold tab2.
  rewrite (list_tab1 a []) at 1. rewrite H1. apply tab1_ext. intros i Hi.
  rewrite (list_tab1 (nth i a []) 0) at 1.
  replace (length (nth i a [])) with d2; [reflexivity|].
  symmetry. rewrite Forall_forall in H2. apply H2, nth_In. Rlia.
Qed.

Lemma rows_tab3 (a : list (list (list R))) (d1 d2 d3 : nat) :
  rows_of d1 (rows_of d2 (has_len d3)) a -> a = tab3 d1 d2 d3 (get3 a).
Proof.
  intros [H1 H2]. unfold tab3, get3.
  rewrite (list_tab1 a []) at 1. rewrite H1. apply tab1_ext. intros i Hi.
  apply rows_tab2. rewrite Forall_forall in H2. apply H2, nth_In. Rlia.
Qed.

Lemma tab3_rows (d1 d2 d3 : nat) (f : nat -> nat -> nat -> R) :
  rows_of d1 (rows_of d2 (has_len d3)) (tab3 d1 d2 d3 f).
Proof.
  unfold tab3, tab2, tab1.
  split; [now rewrite length_map, length_seq|].
  apply Forall_map, Forall_forall. intros i _.
  split; [now rewrite length_map, length_seq|].
  apply Forall_map, Forall_forall. intros j _.
  unfold has_len. now rewrite length_map, length_seq.
Qed.

(** The gradient from the residual, on arrays given by their entries. *)
Lemma _gradient_d_direct_tab (K n P L Tv : nat)
    (zf xf df : nat -> nat -> nat -> R) :
  (1 <= K)%nat -> (1 <= n)%nat -> (1 <= P)%nat -> (1 <= L)%nat ->
  (1 <= Tv)%nat ->
  _gradient_d (tab3 K P L df) (Some (tab3 n P (Tv + L - 1) xf))
    (Some (tab3 K n Tv zf)) None
  = Ok (tab3 K P L (residual_entry K n L Tv zf xf df)).
Proof.
  intros HK Hn HP HL HTv. unfold _gradient_d.
  rewrite (@construct_X_multi_tab K n P L Tv HK Hn HP HL HTv).
  rewrite (@bcast3_tab3 RNum). cbn [bind].
  rewrite (@_dense_transpose_convolve_tab K n P L Tv HK Hn HP HL HTv).
  reflexivity.
Qed.

(** The gradient from the statistics, on arrays given by their entries,
    is the same array. *)
Lemma _gradient_d_cached_tab (K n P L Tv : nat)
    (zf xf df zzf : nat -> nat -> nat -> R) (c : constants) :
  (1 <= K)%nat -> (1 <= n)%nat -> (1 <= P)%nat -> (1 <= L)%nat ->
  (1 <= Tv)%nat ->
  ZtZ c = tab3 K K (2 * L - 1) zzf ->
  ZtX c = tab3 K P L (corr_entry n Tv zf xf) ->
  (forall k k' m, (k < K)%nat -> (k' < K)%nat -> (m < 2 * L - 1)%nat ->
     zzf k k' m =
     bigsum n (fun i =>
       bigsum Tv (fun s => nth s (tab1 Tv (zf k i)) 0
                           * padded L (tab1 Tv (zf k' i)) (s + m)))) ->
  _gradient_d (tab3 K P L df) None None (Some c)
  = Ok (tab3 K P L (residual_entry K n L Tv zf xf df)).
Proof.
  intros HK Hn HP HL HTv Hzzc Hzxc Hzz. unfold _gradient_d.
  rewrite Hzzc, Hzxc.
  rewrite (@cached_convolution_tab K n P L Tv HK Hn HP HL HTv).
  rewrite (@bcast3_tab3 RNum).
  f_equal. symmetry. apply tab3_ext. intros k p t Hk Hp Ht.
  unfold residual_entry, cached_entry, corr_entry, X_hat_entry. Rsimp.
  rewrite (@sum4_residual n Tv K L
             (fun i s k' j => padded L (tab1 Tv (zf k' i)) (t + s + j)
                              * df k' p (L - 1 - j)%nat)
             (fun i s => xf i p (t + s)%nat)
             (fun i s => nth s (tab1 Tv (zf k i)) 0)).
  f_equal.
  apply bigsum_ext. intros k' Hk'. apply bigsum_ext. intros j Hj.
  rewrite Hzz by lia. rewrite <- bigsum_mult_r.
  apply bigsum_ext. intros i Hi. rewrite <- bigsum_mult_r.
  apply bigsum_ext. intros s Hs.
  replace (t + s + j)%nat with (s + (t + j))%nat by lia. ring.
Qed.

(** The statistics of a rectangular code and data, by their entries. *)
Lemma _get_d_update_constants_tab (X Z : list (list (list R)))
    (K n P L Tv : nat) :
  (1 <= K)%nat -> (1 <= n)%nat -> (1 <= P)%nat -> (1 <= L)%nat ->
  (1 <= Tv)%nat ->
  rows_of K (rows_of n (has_len Tv)) Z ->
  rows_of n (rows_of P (has_len (Tv + L - 1))) X ->
  exists c,
    _get_d_update_constants X Z = Ok c /\
    n_chan c = P /\ length (hd [] X) = P /\
    ZtZ c = tab3 K K (2 * L - 1) (get3 (ZtZ c)) /\
    ZtX c = tab3 K P L (corr_entry n Tv (get3 Z) (get3 X)) /\
    forall k k' m, (k < K)%nat -> (k' < K)%nat -> (m < 2 * L - 1)%nat ->
      get3 (ZtZ c) k k' m =
      bigsum n (fun i =>
        bigsum Tv (fun s => nth s (tab1 Tv (get3 Z k i)) 0
                            * padded L (tab1 Tv (get3 Z k' i)) (s + m))).
Proof.
  intros HK Hn HP HL HTv HZ HX.
  destruct (@_get_d_update_constants_rows RNum X Z K n P L Tv
              HK Hn HP HL HTv HZ HX) as (c & Hc & Hzz & Hzx & Hnc).
  exists c. split; [exact Hc|]. split; [exact Hnc|].
  destruct (_get_d_update_constants_Ok _ _ Hc) as (_ & _ & Hztx & Hnx).
  split; [rewrite <- Hnc; symmetry; exact Hnx|].
  split; [now apply rows_tab3|].
  pose proof (rows_tab3 HZ) as EZ. pose proof (rows_tab3 HX) as EX.
  assert (HZn : length (hd [] Z) = n).
  { apply (@rows_of_hd _ K (rows_of n (has_len Tv)) Z []); assumption. }
  assert (HZt : length (hd [] (hd [] Z)) = Tv).
  { apply (@rows_of_hd _ n (has_len Tv) (hd [] Z) []); [|exact Hn].
    apply (@rows_of_hd _ K (rows_of n (has_len Tv)) Z []); assumption. }
  assert (HXt : length (hd [] (hd [] X)) = (Tv + L - 1)%nat).
  { apply (@rows_of_hd _ P (has_len (Tv + L - 1)) (hd [] X) []); [|exact HP].
    apply (@rows_of_hd _ n (rows_of P (has_len (Tv + L - 1))) X []);
      assumption. }
  assert (HL' : n_times_atom X Z = L).
  { unfold n_times_atom. Rsimp. rewrite HZt, HXt. lia. }
  split.
  - rewrite Hztx.
    match goal with |- _ = ?rhs => set (G := rhs) end.
    rewrite EZ, EX. apply (@ZtX_tab K n P L Tv HK Hn HP HL HTv).
  - intros k k' m Hk Hk' Hm.
    pose proof (rows_shaped3 HZ) as HsZ.
    rewrite (@ZtZ_entry X Z c K n Tv L k k' m) by assumption.
    apply bigsum_ext. intros i Hi.
    now rewrite !(shaped3_row HsZ) by assumption.
Qed.

(** Both paths of [_gradient_d] return the correlation of the code with the
    residual. *)
Lemma _gradient_d_closed_form (Z X D : list (list (list R)))
    (K n P L Tv : nat) :
  (1 <= K)%nat -> (1 <= n)%nat -> (1 <= P)%nat -> (1 <= L)%nat ->
  (1 <= Tv)%nat ->
  rows_of K (rows_of n (has_len Tv)) Z ->
  rows_of n (rows_of P (has_len (Tv + L - 1))) X ->
  rows_of K (rows_of P (has_len L)) D ->
  exists c,
    _get_d_update_constants X Z = Ok c /\
    n_chan c = P /\ length (hd [] X) = P /\
    _gradient_d D None None (Some c)
      = Ok (tab3 K P L (residual_entry K n L Tv (get3 Z) (get3 X) (get3 D))) /\
    _gradient_d D (Some X) (Some Z) None
      = Ok (tab3 K P L (residual_entry K n L Tv (get3 Z) (get3 X) (get3 D))).
Proof.
  intros HK Hn HP HL HTv HZ HX HD.
  destruct (@_get_d_update_constants_tab X Z K n P L Tv HK Hn HP HL HTv HZ HX)
    as (c & Hc & Hnc & Hnx & Hzzc & Hzxc & Hzz).
  exists c. split; [exact Hc|]. split; [exact Hnc|]. split; [exact Hnx|].
  match goal with |- _ = ?rhs /\ _ => set (G := rhs) end.
  split.
  - rewrite (rows_tab3 HD).
    apply (@_gradient_d_cached_tab K n P L Tv (@get3 RNum Z) (@get3 RNum X)
             (@get3 RNum D) (@get3 RNum (ZtZ c)) c); assumption.
  - rewrite (rows_tab3 HD), (rows_tab3 HX), (rows_tab3 HZ).
    now apply _gradient_d_direct_tab.
Qed.

End ExactGradientUvMore.

Section ExactGradientUvTheorems.

#[local] Existing Instance RNum.
Local Open Scope R_scope.

(** In exact arithmetic [_gradient_uv] is the chain rule on the gradient
    with respect to [D]: the entry for the spatial coordinate [p] of atom
    [k] is the sum over the time steps [t] of [grad_d[k, p, t] * v[k, t]],
    and the entry for its temporal coordinate [t] is the sum over the
    channels [p] of [grad_d[k, p, t] * u[k, p]]. *)
Theorem _gradient_uv_chain_rule (uv : list (list R)) (c : constants)
    (K P L : nat) :
  (1 <= K)%nat -> (1 <= P)%nat -> (1 <= L)%nat ->
  has_shape3 (ZtZ c) K K (2 * L - 1) = true ->
  has_shape3 (ZtX c) K P L = true ->
  n_chan c = P ->
  has_shape2 uv K (P + L) = true ->
  exists gd g,
    _gradient_d (_get_D uv P) None None (Some c) = Ok gd /\
    _gradient_uv uv None None (Some c) = Ok g /\
    forall k, (k < K)%nat ->
      (forall p, (p < P)%nat ->
         nth p (nth k g []) 0 =
         bigsum L (fun t => get3 gd k p t * nth (P + t) (nth k uv []) 0)) /\
      (forall t, (t < L)%nat ->
         nth (P + t) (nth k g []) 0 =
         bigsum P (fun p => get3 gd k p t * nth p (nth k uv []) 0)).
Proof.
  intros HK HP HL Hzz Hzx Hn Huv.
  apply has_shape3_rows in Hzz, Hzx. apply has_shape2_rows in Huv.
  destruct (@_gradient_d_cached_rows RNum (@_get_D RNum uv P) c K P L HK HL
              Hzz Hzx
              (@_get_D_rows RNum uv K P L Huv)) as (gd & Hgd & Hs).
  pose proof (rows_tab2 Huv) as Euv. pose proof (rows_tab3 Hs) as Egd.
  set (uf := fun i j => nth j (nth i uv []) 0) in *.
  exists gd, (tab2 K (P + L) (grad_uv_entry P L (@get3 RNum gd) uf)).
  split; [exact Hgd|]. split.
  - rewrite Euv. apply _gradient_uv_tab; [exact HP|exact Hn|].
    rewrite <- Euv, Hgd. f_equal. exact Egd.
  - intros k Hk. unfold tab2. split.
    + intros p Hp.
      rewrite (@tab1_nth (list R) K) by exact Hk.
      rewrite (@tab1_nth R (P + L)) by lia.
      unfold grad_uv_entry. destruct (Nat.ltb_spec p P); [reflexivity|lia].
    + intros t Ht.
      rewrite (@tab1_nth (list R) K) by exact Hk.
      rewrite (@tab1_nth R (P + L)) by lia.
      unfold grad_uv_entry. destruct (Nat.ltb_spec (P + t) P); [lia|].
      replace (P + t - P)%nat with t by lia. reflexivity.
Qed.

(** In exact arithmetic, on rectangular data, code and atoms of consistent
    shapes, [_gradient_uv] returns the same gradient whether it is given
    the statistics of [_get_d_update_constants(X, Z)] or [X] and [Z]
    themselves. *)
Theorem _gradient_uv_paths_agree (Z X : list (list (list R)))
    (uv : list (list R)) (K n P L Tv : nat) :
  (1 <= K)%nat -> (1 <= n)%nat -> (1 <= P)%nat -> (1 <= L)%nat ->
  (1 <= Tv)%nat ->
  has_shape3 Z K n Tv = true ->
  has_shape3 X n P (Tv + L - 1) = true ->
  has_shape2 uv K (P + L) = true ->
  exists c g,
    _get_d_update_constants X Z = Ok c /\
    _gradient_uv uv None None (Some c) = Ok g /\
    _gradient_uv uv (Some X) (Some Z) None = Ok g.
Proof.
  intros HK Hn HP HL HTv HZ HX Huv.
  apply has_shape3_rows in HZ, HX. apply has_shape2_rows in Huv.
  destruct (@_gradient_d_closed_form Z X (@_get_D RNum uv P) K n P L Tv
              HK Hn HP HL HTv HZ HX (@_get_D_rows RNum uv K P L Huv))
    as (c & Hc & Hnc & Hnx & Hcached & Hdirect).
  pose proof (rows_tab2 Huv) as Euv.
  set (uf := fun i j => nth j (nth i uv []) 0) in *.
  set (gf := residual_entry K n L Tv (@get3 RNum Z) (@get3 RNum X)
               (@get3 RNum (@_get_D RNum uv P))) in *.
  exists c, (tab2 K (P + L) (grad_uv_entry P L gf uf)).
  split; [exact Hc|]. split.
  - rewrite Euv. apply _gradient_uv_tab; [exact HP|exact Hnc|].
    rewrite <- Euv. exact Hcached.
  - rewrite Euv. apply _gradient_uv_tab; [exact HP| |].
    + exists X, Z. auto.
    + rewrite <- Euv. exact Hdirect.
Qed.

(** In exact arithmetic the gradient that [_gradient_d] computes from the
    statistics, without ever forming the residual, is the correlation of
    the code with the residual of the reconstruction: its entry
    [(k, p, t)] is the sum over the trials [i] and the time steps [s] of
    [(construct_X_multi(Z, D) - X)[i, p, t + s] * Z[k, i, s]]. *)
Theorem _gradient_d_residual_correlation (Z X D : list (list (list R)))
    (K n P L Tv : nat) :
  (1 <= K)%nat -> (1 <= n)%nat -> (1 <= P)%nat -> (1 <= L)%nat ->
  (1 <= Tv)%nat ->
  has_shape3 Z K n Tv = true ->
  has_shape3 X n P (Tv + L - 1) = true ->
  has_shape3 D K P L = true ->
  exists c g,
    _get_d_update_constants X Z = Ok c /\
    _gradient_d D None None (Some c) = Ok g /\
    forall k p t, (k < K)%nat -> (p < P)%nat -> (t < L)%nat ->
      get3 g k p t =
      bigsum n (fun i =>
        bigsum Tv (fun s =>
          (get3 (construct_X_multi Z D) i p (t + s) - get3 X i p (t + s))
          * get3 Z k i s)).
Proof.
  intros HK Hn HP HL HTv HZ HX HD.
  apply has_shape3_rows in HZ, HX, HD.
  destruct (@_gradient_d_closed_form Z X D K n P L Tv HK Hn HP HL HTv HZ HX HD)
    as (c & Hc & _ & _ & Hcached & _).
  assert (EX : @construct_X_multi RNum Z D
               = tab3 n P (Tv + L - 1)
                   (X_hat_entry K L Tv (@get3 RNum Z) (@get3 RNum D))).
  { rewrite (rows_tab3 HZ) at 1. rewrite (rows_tab3 HD) at 1.
    apply (@construct_X_multi_tab K n P L Tv HK Hn HP HL HTv). }
  eexists c, _. split; [exact Hc|]. split; [exact Hcached|].
  intros k p t Hk Hp Ht. rewrite get3_tab3 by assumption.
  unfold residual_entry, corr_entry.
  apply bigsum_ext. intros i Hi. apply bigsum_ext. intros s Hs.
  rewrite EX, get3_tab3 by lia.
  now rewrite (@tab1_nth R Tv) by exact Hs.
Qed.

Lemma abs_sum_zeros (K M : nat) :
  abs_sum (tab2 K M (fun _ _ => 0)) = 0.
Proof.
  unfold abs_sum. rewrite np_sum_R. apply fold_right_Rplus_zero.
  apply Forall_map, Forall_concat. unfold tab2, tab1.
  apply Forall_map, Forall_forall. intros k _.
  apply Forall_map, Forall_forall. intros j _. Rsimp. apply Rabs_R0.
Qed.

(** A step along a gradient that is zero changes nothing. *)
Lemma isub2_zeros (K M : nat) (uf : nat -> nat -> R) (s : R) :
  isub2 (tab2 K M uf) (scale s (tab2 K M (fun _ _ => 0)))
  = Ok (tab2 K M uf).
Proof.
  unfold isub2, scale, tab2. rewrite map_tab1.
  unfold bcast_into at 1. rewrite !tab1_length, Nat.eqb_refl.
  apply zipM_tab1. intros k Hk. rewrite map_tab1.
  unfold bcast_into. rewrite !tab1_length, Nat.eqb_refl.
  apply zipM_tab1. intros j Hj. f_equal. Rsimp. ring.
Qed.

(** When the data is exactly the reconstruction from [uv_hat0], in exact
    arithmetic, the gradient is zero: whatever the step size, [update_uv]
    stops in its first iteration without a warning, and what it returns is
    [prox_uv(uv_hat0)]. *)
Theorem update_uv_stationary (Z : list (list (list R))) (uv_hat0 : loc)
    (max_iter : nat) (step_size : R) (eps : option R) (verbose : int)
    (w : world) (K n P L Tv : nat) :
  (1 <= K)%nat -> (1 <= n)%nat -> (1 <= P)%nat -> (1 <= L)%nat ->
  (1 <= Tv)%nat ->
  has_shape3 Z K n Tv = true ->
  has_shape2 (deref w uv_hat0) K (P + L) = true ->
  (1 <= max_iter)%nat ->
  0 <= tolerance eps ->
  exists l w',
    update_uv (construct_X_multi Z (_get_D (deref w uv_hat0) P)) Z uv_hat0
      max_iter step_size eps verbose w = (Ok l, w') /\
    deref w' l = prox_uv (deref w uv_hat0) /\
    stdout w' = stdout w ++
                  (if (1 <? verbose)%Z then [Iterations 1] else []).
Proof.
  intros HK Hn HP HL HTv HZ Huv Hiter Heps.
  apply has_shape3_rows in HZ. apply has_shape2_rows in Huv.
  set (uv := deref w uv_hat0) in *.
  pose proof (@_get_D_rows RNum uv K P L Huv) as HD.
  set (D := @_get_D RNum uv P) in *.
  assert (EX : @construct_X_multi RNum Z D
               = tab3 n P (Tv + L - 1)
                   (X_hat_entry K L Tv (@get3 RNum Z) (@get3 RNum D))).
  { rewrite (rows_tab3 HZ) at 1. rewrite (rows_tab3 HD) at 1.
    apply (@construct_X_multi_tab K n P L Tv HK Hn HP HL HTv). }
  set (X := @construct_X_multi RNum Z D) in *.
  assert (HX : rows_of n (rows_of P (has_len (Tv + L - 1))) X).
  { rewrite EX. apply tab3_rows. }
  destruct (@_gradient_d_closed_form Z X D K n P L Tv
              HK Hn HP HL HTv HZ HX HD)
    as (c & Hc & Hnc & _ & Hcached & _).
  assert (Hzero : tab3 K P L (residual_entry K n L Tv (@get3 RNum Z)
                                (@get3 RNum X) (@get3 RNum D))
                  = tab3 K P L (fun _ _ _ => 0)).
  { apply tab3_ext. intros k p t Hk Hp Ht.
    unfold residual_entry, corr_entry.
    apply bigsum_zero. intros i Hi. apply bigsum_zero. intros s Hs.
    rewrite EX, get3_tab3 by lia. ring. }
  rewrite Hzero in Hcached.
  pose proof (rows_tab2 Huv) as Euv.
  set (uf := fun i j => nth j (nth i uv []) 0) in *.
  assert (Hg : _gradient_uv uv None None (Some c)
               = Ok (tab2 K (P + L) (fun _ _ => 0))).
  { rewrite Euv.
    replace (tab2 K (P + L) (fun _ _ => 0))
      with (tab2 K (P + L) (grad_uv_entry P L (fun _ _ _ => 0) uf)).
    - apply _gradient_uv_tab; [exact HP|exact Hnc|].
      rewrite <- Euv. exact Hcached.
    - unfold tab2. apply tab1_ext. intros k Hk.
      apply tab1_ext. intros j Hj. unfold grad_uv_entry.
      destruct (Nat.ltb j P); apply bigsum_zero; intros; ring. }
  assert (Hm : isub2 uv (scale step_size (tab2 K (P + L) (fun _ _ => 0)))
               = Ok uv).
  { rewrite Euv. apply isub2_zeros. }
  assert (Hf : @nleb RNum (abs_sum (tab2 K (P + L) (fun _ _ => 0)))
                 (@tolerance RNum eps) = true).
  { rewrite abs_sum_zeros. Rsimp. unfold Rleb.
    destruct (Rle_dec 0 (@tolerance RNum eps)); [reflexivity|contradiction]. }
  destruct (@update_uv_locals_converges_at RNum X Z uv_hat0 max_iter 0
              step_size eps verbose w c uv
              (tab2 K (P + L) (fun _ _ => 0)) uv)
    as (s & w' & Hrun & _ & _ & Hres & Hout);
    [lia|exact Hc|reflexivity|exact Hg|exact Hm|exact Hf|].
  exists (uv_hat s), w'. rewrite update_uv_unfold, Hrun.
  split; [reflexivity|]. split; [exact Hres|exact Hout].
Qed.

End ExactGradientUvTheorems.

Section ExactGradientUvRuns.

#[local] Existing Instance RNum.
Local Open Scope R_scope.

Lemma _gradient_uv_chain_rule_witness :
  exists gd g,
    _gradient_d (_get_D [[3; 4]] 1) None None (Some cst_zeroR) = Ok gd /\
    _gradient_uv [[3; 4]] None None (Some cst_zeroR) = Ok g /\
    forall k, (k < 1)%nat ->
      (forall p, (p < 1)%nat ->
         nth p (nth k g []) 0 =
         bigsum 1 (fun t => get3 gd k p t
                            * nth (1 + t) (nth k [[3; 4]] []) 0)) /\
      (forall t, (t < 1)%nat ->
         nth (1 + t) (nth k g []) 0 =
         bigsum 1 (fun p => get3 gd k p t * nth p (nth k [[3; 4]] []) 0)).
Proof.
  apply (@_gradient_uv_chain_rule [[3; 4]] cst_zeroR 1 1 1);
    try lia; reflexivity.
Defined.

Lemma _gradient_d_residual_correlation_witness :
  exists c g,
    _get_d_update_constants X_runR Z_runR = Ok c /\
    _gradient_d D_runR None None (Some c) = Ok g /\
    forall k p t, (k < 2)%nat -> (p < 2)%nat -> (t < 2)%nat ->
      get3 g k p t =
      bigsum 1 (fun i =>
        bigsum 3 (fun s =>
          (get3 (construct_X_multi Z_runR D_runR) i p (t + s)
           - get3 X_runR i p (t + s))
          * get3 Z_runR k i s)).
Proof.
  apply (@_gradient_d_residual_correlation Z_runR X_runR D_runR 2 1 2 2 3);
    try lia; reflexivity.
Defined.

Lemma _gradient_uv_paths_agree_witness :
  exists c g,
    _get_d_update_constants X_runR Z_runR = Ok c /\
    _gradient_uv uv_runR None None (Some c) = Ok g /\
    _gradient_uv uv_runR (Some X_runR) (Some Z_runR) None = Ok g.
Proof.
  apply (@_gradient_uv_paths_agree Z_runR X_runR uv_runR 2 1 2 2 3);
    try lia; reflexivity.
Defined.

Lemma update_uv_stationary_witness :
  exists l w',
    update_uv (construct_X_multi Z_runR (_get_D (deref w_runR 0%nat) 2))
      Z_runR 0%nat 5%nat (1 / 2) (Some 0) 2%Z w_runR = (Ok l, w') /\
    deref w' l = prox_uv (deref w_runR 0%nat) /\
    stdout w' = stdout w_runR ++ [Iterations 1].
Proof.
  apply (@update_uv_stationary Z_runR 0%nat 5%nat (1 / 2) (Some 0) 2%Z
           w_runR 2 1 2 2 3); try lia; reflexivity.
Defined.

End ExactGradientUvRuns.

(** ** _gradient_uv: its exceptions *)

Section GradientUvExceptions.

Context {N : Num}.

(** The exceptions of [_gradient_uv]: the [AssertionError] of its two
    assertions, raised exactly when there are no statistics and [X] or [Z]
    is missing, or else a [ValueError] of numpy. *)
Theorem _gradient_uv_exceptions (uv : mat) (X Z : option ten)
    (cst : option constants) (e : exn) :
  _gradient_uv uv X Z cst = Raise e ->
  (e = AssertionError /\ cst = None /\ (X = None \/ Z = None)) \/
  (e = ValueError /\ (cst <> None \/ (X <> None /\ Z <> None))).
Proof.
  intros H. destruct cst as [c|].
  - right. split; [|left; discriminate].
    now apply (@_gradient_uv_only_ValueError N uv X Z c).
  - destruct X as [x|]; [destruct Z as [z|]|].
    + right. split; [|right; split; discriminate].
      revert e H. change (only_ValueError (_gradient_uv uv (Some x) (Some z) None)).
      unfold _gradient_uv, _gradient_d.
      apply bind_only_ValueError; [apply Ok_only_ValueError|]. intros p.
      apply bind_only_ValueError.
      { apply bind_only_ValueError; [apply bcast3_only_ValueError|].
        intros r. apply Ok_only_ValueError. }
      intros g.
      apply bind_only_ValueError; [apply bcast3_only_ValueError|]. intros gu.
      apply bind_only_ValueError; [apply bcast3_only_ValueError|]. intros gv.
      unfold np_c_. destruct (Nat.eqb _ _);
        [apply Ok_only_ValueError | apply Raise_only_ValueError].
    + left. inversion H. auto.
    + left. inversion H. auto.
Qed.

End GradientUvExceptions.

(** ** update_uv: tolerances that are never met *)

Section UnmetTolerance.

Context {N : Num}.

(** A tolerance that the convergence signal never meets: the loop is never
    left by [break]. *)
Lemma update_uv_loop_never_breaks (cst : constants) (step_size eps : num)
    (todo : nat) :
  (forall g, nleb (abs_sum g) eps = false) ->
  forall (i : nat) (last : option nat) (u : loc) (w : world) s w',
    update_uv_loop cst step_size eps todo i last u w = (Ok s, w') ->
    broke s = false /\
    ii s = match todo with O => last | S n => Some (i + n) end.
Proof.
  intros Hnever. induction todo as [|todo IH]; intros i last u w s w' H.
  - simpl in H. inversion H; subst. auto.
  - rewrite update_uv_loop_S in H.
    destruct (_gradient_uv (deref w u) None None (Some cst)) as [grad|e1];
      [|discriminate].
    destruct (isub2 (deref w u) (scale step_size grad)) as [m|e1];
      [|discriminate].
    rewrite Hnever in H. apply IH in H. destruct H as [Hb Hi].
    split; [exact Hb|]. rewrite Hi. destruct todo as [|n]; f_equal; lia.
Qed.

Lemma update_uv_never_converges (X Z : ten) (uv_hat0 : loc) (max_iter : nat)
    (step_size : num) (eps : option num) (verbose : int) (w : world)
    (l : loc) (w' : world) :
  (forall g, nleb (abs_sum g) (tolerance eps) = false) ->
  update_uv X Z uv_hat0 max_iter step_size eps verbose w = (Ok l, w') ->
  stdout w' = stdout w ++ DidNotConverge ::
                (if (1 <? verbose)%Z then [Iterations max_iter] else []).
Proof.
  intros Hnever H. rewrite update_uv_unfold in H.
  destruct (_get_d_update_constants X Z) as [c|e] eqn:Hc.
  2:{ unfold update_uv_locals in H. rewrite Hc in H. discriminate. }
  rewrite (@update_uv_locals_unfold N X Z uv_hat0 max_iter step_size eps
             verbose w c Hc) in H.
  destruct (update_uv_loop c step_size (tolerance eps) max_iter 0 None
              (length (heap w)) (snd (alloc w (deref w uv_hat0))))
    as [[s|e] w1] eqn:Hloop; [|discriminate].
  pose proof (update_uv_loop_frame _ _ _ _ _ _ _ _ Hloop) as (Hout & _ & _).
  rewrite alloc_stdout in Hout.
  destruct (@update_uv_loop_never_breaks c step_size (tolerance eps) max_iter
              Hnever 0 None _ _ s w1 Hloop) as [Hb Hi].
  cbv zeta in H. rewrite Hb, Hi in H.
  destruct (1 <? verbose)%Z.
  - destruct max_iter as [|n]; [discriminate|].
    inversion H; subst. cbn [print stdout]. rewrite Hout, <- app_assoc.
    simpl. now rewrite Nat.add_1_r.
  - inversion H; subst. cbn [print stdout]. now rewrite Hout.
Qed.

End UnmetTolerance.

Section Binary64Tolerance.

Import PrimFloat.
#[local] Existing Instance FNum.
Local Open Scope float_scope.

Lemma leb_nan (f : float) : leb f nan = false.
Proof.
  rewrite FloatAxioms.leb_spec.
  destruct (FloatOps.Prim2SF f) as [s|s| |s m e]; reflexivity.
Qed.

(** With binary64 numbers and a tolerance that is NaN the test
    [f <= eps] never holds: a call that returns has used its whole budget
    and printed the warning. *)
Theorem update_uv_nan_tolerance (X Z : ten) (uv_hat0 : loc) (max_iter : nat)
    (step_size : float) (verbose : int) (w : world) (l : loc) (w' : world) :
  update_uv X Z uv_hat0 max_iter step_size (Some nan) verbose w = (Ok l, w') ->
  stdout w' = stdout w ++ DidNotConverge ::
                (if (1 <? verbose)%Z then [Iterations max_iter] else []).
Proof.
  apply (@update_uv_never_converges FNum). intros g. apply leb_nan.
Qed.

Lemma update_uv_nan_tolerance_witness :
  exists l w',
    update_uv X_run Z_run 0%nat 3%nat step_run (Some nan) 2%Z w_run
      = (Ok l, w') /\
    stdout w' = [DidNotConverge; Iterations 3].
Proof.
  destruct (update_uv X_run Z_run 0%nat 3%nat step_run (Some nan) 2%Z w_run)
    as [[l|e] w'] eqn:E; [|vm_compute in E; discriminate E].
  exists l, w'. split; [reflexivity|].
  apply (@update_uv_nan_tolerance X_run Z_run 0%nat 3%nat step_run 2%Z w_run
           l w' E).
Defined.

Lemma _gradient_uv_exceptions_witness :
  (AssertionError = AssertionError /\ @None constants = None /\
   (@None (list (list (list float))) = None \/ Some Z_run = None)) \/
  (AssertionError = ValueError /\
   (@None constants <> None \/
    (@None (list (list (list float))) <> None /\ Some Z_run <> None))).
Proof.
  apply (@_gradient_uv_exceptions FNum uv_run None (Some Z_run) None
           AssertionError).
  reflexivity.
Defined.

End Binary64Tolerance.

Section ExactTolerance.

#[local] Existing Instance RNum.
Local Open Scope R_scope.

Lemma abs_sum_nonneg (g : list (list R)) : 0 <= abs_sum g.
Proof.
  unfold abs_sum. rewrite np_sum_R. apply fold_right_Rplus_nonneg.
  apply Forall_map, Forall_forall. intros x _. Rsimp. apply Rabs_pos.
Qed.

(** In exact arithmetic the convergence signal is never negative, so with a
    negative tolerance the loop is never left by [break]: a call that
    returns has used its whole budget and printed the warning. *)
Theorem update_uv_negative_tolerance (X Z : list (list (list R)))
    (uv_hat0 : loc) (max_iter : nat) (step_size : R) (eps : option R)
    (verbose : int) (w : world) (l : loc) (w' : world) :
  tolerance eps < 0 ->
  update_uv X Z uv_hat0 max_iter step_size eps verbose w = (Ok l, w') ->
  stdout w' = stdout w ++ DidNotConverge ::
                (if (1 <? verbose)%Z then [Iterations max_iter] else []).
Proof.
  intros Heps. apply (@update_uv_never_converges RNum). intros g.
  pose proof (abs_sum_nonneg g) as Hg. Rsimp. unfold Rleb.
  destruct (Rle_dec (@abs_sum RNum g) (@tolerance RNum eps)) as [Hle|_];
    [|reflexivity].
  Rsimp. lra.
Qed.

End ExactTolerance.

Section ExactToleranceRuns.

#[local] Existing Instance RNum.
Local Open Scope R_scope.

Lemma update_uv_negative_tolerance_witness :
  exists l w',
    update_uv X_runR Z_runR 0%nat 3%nat (1 / 2) (Some (-1)) 2%Z w_runR
      = (Ok l, w') /\
    stdout w' = [DidNotConverge; Iterations 3].
Proof.
  destruct (@update_uv_defined RNum X_runR Z_runR 0%nat 3%nat (1 / 2)
              (Some (-1)) 2%Z w_runR 2 1 2 2 3) as (l & w' & E & _);
    try lia;
    try (apply has_shape3_rows; reflexivity);
    try (apply has_shape2_rows; reflexivity).
  exists l, w'. split; [exact E|].
  apply (@update_uv_negative_tolerance X_runR Z_runR 0%nat 3%nat (1 / 2)
           (Some (-1)) 2%Z w_runR l w'); [simpl; lra|exact E].
Defined.

End ExactToleranceRuns.

(** * Binary64 arithmetic: rows whose computed norm is at most 1 *)

(** ** Division by 1 and comparison with 1 *)

Section Binary64Division.

Import SpecFloat.








End Binary64Division.

(** ** prox_uv on rows inside the unit ball *)

Section Binary64SmallRows.

Import PrimFloat.
#[local] Existing Instance FNum.
Local Open Scope float_scope.






End Binary64SmallRows.
